(** * kiwi.js: a shallow embedding of the Cassowary solver and its front end

    The development follows the TypeScript sources file by file:
    [strength.ts], [variable.ts], [expression.ts], [constraint.ts],
    [isymbol.ts], [row.ts] and the two revisions of [solver.ts] (the second
    one carries its own [Row] class).

    JavaScript numbers are modelled by exact rationals ([Q]): the sources
    only add, multiply, divide, negate and compare, and the specification
    speaks of real numbers.  Rounding, infinities and NaN are outside the
    model; a division by zero (which the sources guard against) yields 0
    in [Q].  A theorem about a number the caller supplies therefore states
    its conclusion under a comparison that holds of that number, which no
    NaN satisfies; and the two lemmas by which the pivots of [_optimize] and
    of [removeConstraint] leave no constant below zero are statements about
    the algorithm on exact numbers. *)

From Stdlib Require Import QArith Qminmax Qround Qabs ZArith List Sorted Bool.
From Stdlib Require Import Lia Lqa.
Import ListNotations.

Local Open Scope Q_scope.

(** ** Numbers *)

(** The type [number]. *)
Abbreviation number := Q (only parsing).

(** [a < b] on numbers, as a boolean. *)
Definition Qlt_bool (a b : Q) : bool := negb (Qle_bool b a).

(** [Number.MAX_VALUE], the largest finite double: (2^53 - 1) * 2^971. *)
Definition MAX_VALUE : Q := inject_Z ((2 ^ 53 - 1) * 2 ^ 971).

(** [const eps = 1.0e-8]. *)
Definition eps : Q := 1 # 100000000.

(** [nearZero] of row.ts and solver.ts:
    [value < 0.0 ? -value < eps : value < eps]. *)
Definition nearZero (value : number) : bool :=
  if Qlt_bool value 0 then Qlt_bool (- value) eps else Qlt_bool value eps.

(** ** Failures

    The sources signal a failure with [throw new Error(message)]; a
    constructor stands for each message.  [TypeError] is the error the
    JavaScript run time raises itself (reading a property of [undefined],
    [reduce] of an empty array with no initial value).  [OutOfFuel] belongs
    to the model only: the two [while] loops of the solver run on fuel. *)

Inductive Error : Type :=
| DuplicateConstraint      (* "duplicate constraint" *)
| UnknownConstraint        (* "unknown constraint" *)
| UnsatisfiableConstraint  (* "unsatisfiable constraint" *)
| DuplicateEditVariable    (* "duplicate edit variable" *)
| UnknownEditVariable      (* "unknown edit variable" *)
| BadRequiredStrength      (* "bad strength" *)
| ObjectiveUnbounded       (* "the objective is unbounded" *)
| NoLeavingRow             (* "failed to find leaving row" *)
| DualOptimizeFailed       (* "dual optimize failed" *)
| ArrayLength              (* "array must have length 2" *)
| ArrayItem0               (* "array item 0 must be a number" *)
| ArrayItem1               (* "array item 1 must be a variable or expression" *)
| InvalidArgument          (* "invalid Expression argument: ..." *)
| TypeError
| OutOfFuel.

Inductive Result (A : Type) : Type :=
| Ok (a : A)
| Err (e : Error).

Arguments Ok {A} a.
Arguments Err {A} e.

(** [Array.prototype.reduce(f)] with no initial value: the first element
    seeds the accumulator, and an empty array raises a TypeError. *)
Definition Array_reduce {A : Type} (f : A -> A -> A) (arr : list A) : Result A :=
  match arr with
  | [] => Err TypeError
  | x :: rest => Ok (fold_left f rest x)
  end.

(** ** maptype.ts *)

(** The static [Compare] functions of the key classes all read
    [a.id - b.id]: a key class is one with an [id]. *)
Class Keyed (K : Type) := key_id : K -> Z.

Module IMap.

(** Modelled from the spec: maptype.ts ([createMap], [IMap]) is not among the
    sources.  The specification calls every map of the system a mapping
    "ordered by id" with unique keys whose iteration order is that order; the
    map is therefore a list of pairs kept sorted by the key's id. *)
Definition t (K V : Type) : Type := list (K * V).

Section Ops.
Context {K V : Type} {HK : Keyed K}.

(** Modelled from the spec: [empty()] of the missing maptype.ts, whether
    the map has no pair. *)
Definition empty (m : t K V) : bool :=
  match m with [] => true | _ => false end.

(** Modelled from the spec: [size()] of the missing maptype.ts. *)
Definition size (m : t K V) : nat := length m.

(** Modelled from the spec: [itemAt(i)] of the missing maptype.ts, the
    i-th pair in the order of the ids. *)
Definition itemAt (i : nat) (m : t K V) : option (K * V) := nth_error m i.

(** Modelled from the spec: [find(key)] of the missing maptype.ts, the pair
    of the key or [undefined] ([None]), as its callers test it. *)
Fixpoint find (k : K) (m : t K V) : option (K * V) :=
  match m with
  | [] => None
  | p :: m' => if (key_id (fst p) =? key_id k)%Z then Some p else find k m'
  end.

(** Modelled from the spec: [contains(key)] of the missing maptype.ts. *)
Definition contains (k : K) (m : t K V) : bool :=
  match find k m with Some _ => true | None => false end.

(** Modelled from the spec: [insert(key, value)] of the missing maptype.ts:
    the key gets the value, at its place in the order of the ids. *)
Fixpoint insert (k : K) (v : V) (m : t K V) : t K V :=
  match m with
  | [] => [(k, v)]
  | p :: m' =>
      if (key_id k <? key_id (fst p))%Z then (k, v) :: m
      else if (key_id k =? key_id (fst p))%Z then (fst p, v) :: m'
      else p :: insert k v m'
  end.

(** Modelled from the spec: the map that [erase(key)] of the missing
    maptype.ts leaves. *)
Fixpoint remove (k : K) (m : t K V) : t K V :=
  match m with
  | [] => []
  | p :: m' => if (key_id (fst p) =? key_id k)%Z then m' else p :: remove k m'
  end.

(** Modelled from the spec: [erase(key)] of the missing maptype.ts: the
    removed pair (or [undefined]) and the map without it. *)
Definition erase (k : K) (m : t K V) : option (K * V) * t K V :=
  (find k m, remove k m).

(** Modelled from the spec: [setDefault(key, default)] of the missing
    maptype.ts: the pair of [key], and the map, to which the pair
    [(key, default)] is added when [key] was absent.  The callers pass the
    default as a value (first revision) or as a function that returns it
    (second revision), and read or update the [second] of the returned
    pair. *)
Definition setDefault (k : K) (v : V) (m : t K V) : (K * V) * t K V :=
  match find k m with
  | Some p => (p, m)
  | None => ((k, v), insert k v m)
  end.

(** An in-place update of every pair's [second], as the loops and the
    [map] callbacks of the [Row] class perform it. *)
Definition mapValues (f : V -> V) (m : t K V) : t K V :=
  List.map (fun p => (fst p, f (snd p))) m.

End Ops.

(** Modelled from the spec: [map(callback)] of the missing maptype.ts: the
    array of the callback's results, in the order of the ids (its callers
    apply [reduce], [push] and [join] to the result). *)
Definition map {K V B : Type} (f : K * V -> B) (m : t K V) : list B :=
  List.map f m.

End IMap.

(** ** strength.ts *)

Module Strength.

(** [Strength.create(a, b, c, w = 1.0)].  Whole-number components between
    0 and 1000 with the weight 1 are computed exactly by the source as
    well. *)
Definition create (a b c w : number) : number :=
  let result := 0 in
  let result := result + Qmax 0 (Qmin 1000 (a * w)) * 1000000 in
  let result := result + Qmax 0 (Qmin 1000 (b * w)) * 1000 in
  let result := result + Qmax 0 (Qmin 1000 (c * w)) in
  result.

Definition required : number := create 1000 1000 1000 1.
Definition strong : number := create 1 0 0 1.
Definition medium : number := create 0 1 0 1.
Definition weak : number := create 0 0 1 1.

(** [Strength.clip(value)].  The source returns NaN for a NaN, which no
    number of the model stands for. *)
Definition clip (value : number) : number :=
  Qmax 0 (Qmin required value).

End Strength.

(** ** variable.ts, expression.ts *)

Module Var.

(** A [Variable] is known by its [id], drawn from the counter [VarId].  Its
    mutable [value] field lives in the store [values] below; [name] and
    [context] play no part in any computation. *)
Record t : Type := mk { id : Z }.

End Var.

#[global] Instance Var_Keyed : Keyed Var.t := Var.id.

(** The [value] fields of all variables: a store from variable ids, 0.0 at
    construction. *)
Definition values : Type := Z -> number.

Definition initial_values : values := fun _ => 0.

Definition set_value (v : Var.t) (x : number) (st : values) : values :=
  fun i => if (i =? Var.id v)%Z then x else st i.

Module Expression.

Record t : Type := mk {
  terms : IMap.t Var.t number;
  constant : number
}.

(** What a caller may pass to the variadic constructor: a number, a
    [Variable], an [Expression], an array, or anything else. *)
#[warnings="-register-all"]
Inductive Item : Type :=
| INumber (n : number)
| IVariable (v : Var.t)
| IExpression (e : t)
| IArray (items : list Item)
| IOther.

(** The inner loop of [parseArgs] over the terms of an expression argument:
    [terms.setDefault(termPair.first, () => termPair.second * value)]. *)
Definition mergeTerms (value : number) (terms2 terms : IMap.t Var.t number)
  : IMap.t Var.t number :=
  fold_left
    (fun acc termPair =>
       snd (IMap.setDefault (fst termPair) (snd termPair * value) acc))
    terms2 terms.

(** [parseArgs(args)], as a loop over [args] carrying [constant] and
    [terms]. *)
Fixpoint parseArgs_from (args : list Item) (constant : number)
  (terms : IMap.t Var.t number) : Result t :=
  match args with
  | [] => Ok (mk terms constant)
  | INumber item :: rest => parseArgs_from rest (constant + item) terms
  | IVariable item :: rest =>
      parseArgs_from rest constant (snd (IMap.setDefault item 1 terms))
  | IExpression item :: rest =>
      parseArgs_from rest (constant + Expression.constant item)
        (fold_left
           (fun acc termPair =>
              snd (IMap.setDefault (fst termPair) (snd termPair) acc))
           (Expression.terms item) terms)
  | IArray item :: rest =>
      match item with
      | [value; value2] =>
          match value with
          | INumber value =>
              match value2 with
              | IVariable value2 =>
                  parseArgs_from rest constant
                    (snd (IMap.setDefault value2 value terms))
              | IExpression value2 =>
                  parseArgs_from rest
                    (constant + Expression.constant value2 * value)
                    (mergeTerms value (Expression.terms value2) terms)
              | _ => Err ArrayItem1
              end
          | _ => Err ArrayItem0
          end
      | _ => Err ArrayLength
      end
  | IOther :: _ => Err InvalidArgument
  end.

Definition parseArgs (args : list Item) : Result t :=
  parseArgs_from args 0 [].

(** [new Expression(...args)]. *)
Definition new (args : list Item) : Result t := parseArgs args.

(** [get value()]: the constant plus the [reduce] of the mapped terms. *)
Definition value (st : values) (e : t) : Result number :=
  match Array_reduce Qplus
          (IMap.map (fun p => st (Var.id (fst p)) * snd p) (terms e)) with
  | Ok sum => Ok (constant e + sum)
  | Err err => Err err
  end.

Definition isConstant (e : t) : bool :=
  Nat.eqb (IMap.size (terms e)) 0.

(** [plus], [minus], [multiply] and [divide] read the same in [Variable]
    and in [Expression]; [this] is passed as an [Item]. *)
Definition plus (this value : Item) : Result t := new [this; value].

Definition minus (this value : Item) : Result t :=
  new [this;
       match value with
       | INumber value => INumber (- value)
       | _ => IArray [INumber (-1); value]
       end].

Definition multiply (this : Item) (coefficient : number) : Result t :=
  new [IArray [INumber coefficient; this]].

Definition divide (this : Item) (coefficient : number) : Result t :=
  new [IArray [INumber (1 / coefficient); this]].

End Expression.

(** ** constraint.ts *)

Inductive Operator : Type := Le | Ge | Eq.

Module Constraint.

(** A [Constraint] with its [id], drawn from the counter [CnId]. *)
Record t : Type := mk {
  expression : Expression.t;
  operator : Operator;
  strength : number;
  id : Z
}.

(** [new Constraint(expression, operator, rhs, strength)]; [cnId] is the
    value of the counter [CnId] at the call, and [rhs = None] stands for
    [undefined].  [expression] is typed [Expression|Variable]: anything else
    has no [minus] method. *)
Definition new (cnId : Z) (expression : Expression.Item) (operator : Operator)
  (rhs : option Expression.Item) (strength : number) : Result t :=
  let strength := Strength.clip strength in
  match rhs, expression with
  | None, Expression.IExpression e => Ok (mk e operator strength cnId)
  | _, Expression.IExpression _ | _, Expression.IVariable _ =>
      match Expression.minus expression
              (match rhs with Some r => r | None => Expression.IOther end) with
      | Ok e => Ok (mk e operator strength cnId)
      | Err err => Err err
      end
  | _, _ => Err TypeError
  end.

End Constraint.

#[global] Instance Constraint_Keyed : Keyed Constraint.t := Constraint.id.

(** ** isymbol.ts *)

(** The enum [ISymbolType]; [Error_] is its member [Error]. *)
Inductive ISymbolType : Type := Invalid | External | Slack | Error_ | Dummy.

Definition ISymbolType_eqb (a b : ISymbolType) : bool :=
  match a, b with
  | Invalid, Invalid | External, External | Slack, Slack
  | Error_, Error_ | Dummy, Dummy => true
  | _, _ => false
  end.

Module ISymbol.

Record t : Type := mk { type : ISymbolType; id : Z }.

End ISymbol.

#[global] Instance ISymbol_Keyed : Keyed ISymbol.t := ISymbol.id.

Definition INVALID_SYMBOL : ISymbol.t := ISymbol.mk Invalid (-1).

(** ** The [Row] class: what row.ts and the second revision of solver.ts
    share

    The two revisions of the class have the same fields and differ in
    [insertISymbol] (on which [insertRow], [solveForEx] and [substitute]
    are built) and in [allDummies]. *)

Module RowBase.

Record t : Type := mk {
  constant : number;
  cells : IMap.t ISymbol.t number
}.

(** [new Row(constant = 0.0)]. *)
Definition new (constant : number) : t := mk constant [].

Definition isConstant (this : t) : bool := IMap.empty (cells this).

Definition copy (this : t) : t := mk (constant this) (cells this).

(** [add(value)]: the row after [this.constant += value]; the method
    returns the new constant. *)
Definition add (value : number) (this : t) : t :=
  mk (constant this + value) (cells this).

Definition removeISymbol (symbol : ISymbol.t) (this : t) : t :=
  mk (constant this) (snd (IMap.erase symbol (cells this))).

Definition reverseSign (this : t) : t :=
  mk (- constant this) (IMap.mapValues Qopp (cells this)).

(** [solveFor(symbol)]; reading [pair.second] of an absent cell is a
    TypeError. *)
Definition solveFor (symbol : ISymbol.t) (this : t) : Result t :=
  match IMap.erase symbol (cells this) with
  | (Some pr, cells') =>
      let coeff := -1 / snd pr in
      Ok (mk (constant this * coeff)
            (IMap.mapValues (fun second => second * coeff) cells'))
  | (None, _) => Err TypeError
  end.

Definition coefficientFor (symbol : ISymbol.t) (this : t) : number :=
  match IMap.find symbol (cells this) with
  | Some pr => snd pr
  | None => 0
  end.

Section WithInsert.
Variable insertISymbol : ISymbol.t -> number -> t -> t.

Definition insertRow (other : t) (coefficient : number) (this : t) : t :=
  fold_left
    (fun this pair => insertISymbol (fst pair) (snd pair * coefficient) this)
    (cells other)
    (mk (constant this + constant other * coefficient) (cells this)).

Definition solveForEx (lhs rhs : ISymbol.t) (this : t) : Result t :=
  solveFor rhs (insertISymbol lhs (-1) this).

Definition substitute (symbol : ISymbol.t) (row : t) (this : t) : t :=
  match IMap.erase symbol (cells this) with
  | (Some pr, cells') => insertRow row (snd pr) (mk (constant this) cells')
  | (None, _) => this
  end.

End WithInsert.

End RowBase.

(** ** row.ts *)

Module Row.

(** [allDummies()]: [cells.map(...).reduce((a, b) => a && b)]. *)
Definition allDummies (this : RowBase.t) : Result bool :=
  Array_reduce andb
    (IMap.map (fun pair => ISymbolType_eqb (ISymbol.type (fst pair)) Dummy)
       (RowBase.cells this)).

(** [insertISymbol(symbol, coefficient = 1.0)]:
    [let pair = this.cells.setDefault(symbol, coefficient);
     if (nearZero(pair.second)) this.cells.erase(symbol);] *)
Definition insertISymbol (symbol : ISymbol.t) (coefficient : number)
  (this : RowBase.t) : RowBase.t :=
  let (pr, cells) := IMap.setDefault symbol coefficient (RowBase.cells this) in
  if nearZero (snd pr)
  then RowBase.mk (RowBase.constant this) (snd (IMap.erase symbol cells))
  else RowBase.mk (RowBase.constant this) cells.

Definition insertRow := RowBase.insertRow insertISymbol.
Definition solveForEx := RowBase.solveForEx insertISymbol.
Definition substitute := RowBase.substitute insertISymbol.

End Row.

(** ** The [Row] class of solver.ts, second revision *)

Module Row2.

(** [allDummies()]: a loop that returns false at the first cell whose
    symbol is not a dummy, and true after the last cell. *)
Fixpoint allDummies_from (cells : IMap.t ISymbol.t number) : bool :=
  match cells with
  | [] => true
  | cell :: rest =>
      if negb (ISymbolType_eqb (ISymbol.type (fst cell)) Dummy) then false
      else allDummies_from rest
  end.

Definition allDummies (this : RowBase.t) : Result bool :=
  Ok (allDummies_from (RowBase.cells this)).

(** [insertISymbol(symbol, coefficient = 1.0)]:
    [let pair = this._cellMap.setDefault(symbol, () => 0.0);
     if (nearZero(pair.second += coefficient)) this._cellMap.erase(symbol);] *)
Definition insertISymbol (symbol : ISymbol.t) (coefficient : number)
  (this : RowBase.t) : RowBase.t :=
  let (pr, cells) := IMap.setDefault symbol 0 (RowBase.cells this) in
  let second := snd pr + coefficient in
  if nearZero second
  then RowBase.mk (RowBase.constant this) (snd (IMap.erase symbol cells))
  else RowBase.mk (RowBase.constant this) (IMap.insert symbol second cells).

Definition insertRow := RowBase.insertRow insertISymbol.
Definition solveForEx := RowBase.solveForEx insertISymbol.
Definition substitute := RowBase.substitute insertISymbol.

End Row2.

(** ** solver.ts *)

Module ITag.
Record t : Type := mk { marker : ISymbol.t; other : ISymbol.t }.
End ITag.

Module IEditInfo.
Record t : Type := mk {
  tag : ITag.t;
  constraint : Constraint.t;
  constant : number
}.
End IEditInfo.

Module IRowCreation.
Record t : Type := mk { row : RowBase.t; tag : ITag.t }.
End IRowCreation.

(** The fields of a [Solver].  [infeasibleRows] is the array
    [_infeasibleRows] with its last element first: [push] is [cons] and
    [pop] takes the head. *)
Record Solver : Type := mkSolver {
  constraints : IMap.t Constraint.t ITag.t;
  rows : IMap.t ISymbol.t RowBase.t;
  vars : IMap.t Var.t ISymbol.t;
  edits : IMap.t Var.t IEditInfo.t;
  infeasibleRows : list ISymbol.t;
  objective : RowBase.t;
  artificial : option RowBase.t;
  idTick : Z
}.

(** [new Solver()]. *)
Definition newSolver : Solver :=
  mkSolver [] [] [] [] [] (RowBase.new 0) None 0.

Definition set_constraints (x : IMap.t Constraint.t ITag.t) (s : Solver) :=
  mkSolver x (rows s) (vars s) (edits s) (infeasibleRows s) (objective s)
    (artificial s) (idTick s).
Definition set_rows (x : IMap.t ISymbol.t RowBase.t) (s : Solver) :=
  mkSolver (constraints s) x (vars s) (edits s) (infeasibleRows s)
    (objective s) (artificial s) (idTick s).
Definition set_vars (x : IMap.t Var.t ISymbol.t) (s : Solver) :=
  mkSolver (constraints s) (rows s) x (edits s) (infeasibleRows s)
    (objective s) (artificial s) (idTick s).
Definition set_edits (x : IMap.t Var.t IEditInfo.t) (s : Solver) :=
  mkSolver (constraints s) (rows s) (vars s) x (infeasibleRows s)
    (objective s) (artificial s) (idTick s).
Definition set_infeasibleRows (x : list ISymbol.t) (s : Solver) :=
  mkSolver (constraints s) (rows s) (vars s) (edits s) x (objective s)
    (artificial s) (idTick s).
Definition set_objective (x : RowBase.t) (s : Solver) :=
  mkSolver (constraints s) (rows s) (vars s) (edits s) (infeasibleRows s) x
    (artificial s) (idTick s).
Definition set_artificial (x : option RowBase.t) (s : Solver) :=
  mkSolver (constraints s) (rows s) (vars s) (edits s) (infeasibleRows s)
    (objective s) x (idTick s).
Definition set_idTick (x : Z) (s : Solver) :=
  mkSolver (constraints s) (rows s) (vars s) (edits s) (infeasibleRows s)
    (objective s) (artificial s) x.

(** A method of the solver: it reads and writes the fields and returns or
    throws.  What was written before a throw stays written. *)
Definition M (A : Type) : Type := Solver -> Result A * Solver.

Definition ret {A : Type} (a : A) : M A := fun s => (Ok a, s).

Definition bind {A B : Type} (m : M A) (f : A -> M B) : M B :=
  fun s =>
    match m s with
    | (Ok a, s') => f a s'
    | (Err e, s') => (Err e, s')
    end.

Definition throw {A : Type} (e : Error) : M A := fun s => (Err e, s).

Definition gets {A : Type} (f : Solver -> A) : M A := fun s => (Ok (f s), s).

Definition modify (f : Solver -> Solver) : M unit := fun s => (Ok tt, f s).

Definition lift {A : Type} (r : Result A) : M A := fun s => (r, s).

Declare Scope solver_scope.
Delimit Scope solver_scope with solver.
Notation "x <- m ;; f" := (bind m (fun x => f))
  (at level 61, m at next level, right associativity) : solver_scope.
Notation "m ;; f" := (bind m (fun _ => f))
  (at level 61, right associativity) : solver_scope.

Definition isInvalid (symbol : ISymbol.t) : bool :=
  ISymbolType_eqb (ISymbol.type symbol) Invalid.

(** Which row [_optimize] was handed: [this.objective] or
    [this._artificial].  The loop reads it anew at each turn, as
    [_substitute] rewrites it in place in between. *)
Inductive Target : Type := TObjective | TArtificial.

Definition target_row (target : Target) (s : Solver) : RowBase.t :=
  match target with
  | TObjective => objective s
  | TArtificial =>
      match artificial s with Some r => r | None => RowBase.new 0 end
  end.

(** A call of one of the public methods that change a solver. *)
Inductive Call : Type :=
| CreateConstraint (cnId : Z) (lhs : Expression.Item) (operator : Operator)
    (rhs : Expression.Item) (strength : number)
| AddConstraint (constraint : Constraint.t)
| RemoveConstraint (constraint : Constraint.t)
| AddEditVariable (cnId : Z) (variable : Var.t) (strength : number)
| RemoveEditVariable (variable : Var.t)
| SuggestValue (variable : Var.t) (value : number).

(** The methods of [Solver].  The two revisions of solver.ts read the same
    but for [_getMarkerLeavingISymbol] and for the [Row] class they use, so
    the methods are written once over these. *)

Module SolverCore.

Section Revision.
Variable insertISymbol : ISymbol.t -> number -> RowBase.t -> RowBase.t.
Variable allDummies : RowBase.t -> Result bool.
Variable _getMarkerLeavingISymbol :
  IMap.t ISymbol.t RowBase.t -> ISymbol.t -> ISymbol.t.

Local Open Scope solver_scope.

Definition insertRow := RowBase.insertRow insertISymbol.
Definition solveForEx := RowBase.solveForEx insertISymbol.
Definition substitute := RowBase.substitute insertISymbol.

Definition _makeISymbol (type : ISymbolType) : M ISymbol.t :=
  fun s => (Ok (ISymbol.mk type (idTick s)), set_idTick (idTick s + 1)%Z s).

Definition _getVarISymbol (variable : Var.t) : M ISymbol.t :=
  symbol <- _makeISymbol External ;;
  fun s =>
    let (pr, vars') := IMap.setDefault variable symbol (vars s) in
    (Ok (snd pr), set_vars vars' s).

(** The loop of [_createRow] over the terms of the expression. *)
Fixpoint _createRow_terms (terms : IMap.t Var.t number) (row : RowBase.t)
  : M RowBase.t :=
  match terms with
  | [] => ret row
  | termPair :: rest =>
      if negb (nearZero (snd termPair)) then
        symbol <- _getVarISymbol (fst termPair) ;;
        basicPair <- gets (fun s => IMap.find symbol (rows s)) ;;
        match basicPair with
        | Some basic =>
            _createRow_terms rest (insertRow (snd basic) (snd termPair) row)
        | None =>
            _createRow_terms rest (insertISymbol symbol (snd termPair) row)
        end
      else _createRow_terms rest row
  end.

Definition objective_insertISymbol (symbol : ISymbol.t) (coefficient : number)
  : M unit :=
  modify (fun s => set_objective (insertISymbol symbol coefficient (objective s)) s).

Definition _createRow (constraint : Constraint.t) : M IRowCreation.t :=
  let expr := Constraint.expression constraint in
  row <- _createRow_terms (Expression.terms expr)
           (RowBase.new (Expression.constant expr)) ;;
  let strength := Constraint.strength constraint in
  created <-
    match Constraint.operator constraint with
    | Eq =>
        if Qlt_bool strength Strength.required then
          errplus <- _makeISymbol Error_ ;;
          errminus <- _makeISymbol Error_ ;;
          let row := insertISymbol errplus (-1) row in
          let row := insertISymbol errminus 1 row in
          objective_insertISymbol errplus strength ;;
          objective_insertISymbol errminus strength ;;
          ret (IRowCreation.mk row (ITag.mk errplus errminus))
        else
          dummy <- _makeISymbol Dummy ;;
          let row := insertISymbol dummy 1 row in
          ret (IRowCreation.mk row (ITag.mk dummy INVALID_SYMBOL))
    | op =>
        let coeff := match op with Le => 1 | _ => -1 end in
        slack <- _makeISymbol Slack ;;
        let row := insertISymbol slack coeff row in
        if Qlt_bool strength Strength.required then
          error <- _makeISymbol Error_ ;;
          let row := insertISymbol error (- coeff) row in
          objective_insertISymbol error strength ;;
          ret (IRowCreation.mk row (ITag.mk slack error))
        else
          ret (IRowCreation.mk row (ITag.mk slack INVALID_SYMBOL))
    end ;;
  let row := IRowCreation.row created in
  let row :=
    if Qlt_bool (RowBase.constant row) 0 then RowBase.reverseSign row else row in
  ret (IRowCreation.mk row (IRowCreation.tag created)).

Definition isPivotable (symbol : ISymbol.t) : bool :=
  match ISymbol.type symbol with Slack | Error_ => true | _ => false end.

Fixpoint firstExternal (cells : IMap.t ISymbol.t number) : option ISymbol.t :=
  match cells with
  | [] => None
  | cell :: rest =>
      if ISymbolType_eqb (ISymbol.type (fst cell)) External
      then Some (fst cell) else firstExternal rest
  end.

Definition _chooseSubject (row : RowBase.t) (tag : ITag.t) : ISymbol.t :=
  match firstExternal (RowBase.cells row) with
  | Some symbol => symbol
  | None =>
      if isPivotable (ITag.marker tag)
         && Qlt_bool (RowBase.coefficientFor (ITag.marker tag) row) 0
      then ITag.marker tag
      else if isPivotable (ITag.other tag)
              && Qlt_bool (RowBase.coefficientFor (ITag.other tag) row) 0
      then ITag.other tag
      else INVALID_SYMBOL
  end.

(** The loop of [_substitute] over [this.rows]: the rows after the
    substitution and [_infeasibleRows] after the pushes. *)
Fixpoint _substitute_rows (symbol : ISymbol.t) (row : RowBase.t)
  (rs : IMap.t ISymbol.t RowBase.t) (infeasible : list ISymbol.t)
  : IMap.t ISymbol.t RowBase.t * list ISymbol.t :=
  match rs with
  | [] => ([], infeasible)
  | pr :: rest =>
      let second := substitute symbol row (snd pr) in
      let infeasible :=
        if Qlt_bool (RowBase.constant second) 0
           && negb (ISymbolType_eqb (ISymbol.type (fst pr)) External)
        then fst pr :: infeasible else infeasible in
      let (rest', infeasible') := _substitute_rows symbol row rest infeasible in
      ((fst pr, second) :: rest', infeasible')
  end.

Definition _substitute (symbol : ISymbol.t) (row : RowBase.t) : M unit :=
  modify (fun s =>
    let (rows', infeasible') :=
      _substitute_rows symbol row (rows s) (infeasibleRows s) in
    let s := set_infeasibleRows infeasible' (set_rows rows' s) in
    let s := set_objective (substitute symbol row (objective s)) s in
    match artificial s with
    | Some a => set_artificial (Some (substitute symbol row a)) s
    | None => s
    end).

Fixpoint _getEnteringISymbol_from (cells : IMap.t ISymbol.t number) : ISymbol.t :=
  match cells with
  | [] => INVALID_SYMBOL
  | cell :: rest =>
      if Qlt_bool (snd cell) 0
         && negb (ISymbolType_eqb (ISymbol.type (fst cell)) Dummy)
      then fst cell else _getEnteringISymbol_from rest
  end.

Definition _getEnteringISymbol (objective : RowBase.t) : ISymbol.t :=
  _getEnteringISymbol_from (RowBase.cells objective).

Fixpoint _getDualEnteringISymbol_from (objective : RowBase.t)
  (cells : IMap.t ISymbol.t number) (ratio : number) (entering : ISymbol.t)
  : ISymbol.t :=
  match cells with
  | [] => entering
  | cell :: rest =>
      let symbol := fst cell in
      let c := snd cell in
      if Qlt_bool 0 c && negb (ISymbolType_eqb (ISymbol.type symbol) Dummy) then
        let coeff := RowBase.coefficientFor symbol objective in
        let r := coeff / c in
        if Qlt_bool r ratio
        then _getDualEnteringISymbol_from objective rest r symbol
        else _getDualEnteringISymbol_from objective rest ratio entering
      else _getDualEnteringISymbol_from objective rest ratio entering
  end.

Definition _getDualEnteringISymbol (objective row : RowBase.t) : ISymbol.t :=
  _getDualEnteringISymbol_from objective (RowBase.cells row) MAX_VALUE
    INVALID_SYMBOL.

Fixpoint _getLeavingISymbol_from (entering : ISymbol.t)
  (rs : IMap.t ISymbol.t RowBase.t) (ratio : number) (found : ISymbol.t)
  : ISymbol.t :=
  match rs with
  | [] => found
  | pr :: rest =>
      let symbol := fst pr in
      if negb (ISymbolType_eqb (ISymbol.type symbol) External) then
        let row := snd pr in
        let temp := RowBase.coefficientFor entering row in
        if Qlt_bool temp 0 then
          let tempRatio := - RowBase.constant row / temp in
          if Qlt_bool tempRatio ratio
          then _getLeavingISymbol_from entering rest tempRatio symbol
          else _getLeavingISymbol_from entering rest ratio found
        else _getLeavingISymbol_from entering rest ratio found
      else _getLeavingISymbol_from entering rest ratio found
  end.

Definition _getLeavingISymbol (rs : IMap.t ISymbol.t RowBase.t)
  (entering : ISymbol.t) : ISymbol.t :=
  _getLeavingISymbol_from entering rs MAX_VALUE INVALID_SYMBOL.

Fixpoint _anyPivotableISymbol_from (cells : IMap.t ISymbol.t number) : ISymbol.t :=
  match cells with
  | [] => INVALID_SYMBOL
  | cell :: rest =>
      if isPivotable (fst cell) then fst cell
      else _anyPivotableISymbol_from rest
  end.

Definition _anyPivotableISymbol (row : RowBase.t) : ISymbol.t :=
  _anyPivotableISymbol_from (RowBase.cells row).

(** [_optimize(objective)]; [fuel] bounds the turns of [while (true)]. *)
Fixpoint _optimize (fuel : nat) (target : Target) : M unit :=
  match fuel with
  | O => throw OutOfFuel
  | S fuel =>
      objective <- gets (target_row target) ;;
      let entering := _getEnteringISymbol objective in
      if isInvalid entering then ret tt
      else
        rows0 <- gets rows ;;
        let leaving := _getLeavingISymbol rows0 entering in
        if isInvalid leaving then throw ObjectiveUnbounded
        else
          match IMap.erase leaving rows0 with
          | (Some pr, rows') =>
              modify (set_rows rows') ;;
              row <- lift (solveForEx leaving entering (snd pr)) ;;
              _substitute entering row ;;
              modify (fun s => set_rows (IMap.insert entering row (rows s)) s) ;;
              _optimize fuel target
          | (None, _) => throw TypeError
          end
  end.

(** [_dualOptimize()]; [fuel] bounds the turns of the [while] loop. *)
Fixpoint _dualOptimize (fuel : nat) : M unit :=
  match fuel with
  | O => throw OutOfFuel
  | S fuel =>
      infeasible <- gets infeasibleRows ;;
      match infeasible with
      | [] => ret tt
      | leaving :: rest =>
          modify (set_infeasibleRows rest) ;;
          found <- gets (fun s => IMap.find leaving (rows s)) ;;
          match found with
          | Some pr =>
              if Qlt_bool (RowBase.constant (snd pr)) 0 then
                objective <- gets objective ;;
                let entering := _getDualEnteringISymbol objective (snd pr) in
                if isInvalid entering then throw DualOptimizeFailed
                else
                  modify (fun s => set_rows (snd (IMap.erase leaving (rows s))) s) ;;
                  row <- lift (solveForEx leaving entering (snd pr)) ;;
                  _substitute entering row ;;
                  modify (fun s => set_rows (IMap.insert entering row (rows s)) s) ;;
                  _dualOptimize fuel
              else _dualOptimize fuel
          | None => _dualOptimize fuel
          end
      end
  end.

(** [_addWithArtificialVariable(row)].  The two early [return]s leave the
    block with [Some result]; [None] goes on to the removal of [art]. *)
Definition _addWithArtificialVariable (fuel : nat) (row : RowBase.t) : M bool :=
  art <- _makeISymbol Slack ;;
  modify (fun s => set_rows (IMap.insert art (RowBase.copy row) (rows s)) s) ;;
  modify (set_artificial (Some (RowBase.copy row))) ;;
  _optimize fuel TArtificial ;;
  success <- gets (fun s => nearZero (RowBase.constant (target_row TArtificial s))) ;;
  modify (set_artificial None) ;;
  rows0 <- gets rows ;;
  returned <-
    match IMap.erase art rows0 with
    | (Some pr, rows') =>
        modify (set_rows rows') ;;
        let basicRow := snd pr in
        if RowBase.isConstant basicRow then ret (Some success)
        else
          let entering := _anyPivotableISymbol basicRow in
          if isInvalid entering then ret (Some false)
          else
            basicRow <- lift (solveForEx art entering basicRow) ;;
            _substitute entering basicRow ;;
            modify (fun s => set_rows (IMap.insert entering basicRow (rows s)) s) ;;
            ret None
    | (None, _) => ret None
    end ;;
  match returned with
  | Some result => ret result
  | None =>
      modify (fun s =>
        set_rows (IMap.mapValues (RowBase.removeISymbol art) (rows s)) s) ;;
      modify (fun s => set_objective (RowBase.removeISymbol art (objective s)) s) ;;
      ret success
  end.

(** [addConstraint(constraint)]. *)
Definition addConstraint (fuel : nat) (constraint : Constraint.t) : M unit :=
  registered <- gets (fun s => IMap.find constraint (constraints s)) ;;
  match registered with
  | Some _ => throw DuplicateConstraint
  | None =>
      created <- _createRow constraint ;;
      let row := IRowCreation.row created in
      let tag := IRowCreation.tag created in
      let subject := _chooseSubject row tag in
      subject <-
        (if isInvalid subject then
           dummies <- lift (allDummies row) ;;
           if dummies then
             if negb (nearZero (RowBase.constant row))
             then throw UnsatisfiableConstraint
             else ret (ITag.marker tag)
           else ret subject
         else ret subject) ;;
      (if isInvalid subject then
         added <- _addWithArtificialVariable fuel row ;;
         if negb added then throw UnsatisfiableConstraint else ret tt
       else
         row <- lift (RowBase.solveFor subject row) ;;
         _substitute subject row ;;
         modify (fun s => set_rows (IMap.insert subject row (rows s)) s)) ;;
      modify (fun s => set_constraints (IMap.insert constraint tag (constraints s)) s) ;;
      _optimize fuel TObjective
  end.

Definition _removeMarkerEffects (marker : ISymbol.t) (strength : number)
  : M unit :=
  modify (fun s =>
    match IMap.find marker (rows s) with
    | Some pr => set_objective (insertRow (snd pr) (- strength) (objective s)) s
    | None => set_objective (insertISymbol marker (- strength) (objective s)) s
    end).

Definition _removeConstraintEffects (cn : Constraint.t) (tag : ITag.t)
  : M unit :=
  (if ISymbolType_eqb (ISymbol.type (ITag.marker tag)) Error_
   then _removeMarkerEffects (ITag.marker tag) (Constraint.strength cn)
   else ret tt) ;;
  (if ISymbolType_eqb (ISymbol.type (ITag.other tag)) Error_
   then _removeMarkerEffects (ITag.other tag) (Constraint.strength cn)
   else ret tt).

(** [removeConstraint(constraint)]. *)
Definition removeConstraint (fuel : nat) (constraint : Constraint.t) : M unit :=
  cs <- gets constraints ;;
  match IMap.erase constraint cs with
  | (None, _) => throw UnknownConstraint
  | (Some cnPair, cs') =>
      modify (set_constraints cs') ;;
      let cnTag := snd cnPair in
      _removeConstraintEffects constraint cnTag ;;
      let marker := ITag.marker cnTag in
      rows0 <- gets rows ;;
      match IMap.erase marker rows0 with
      | (Some _, rows') => modify (set_rows rows')
      | (None, _) =>
          let leaving := _getMarkerLeavingISymbol rows0 marker in
          if isInvalid leaving then throw NoLeavingRow
          else
            match IMap.erase leaving rows0 with
            | (Some rowPair, rows') =>
                modify (set_rows rows') ;;
                row <- lift (solveForEx leaving marker (snd rowPair)) ;;
                _substitute marker row
            | (None, _) => throw TypeError
            end
      end ;;
      _optimize fuel TObjective
  end.

Definition hasConstraint (constraint : Constraint.t) (s : Solver) : bool :=
  IMap.contains constraint (constraints s).

(** [createConstraint(lhs, operator, rhs, strength)]; [cnId] is the value
    of the counter [CnId] at the call. *)
Definition createConstraint (fuel : nat) (cnId : Z) (lhs : Expression.Item)
  (operator : Operator) (rhs : Expression.Item) (strength : number)
  : M Constraint.t :=
  cn <- lift (Constraint.new cnId lhs operator (Some rhs) strength) ;;
  addConstraint fuel cn ;;
  ret cn.

(** [addEditVariable(variable, strength)]; [cnId] is the value of the
    counter [CnId] at the call. *)
Definition addEditVariable (fuel : nat) (cnId : Z) (variable : Var.t)
  (strength : number) : M unit :=
  editPair <- gets (fun s => IMap.find variable (edits s)) ;;
  match editPair with
  | Some _ => throw DuplicateEditVariable
  | None =>
      let strength := Strength.clip strength in
      if Qeq_bool strength Strength.required then throw BadRequiredStrength
      else
        expr <- lift (Expression.new [Expression.IVariable variable]) ;;
        cn <- lift (Constraint.new cnId (Expression.IExpression expr) Eq None
                      strength) ;;
        addConstraint fuel cn ;;
        found <- gets (fun s => IMap.find cn (constraints s)) ;;
        match found with
        | Some pr =>
            modify (fun s =>
              set_edits
                (IMap.insert variable (IEditInfo.mk (snd pr) cn 0) (edits s)) s)
        | None => throw TypeError
        end
  end.

(** [removeEditVariable(variable)]. *)
Definition removeEditVariable (fuel : nat) (variable : Var.t) : M unit :=
  es <- gets edits ;;
  match IMap.erase variable es with
  | (None, _) => throw UnknownEditVariable
  | (Some editPair, es') =>
      modify (set_edits es') ;;
      removeConstraint fuel (IEditInfo.constraint (snd editPair))
  end.

Definition hasEditVariable (variable : Var.t) (s : Solver) : bool :=
  IMap.contains variable (edits s).

Definition push_infeasible (symbol : ISymbol.t) : M unit :=
  modify (fun s => set_infeasibleRows (symbol :: infeasibleRows s) s).

(** The last loop of [suggestValue], over every row. *)
Fixpoint suggestValue_rows (marker : ISymbol.t) (delta : number)
  (rs : IMap.t ISymbol.t RowBase.t) (infeasible : list ISymbol.t)
  : IMap.t ISymbol.t RowBase.t * list ISymbol.t :=
  match rs with
  | [] => ([], infeasible)
  | rowPair :: rest =>
      let row := snd rowPair in
      let coeff := RowBase.coefficientFor marker row in
      let row' :=
        if negb (Qeq_bool coeff 0) then RowBase.add (delta * coeff) row else row in
      let infeasible :=
        if negb (Qeq_bool coeff 0)
           && Qlt_bool (RowBase.constant row') 0
           && negb (ISymbolType_eqb (ISymbol.type (fst rowPair)) External)
        then fst rowPair :: infeasible else infeasible in
      let (rest', infeasible') := suggestValue_rows marker delta rest infeasible in
      ((fst rowPair, row') :: rest', infeasible')
  end.

(** [suggestValue(variable, value)]. *)
Definition suggestValue (fuel : nat) (variable : Var.t) (value : number)
  : M unit :=
  editPair <- gets (fun s => IMap.find variable (edits s)) ;;
  match editPair with
  | None => throw UnknownEditVariable
  | Some editPair =>
      let info := snd editPair in
      let delta := value - IEditInfo.constant info in
      modify (fun s =>
        set_edits
          (IMap.insert variable
             (IEditInfo.mk (IEditInfo.tag info) (IEditInfo.constraint info) value)
             (edits s)) s) ;;
      let marker := ITag.marker (IEditInfo.tag info) in
      let other := ITag.other (IEditInfo.tag info) in
      rows0 <- gets rows ;;
      match IMap.find marker rows0 with
      | Some rowPair =>
          let row := RowBase.add (- delta) (snd rowPair) in
          modify (set_rows (IMap.insert marker row rows0)) ;;
          (if Qlt_bool (RowBase.constant row) 0
           then push_infeasible marker else ret tt) ;;
          _dualOptimize fuel
      | None =>
          match IMap.find other rows0 with
          | Some rowPair =>
              let row := RowBase.add delta (snd rowPair) in
              modify (set_rows (IMap.insert other row rows0)) ;;
              (if Qlt_bool (RowBase.constant row) 0
               then push_infeasible other else ret tt) ;;
              _dualOptimize fuel
          | None =>
              modify (fun s =>
                let (rows', infeasible') :=
                  suggestValue_rows marker delta (rows s) (infeasibleRows s) in
                set_infeasibleRows infeasible' (set_rows rows' s)) ;;
              _dualOptimize fuel
          end
      end
  end.

(** [updateVariables()]: the [value] fields after the loop over [vars]. *)
Definition updateVariables (s : Solver) (st : values) : values :=
  fold_left
    (fun st pr =>
       set_value (fst pr)
         (match IMap.find (snd pr) (rows s) with
          | Some rowPair => RowBase.constant (snd rowPair)
          | None => 0
          end) st)
    (vars s) st.

(** The call, run on a solver. *)
Definition perform (fuel : nat) (call : Call) : M unit :=
  match call with
  | CreateConstraint cnId lhs operator rhs strength =>
      createConstraint fuel cnId lhs operator rhs strength ;; ret tt
  | AddConstraint constraint => addConstraint fuel constraint
  | RemoveConstraint constraint => removeConstraint fuel constraint
  | AddEditVariable cnId variable strength =>
      addEditVariable fuel cnId variable strength
  | RemoveEditVariable variable => removeEditVariable fuel variable
  | SuggestValue variable value => suggestValue fuel variable value
  end.

End Revision.

End SolverCore.

(** ** solver.ts, first revision (with the [Row] of row.ts) *)

Module Solver1.

(** The loop of [_getMarkerLeavingISymbol]; [None] stands for [null]. *)
Fixpoint _getMarkerLeavingISymbol_from (marker : ISymbol.t)
  (rs : IMap.t ISymbol.t RowBase.t) (r1 r2 : number)
  (first second third : option ISymbol.t) : ISymbol.t :=
  match rs with
  | [] =>
      match first, second, third with
      | Some symbol, _, _ => symbol
      | None, Some symbol, _ => symbol
      | None, None, Some symbol => symbol
      | None, None, None => INVALID_SYMBOL
      end
  | pr :: rest =>
      let row := snd pr in
      let symbol := fst pr in
      let c := RowBase.coefficientFor marker row in
      if Qeq_bool c 0
      then _getMarkerLeavingISymbol_from marker rest r1 r2 first second third
      else
        let r := Qabs (RowBase.constant row) / c in
        if ISymbolType_eqb (ISymbol.type symbol) External
        then _getMarkerLeavingISymbol_from marker rest r1 r2 first second
               (Some symbol)
        else
          let (r1, first) :=
            if Qlt_bool c 0 && Qlt_bool r r1 then (r, Some symbol)
            else (r1, first) in
          let (r2, second) :=
            if Qlt_bool 0 c && Qlt_bool r r2 then (r, Some symbol)
            else (r2, second) in
          _getMarkerLeavingISymbol_from marker rest r1 r2 first second third
  end.

Definition _getMarkerLeavingISymbol (rs : IMap.t ISymbol.t RowBase.t)
  (marker : ISymbol.t) : ISymbol.t :=
  _getMarkerLeavingISymbol_from marker rs MAX_VALUE MAX_VALUE None None None.

Definition addConstraint :=
  SolverCore.addConstraint Row.insertISymbol Row.allDummies.
Definition removeConstraint :=
  SolverCore.removeConstraint Row.insertISymbol _getMarkerLeavingISymbol.
Definition createConstraint :=
  SolverCore.createConstraint Row.insertISymbol Row.allDummies.
Definition addEditVariable :=
  SolverCore.addEditVariable Row.insertISymbol Row.allDummies.
Definition removeEditVariable :=
  SolverCore.removeEditVariable Row.insertISymbol _getMarkerLeavingISymbol.
Definition suggestValue := SolverCore.suggestValue Row.insertISymbol.
Definition updateVariables := SolverCore.updateVariables.
Definition hasConstraint := SolverCore.hasConstraint.
Definition hasEditVariable := SolverCore.hasEditVariable.
Definition perform :=
  SolverCore.perform Row.insertISymbol Row.allDummies _getMarkerLeavingISymbol.

End Solver1.

(** ** solver.ts, second revision (with its own [Row]) *)

Module Solver2.

Definition ISymbol_same (a b : ISymbol.t) : bool :=
  ISymbolType_eqb (ISymbol.type a) (ISymbol.type b)
  && (ISymbol.id a =? ISymbol.id b)%Z.

(** The loop of [_getMarkerLeavingISymbol].  [first !== invalid] compares
    object identities; the invalid symbol is the one object of its type and
    id. *)
Fixpoint _getMarkerLeavingISymbol_from (marker : ISymbol.t)
  (rs : IMap.t ISymbol.t RowBase.t) (r1 r2 : number)
  (first second third : ISymbol.t) : ISymbol.t :=
  match rs with
  | [] =>
      if negb (ISymbol_same first INVALID_SYMBOL) then first
      else if negb (ISymbol_same second INVALID_SYMBOL) then second
      else third
  | pr :: rest =>
      let row := snd pr in
      let c := RowBase.coefficientFor marker row in
      if Qeq_bool c 0
      then _getMarkerLeavingISymbol_from marker rest r1 r2 first second third
      else
        let symbol := fst pr in
        if ISymbolType_eqb (ISymbol.type symbol) External
        then _getMarkerLeavingISymbol_from marker rest r1 r2 first second symbol
        else if Qlt_bool c 0 then
          let r := - RowBase.constant row / c in
          if Qlt_bool r r1
          then _getMarkerLeavingISymbol_from marker rest r r2 symbol second third
          else _getMarkerLeavingISymbol_from marker rest r1 r2 first second third
        else
          let r := RowBase.constant row / c in
          if Qlt_bool r r2
          then _getMarkerLeavingISymbol_from marker rest r1 r first symbol third
          else _getMarkerLeavingISymbol_from marker rest r1 r2 first second third
  end.

Definition _getMarkerLeavingISymbol (rs : IMap.t ISymbol.t RowBase.t)
  (marker : ISymbol.t) : ISymbol.t :=
  _getMarkerLeavingISymbol_from marker rs MAX_VALUE MAX_VALUE INVALID_SYMBOL
    INVALID_SYMBOL INVALID_SYMBOL.

Definition addConstraint :=
  SolverCore.addConstraint Row2.insertISymbol Row2.allDummies.
Definition removeConstraint :=
  SolverCore.removeConstraint Row2.insertISymbol _getMarkerLeavingISymbol.
Definition createConstraint :=
  SolverCore.createConstraint Row2.insertISymbol Row2.allDummies.
Definition addEditVariable :=
  SolverCore.addEditVariable Row2.insertISymbol Row2.allDummies.
Definition removeEditVariable :=
  SolverCore.removeEditVariable Row2.insertISymbol _getMarkerLeavingISymbol.
Definition suggestValue := SolverCore.suggestValue Row2.insertISymbol.
Definition updateVariables := SolverCore.updateVariables.
Definition hasConstraint := SolverCore.hasConstraint.
Definition hasEditVariable := SolverCore.hasEditVariable.
Definition perform :=
  SolverCore.perform Row2.insertISymbol Row2.allDummies _getMarkerLeavingISymbol.

End Solver2.

(** * Properties *)

(** ** Comparisons of numbers *)

Lemma Qlt_bool_iff (a b : Q) : Qlt_bool a b = true <-> a < b.
Proof.
  unfold Qlt_bool. rewrite negb_true_iff. split; intro H.
  - apply Qnot_le_lt. intro Hle. apply Qle_bool_iff in Hle. congruence.
  - destruct (Qle_bool b a) eqn:E; [|reflexivity].
    apply Qle_bool_iff in E. exfalso. apply (Qlt_not_le _ _ H E).
Qed.

Lemma Qlt_bool_false_iff (a b : Q) : Qlt_bool a b = false <-> b <= a.
Proof.
  unfold Qlt_bool. rewrite negb_false_iff. apply Qle_bool_iff.
Qed.

#[global] Instance Qlt_bool_Proper : Proper (Qeq ==> Qeq ==> eq) Qlt_bool.
Proof.
  intros a a' Ha b b' Hb.
  destruct (Qlt_bool a b) eqn:E1, (Qlt_bool a' b') eqn:E2; try reflexivity.
  - apply Qlt_bool_iff in E1. apply Qlt_bool_false_iff in E2.
    rewrite Ha, Hb in E1. exfalso. apply (Qlt_not_le _ _ E1 E2).
  - apply Qlt_bool_iff in E2. apply Qlt_bool_false_iff in E1.
    rewrite <- Ha, <- Hb in E2. exfalso. apply (Qlt_not_le _ _ E2 E1).
Qed.

Lemma nearZero_iff (v : Q) : nearZero v = true <-> Qabs v < eps.
Proof.
  unfold nearZero. destruct (Qlt_bool v 0) eqn:E.
  - apply Qlt_bool_iff in E. rewrite Qlt_bool_iff.
    rewrite Qabs_neg by (apply Qlt_le_weak; exact E). reflexivity.
  - apply Qlt_bool_false_iff in E. rewrite Qlt_bool_iff.
    rewrite Qabs_pos by exact E. reflexivity.
Qed.

#[global] Instance nearZero_Proper : Proper (Qeq ==> eq) nearZero.
Proof.
  intros a b H. unfold nearZero.
  rewrite (Qlt_bool_Proper a b H 0 0 (Qeq_refl 0)).
  rewrite (Qlt_bool_Proper (- a) (- b) (Qopp_comp _ _ H) eps eps (Qeq_refl eps)).
  rewrite (Qlt_bool_Proper a b H eps eps (Qeq_refl eps)).
  reflexivity.
Qed.

(** ** Strength arithmetic *)

Lemma clamp_unit_weight (x : Q) :
  0 <= x <= 1000 -> Qmax 0 (Qmin 1000 (x * 1)) == x.
Proof.
  intros [H0 H1].
  assert (E : x * 1 == x) by ring.
  rewrite E.
  rewrite (Q.min_r 1000 x) by exact H1.
  apply Q.max_r. exact H0.
Qed.

Lemma create_unit_weight (a b c : Q) :
  0 <= a <= 1000 -> 0 <= b <= 1000 -> 0 <= c <= 1000 ->
  Strength.create a b c 1 == a * 1000000 + b * 1000 + c.
Proof.
  intros Ha Hb Hc. unfold Strength.create.
  rewrite (clamp_unit_weight a Ha), (clamp_unit_weight b Hb),
    (clamp_unit_weight c Hc).
  ring.
Qed.

Lemma required_value : Strength.required == 1001001000.
Proof. reflexivity. Qed.

Lemma clip_fixes_range (v : Q) :
  0 <= v <= Strength.required -> Strength.clip v == v.
Proof.
  intros [H0 H1]. unfold Strength.clip.
  rewrite (Q.min_r Strength.required v) by exact H1.
  apply Q.max_r. exact H0.
Qed.

Lemma inject_Z_combination (a b c : Z) :
  inject_Z a * 1000000 + inject_Z b * 1000 + inject_Z c
  == inject_Z (a * 1000000 + b * 1000 + c).
Proof.
  rewrite !inject_Z_plus, !inject_Z_mult. reflexivity.
Qed.

Lemma inject_Z_range (lo hi z : Z) :
  (lo <= z <= hi)%Z -> inject_Z lo <= inject_Z z <= inject_Z hi.
Proof.
  intros [H1 H2]. split; rewrite <- Zle_Qle; assumption.
Qed.

(** C8, the claim as stated: the encoding is not injective on [0,1000]^3,
    since a component equal to 1000 carries into the next one. *)
Lemma create_not_injective_on_closed_range :
  ~ (forall a b c a' b' c' : Q,
        0 <= a <= 1000 -> 0 <= b <= 1000 -> 0 <= c <= 1000 ->
        0 <= a' <= 1000 -> 0 <= b' <= 1000 -> 0 <= c' <= 1000 ->
        Strength.create a b c 1 == Strength.create a' b' c' 1 ->
        a == a' /\ b == b' /\ c == c').
Proof.
  intro H.
  assert (R : forall q : Q, 0 <= q -> q <= 1000 -> 0 <= q <= 1000)
    by (intros; split; assumption).
  destruct (H 0 1 0 0 0 1000) as (_ & Hb & _);
    try (apply R; discriminate); try reflexivity.
  discriminate Hb.
Qed.

(** C8, amended: for components in [0,1000] and weight 1, [create] is the
    weighted sum and [clip] leaves it alone; the components can be read back
    when they are whole numbers and the medium and weak ones stay below
    1000. *)
Theorem create_unit_weight_roundtrip (a b c : Q) :
  0 <= a <= 1000 -> 0 <= b <= 1000 -> 0 <= c <= 1000 ->
  Strength.create a b c 1 == a * 1000000 + b * 1000 + c
  /\ Strength.clip (Strength.create a b c 1) == Strength.create a b c 1
  /\ (forall ia ib ic ia' ib' ic' : Z,
        a == inject_Z ia -> b == inject_Z ib -> c == inject_Z ic ->
        (ib <= 999)%Z -> (ic <= 999)%Z ->
        (0 <= ia' <= 1000)%Z -> (0 <= ib' <= 999)%Z -> (0 <= ic' <= 999)%Z ->
        Strength.create a b c 1
        == Strength.create (inject_Z ia') (inject_Z ib') (inject_Z ic') 1 ->
        ia = ia' /\ ib = ib' /\ ic = ic').
Proof.
  intros Ha Hb Hc.
  pose proof (create_unit_weight a b c Ha Hb Hc) as Hsum.
  split; [exact Hsum|]. split.
  - apply clip_fixes_range. rewrite required_value, Hsum.
    destruct Ha, Hb, Hc. split; lra.
  - intros ia ib ic ia' ib' ic' Ea Eb Ec Hib Hic Ha' Hb' Hc' Heq.
    assert (Hb'' : (0 <= ib' <= 1000)%Z) by lia.
    assert (Hc'' : (0 <= ic' <= 1000)%Z) by lia.
    rewrite Hsum in Heq.
    rewrite (create_unit_weight (inject_Z ia') (inject_Z ib') (inject_Z ic')
               (inject_Z_range 0 1000 ia' Ha') (inject_Z_range 0 1000 ib' Hb'')
               (inject_Z_range 0 1000 ic' Hc'')) in Heq.
    rewrite Ea, Eb, Ec, !inject_Z_combination in Heq.
    apply (proj1 (inject_Z_injective _ _)) in Heq.
    assert (0 <= ia /\ 0 <= ib /\ 0 <= ic)%Z as (Pa & Pb & Pc).
    { destruct Ha as [Ha _], Hb as [Hb _], Hc as [Hc _].
      rewrite Ea in Ha. rewrite Eb in Hb. rewrite Ec in Hc.
      change 0 with (inject_Z 0) in Ha, Hb, Hc.
      rewrite <- Zle_Qle in Ha, Hb, Hc. auto. }
    lia.
Qed.

Lemma create_unit_weight_roundtrip_witness :
  Strength.create 1 2 3 1 == 1002003
  /\ Strength.clip (Strength.create 1 2 3 1) == Strength.create 1 2 3 1
  /\ (Strength.create 1 2 3 1 == Strength.create 1 2 3 1 ->
      (1 = 1 /\ 2 = 2 /\ 3 = 3)%Z).
Proof.
  assert (R : forall q : Q, 0 <= q -> q <= 1000 -> 0 <= q <= 1000)
    by (intros; split; assumption).
  destruct (create_unit_weight_roundtrip 1 2 3) as (H1 & H2 & H3);
    try (apply R; discriminate).
  split; [exact H1|]. split; [exact H2|].
  intro E.
  apply (H3 1 2 3 1 2 3)%Z;
    solve [exact E | reflexivity | discriminate | split; discriminate].
Defined.

(** ** The front end: expressions *)

(** The sum over the terms of coefficient times the variable's value. *)
Definition termsSum (st : values) (terms : IMap.t Var.t number) : number :=
  fold_right Qplus 0 (List.map (fun p => st (Var.id (fst p)) * snd p) terms).

Lemma fold_left_Qplus (l : list Q) (a : Q) :
  fold_left Qplus l a == a + fold_right Qplus 0 l.
Proof.
  revert a. induction l as [|x l IH]; intro a; simpl.
  - ring.
  - rewrite IH. ring.
Qed.

Lemma isConstant_iff (e : Expression.t) :
  Expression.isConstant e = true <-> Expression.terms e = [].
Proof.
  unfold Expression.isConstant, IMap.size.
  destruct (Expression.terms e); simpl; split; congruence.
Qed.

(** C10: the [value] getter throws on an expression without terms and
    returns the constant plus the weighted sum of the variables' values
    otherwise. *)
Theorem Expression_value_needs_a_term (st : values) (e : Expression.t) :
  (Expression.isConstant e = true -> Expression.value st e = Err TypeError)
  /\ (Expression.isConstant e = false ->
      exists v, Expression.value st e = Ok v
                /\ v == Expression.constant e + termsSum st (Expression.terms e)).
Proof.
  unfold Expression.value, Expression.isConstant, IMap.size, IMap.map, termsSum.
  destruct (Expression.terms e) as [|p ps]; simpl; split; intro H;
    try discriminate H.
  - reflexivity.
  - eexists. split; [reflexivity|].
    rewrite fold_left_Qplus. ring.
Qed.

Definition x : Var.t := Var.mk 0.
Definition y : Var.t := Var.mk 1.

Lemma Expression_value_needs_a_term_witness :
  (exists e, Expression.new [Expression.INumber 5] = Ok e
             /\ Expression.isConstant e = true
             /\ Expression.value initial_values e = Err TypeError)
  /\ (exists e v,
        Expression.new [Expression.IVariable x; Expression.INumber 5] = Ok e
        /\ Expression.value (set_value x 2 initial_values) e = Ok v
        /\ v == 7).
Proof.
  split.
  - exists (Expression.mk [] (0 + 5)).
    split; [reflexivity|]. split; [reflexivity|].
    apply (proj1 (Expression_value_needs_a_term initial_values
                    (Expression.mk [] (0 + 5)))).
    reflexivity.
  - exists (Expression.mk [(x, 1)] (0 + 5)).
    destruct (proj2 (Expression_value_needs_a_term (set_value x 2 initial_values)
                       (Expression.mk [(x, 1)] (0 + 5))) eq_refl)
      as (v & Hv & Hsum).
    exists v. split; [reflexivity|]. split; [exact Hv|].
    rewrite Hsum. reflexivity.
Defined.

(** C4: [parseArgs] keeps the coefficient a variable had at its first
    occurrence.  [x + x] has coefficient 1 for [x], as a sum of variables
    and as a sum of expressions, and the coefficient of [x] in the sum of
    [2 * x] and [x] depends on the order of the two. *)
Theorem parseArgs_keeps_first_coefficient :
  Expression.parseArgs [Expression.IVariable x; Expression.IVariable x]
  = Ok (Expression.mk [(x, 1)] 0)
  /\ Expression.plus (Expression.IExpression (Expression.mk [(x, 1)] 0))
       (Expression.IExpression (Expression.mk [(x, 1)] 0))
     = Ok (Expression.mk [(x, 1)] 0)
  /\ Expression.parseArgs
       [Expression.IArray [Expression.INumber 2; Expression.IVariable x];
        Expression.IVariable x]
     = Ok (Expression.mk [(x, 2)] 0)
  /\ Expression.parseArgs
       [Expression.IVariable x;
        Expression.IArray [Expression.INumber 2; Expression.IVariable x]]
     = Ok (Expression.mk [(x, 1)] 0).
Proof. repeat split. Qed.

(** ** Rows *)

Definition isDummy (cell : ISymbol.t * number) : bool :=
  ISymbolType_eqb (ISymbol.type (fst cell)) Dummy.

Lemma fold_left_andb_forallb (l : list bool) (a : bool) :
  fold_left andb l a = a && forallb (fun b => b) l.
Proof.
  revert a. induction l as [|b l IH]; intro a; simpl.
  - now rewrite andb_true_r.
  - rewrite IH. now rewrite andb_assoc.
Qed.

Lemma forallb_id_map {A : Type} (f : A -> bool) (l : list A) :
  forallb (fun b => b) (List.map f l) = forallb f l.
Proof.
  induction l as [|a l IH]; simpl; [reflexivity|]. now rewrite IH.
Qed.

(** row.ts: [allDummies] answers for a row with a cell, and throws for a
    row without one. *)
Lemma Row_allDummies_cases (this : RowBase.t) :
  Row.allDummies this
  = match RowBase.cells this with
    | [] => Err TypeError
    | _ => Ok (forallb isDummy (RowBase.cells this))
    end.
Proof.
  unfold Row.allDummies, IMap.map.
  destruct (RowBase.cells this) as [|c cs]; simpl; [reflexivity|].
  rewrite fold_left_andb_forallb, forallb_id_map. reflexivity.
Qed.

(** solver.ts, second revision: [allDummies] is total and says whether
    every cell's symbol is a dummy. *)
Lemma Row2_allDummies_total (this : RowBase.t) :
  Row2.allDummies this = Ok (forallb isDummy (RowBase.cells this)).
Proof.
  unfold Row2.allDummies. f_equal.
  induction (RowBase.cells this) as [|c cs IH]; simpl; [reflexivity|].
  unfold isDummy at 1.
  destruct (ISymbolType_eqb (ISymbol.type (fst c)) Dummy); simpl; auto.
Qed.

(** C9: on a row with no cells, [allDummies] of row.ts throws, where the
    claim (and the second revision in solver.ts) answer true. *)
Theorem Row_allDummies_throws_on_empty_row :
  Row.allDummies (RowBase.new 0) = Err TypeError
  /\ Row2.allDummies (RowBase.new 0) = Ok true.
Proof. split; reflexivity. Qed.

Definition slack1 : ISymbol.t := ISymbol.mk Slack 1.

(** row.ts: [insertISymbol] does nothing to a row that already holds the
    symbol with a coefficient away from zero, whatever the coefficient it is
    given. *)
Lemma Row_insertISymbol_present (symbol : ISymbol.t) (c : number)
  (row : RowBase.t) (cell : ISymbol.t * number) :
  IMap.find symbol (RowBase.cells row) = Some cell ->
  nearZero (snd cell) = false ->
  Row.insertISymbol symbol c row = row.
Proof.
  intros Hfind Hz. unfold Row.insertISymbol, IMap.setDefault.
  rewrite Hfind, Hz. now destruct row.
Qed.

(** C5: [insertISymbol] of row.ts leaves the coefficient of a symbol that
    the row already holds as it was, where the claim (and the second
    revision in solver.ts) add the new coefficient to it. *)
Theorem Row_insertISymbol_keeps_existing_coefficient :
  Row.insertISymbol slack1 3 (RowBase.mk 0 [(slack1, 2)]) = RowBase.mk 0 [(slack1, 2)]
  /\ RowBase.coefficientFor slack1 (Row.insertISymbol slack1 3 (RowBase.mk 0 [(slack1, 2)]))
     = 2
  /\ RowBase.coefficientFor slack1 (Row2.insertISymbol slack1 3 (RowBase.mk 0 [(slack1, 2)]))
     = 2 + 3.
Proof. repeat split. Qed.

(** ** The solver on concrete systems

    The constraints below are the ones the front end builds; the symbols are
    the ones the solver allocates for them. *)

Definition required : number := 1001001000.

Definition x_sym : ISymbol.t := ISymbol.mk External 0.
Definition y_sym : ISymbol.t := ISymbol.mk External 1.

(** [x == y] and [x + y == 10], both required. *)
Definition cn_x_eq_y : Constraint.t :=
  Constraint.mk (Expression.mk [(x, 1); (y, -1)] 0) Eq required 0.
Definition cn_x_plus_y_eq_10 : Constraint.t :=
  Constraint.mk (Expression.mk [(x, 1); (y, 1)] (-10)) Eq required 1.

(** [x <= 10], [x >= 5] and [x >= 0], all required. *)
Definition cn_x_le_10 : Constraint.t :=
  Constraint.mk (Expression.mk [(x, 1)] (-10)) Le required 0.
Definition cn_x_ge_5 : Constraint.t :=
  Constraint.mk (Expression.mk [(x, 1)] (-5)) Ge required 1.
Definition cn_x_ge_0 : Constraint.t :=
  Constraint.mk (Expression.mk [(x, 1)] 0) Ge required 2.

(** [x >= 10] and [x <= 5], both required. *)
Definition cn_x_ge_10 : Constraint.t :=
  Constraint.mk (Expression.mk [(x, 1)] (-10)) Ge required 0.
Definition cn_x_le_5 : Constraint.t :=
  Constraint.mk (Expression.mk [(x, 1)] (-5)) Le required 1.

(** [x == 0], weak. *)
Definition cn_x_eq_0_weak : Constraint.t :=
  Constraint.mk (Expression.mk [(x, 1)] 0) Eq 1 0.

Lemma front_end_builds_the_constraints :
  Constraint.new 0 (Expression.IVariable x) Eq (Some (Expression.IVariable y))
    Strength.required = Ok cn_x_eq_y
  /\ (exists e, Expression.plus (Expression.IVariable x) (Expression.IVariable y)
                = Ok e
                /\ Constraint.new 1 (Expression.IExpression e) Eq
                     (Some (Expression.INumber 10)) Strength.required
                   = Ok cn_x_plus_y_eq_10)
  /\ Constraint.new 0 (Expression.IVariable x) Le (Some (Expression.INumber 10))
       Strength.required = Ok cn_x_le_10
  /\ Constraint.new 1 (Expression.IVariable x) Ge (Some (Expression.INumber 5))
       Strength.required = Ok cn_x_ge_5
  /\ Constraint.new 2 (Expression.IVariable x) Ge (Some (Expression.INumber 0))
       Strength.required = Ok cn_x_ge_0
  /\ Constraint.new 0 (Expression.IVariable x) Ge (Some (Expression.INumber 10))
       Strength.required = Ok cn_x_ge_10
  /\ Constraint.new 1 (Expression.IVariable x) Le (Some (Expression.INumber 5))
       Strength.required = Ok cn_x_le_5
  /\ (exists e, Expression.new [Expression.IVariable x] = Ok e
                /\ Constraint.new 0 (Expression.IExpression e) Eq None
                     Strength.weak = Ok cn_x_eq_0_weak).
Proof.
  repeat split; try (vm_compute; reflexivity).
  - exists (Expression.mk [(x, 1); (y, 1)] 0). split; vm_compute; reflexivity.
  - exists (Expression.mk [(x, 1)] 0). split; vm_compute; reflexivity.
Qed.

(** The relation of a constraint, to within [eps]. *)
Definition satisfies (operator : Operator) (lhs : number) : Prop :=
  match operator with
  | Le => lhs <= eps
  | Ge => - eps <= lhs
  | Eq => Qabs lhs <= eps
  end.

(** The state a method leaves, whether it returned or threw. *)
Definition state_after {A : Type} (m : M A) (s : Solver) : Solver := snd (m s).

(** C1: with the first revision, [x == y] and [x + y == 10] are both
    admitted, and [updateVariables] then publishes [x = y = 10]: the left
    hand side [x + y - 10] of the second constraint is 10, where the second
    revision publishes [x = y = 5]. *)
Theorem rev1_published_values_violate_required_equality :
  exists s s' lhs,
    Solver1.addConstraint 10 cn_x_eq_y newSolver = (Ok tt, s)
    /\ Solver1.addConstraint 10 cn_x_plus_y_eq_10 s = (Ok tt, s')
    /\ Expression.value (Solver1.updateVariables s' initial_values)
         (Constraint.expression cn_x_plus_y_eq_10) = Ok lhs
    /\ lhs == 10
    /\ ~ satisfies (Constraint.operator cn_x_plus_y_eq_10) lhs.
Proof.
  exists (state_after (Solver1.addConstraint 10 cn_x_eq_y) newSolver).
  exists (state_after (Solver1.addConstraint 10 cn_x_plus_y_eq_10)
            (state_after (Solver1.addConstraint 10 cn_x_eq_y) newSolver)).
  eexists.
  split; [vm_compute; reflexivity|].
  split; [vm_compute; reflexivity|].
  split; [reflexivity|].
  split; [vm_compute; reflexivity|].
  vm_compute. intro H. apply H. reflexivity.
Qed.

Lemma rev2_published_values_meet_required_equalities :
  exists s s' lhs lhs',
    Solver2.addConstraint 10 cn_x_eq_y newSolver = (Ok tt, s)
    /\ Solver2.addConstraint 10 cn_x_plus_y_eq_10 s = (Ok tt, s')
    /\ Expression.value (Solver2.updateVariables s' initial_values)
         (Constraint.expression cn_x_eq_y) = Ok lhs
    /\ Expression.value (Solver2.updateVariables s' initial_values)
         (Constraint.expression cn_x_plus_y_eq_10) = Ok lhs'
    /\ lhs == 0 /\ lhs' == 0.
Proof.
  exists (state_after (Solver2.addConstraint 10 cn_x_eq_y) newSolver).
  exists (state_after (Solver2.addConstraint 10 cn_x_plus_y_eq_10)
            (state_after (Solver2.addConstraint 10 cn_x_eq_y) newSolver)).
  do 2 eexists.
  split; [vm_compute; reflexivity|].
  split; [vm_compute; reflexivity|].
  split; [reflexivity|].
  split; [reflexivity|].
  split; vm_compute; reflexivity.
Qed.

Definition slack3 : ISymbol.t := ISymbol.mk Slack 3.
Definition slack5 : ISymbol.t := ISymbol.mk Slack 5.

(** The tableau after [x <= 10], [x >= 5] and [x >= 0] were admitted:
    [x = 10 - slack1], [slack3 = 5 - slack1], [slack5 = 10 - slack1]. *)
Definition tableau_three_bounds : IMap.t ISymbol.t RowBase.t :=
  [(x_sym, RowBase.mk 10 [(slack1, -1)]);
   (slack3, RowBase.mk 5 [(slack1, -1)]);
   (slack5, RowBase.mk 10 [(slack1, -1)])].

Lemma three_bounds_admitted :
  exists s s' s'',
    Solver1.addConstraint 10 cn_x_le_10 newSolver = (Ok tt, s)
    /\ Solver1.addConstraint 10 cn_x_ge_5 s = (Ok tt, s')
    /\ Solver1.addConstraint 10 cn_x_ge_0 s' = (Ok tt, s'')
    /\ rows s'' = tableau_three_bounds
    /\ IMap.find cn_x_le_10 (constraints s'')
       = Some (cn_x_le_10, ITag.mk slack1 INVALID_SYMBOL).
Proof.
  eexists. eexists. eexists.
  split; [vm_compute; reflexivity|].
  split; [vm_compute; reflexivity|].
  split; [vm_compute; reflexivity|].
  split; vm_compute; reflexivity.
Qed.

(** C6: on the tableau of the three bounds, the rows of [slack3] and
    [slack5] both hold the marker [slack1] with coefficient -1, with ratios
    [-constant / coefficient] of 5 and 10.  The first revision returns
    [slack5], the row of the largest ratio; the second revision returns
    [slack3]. *)
Theorem rev1_marker_leaving_row_has_largest_ratio :
  Solver1._getMarkerLeavingISymbol tableau_three_bounds slack1 = slack5
  /\ Solver2._getMarkerLeavingISymbol tableau_three_bounds slack1 = slack3
  /\ RowBase.coefficientFor slack1 (RowBase.mk 5 [(slack1, -1)]) < 0
  /\ RowBase.coefficientFor slack1 (RowBase.mk 10 [(slack1, -1)]) < 0
  /\ - 5 / RowBase.coefficientFor slack1 (RowBase.mk 5 [(slack1, -1)])
     < - 10 / RowBase.coefficientFor slack1 (RowBase.mk 10 [(slack1, -1)]).
Proof. repeat split. Qed.

(** C2: with the first revision, the three bounds are admitted, removing
    [x <= 10] returns normally, and the row of [slack3], a slack symbol, is
    left with the constant -5. *)
Theorem rev1_removal_leaves_negative_slack_row :
  exists s0 s1 s s' row,
    Solver1.addConstraint 10 cn_x_le_10 newSolver = (Ok tt, s0)
    /\ Solver1.addConstraint 10 cn_x_ge_5 s0 = (Ok tt, s1)
    /\ Solver1.addConstraint 10 cn_x_ge_0 s1 = (Ok tt, s)
    /\ Solver1.removeConstraint 10 cn_x_le_10 s = (Ok tt, s')
    /\ IMap.find slack3 (rows s') = Some (slack3, row)
    /\ ISymbol.type slack3 <> External
    /\ RowBase.constant row == -5
    /\ ~ (- eps <= RowBase.constant row).
Proof.
  do 5 eexists.
  split; [vm_compute; reflexivity|].
  split; [vm_compute; reflexivity|].
  split; [vm_compute; reflexivity|].
  split; [vm_compute; reflexivity|].
  split; [vm_compute; reflexivity|].
  split; [discriminate|].
  split; [vm_compute; reflexivity|].
  vm_compute. intro H. apply H. reflexivity.
Qed.

Lemma rev2_removal_keeps_rows_feasible :
  exists s s',
    rows s = tableau_three_bounds
    /\ Solver2.removeConstraint 10 cn_x_le_10 s = (Ok tt, s')
    /\ rows s' = [(x_sym, RowBase.mk 5 [(slack3, 1)]);
                  (slack5, RowBase.mk 5 [(slack3, 1)])].
Proof.
  exists (state_after (Solver2.addConstraint 10 cn_x_ge_0)
            (state_after (Solver2.addConstraint 10 cn_x_ge_5)
               (state_after (Solver2.addConstraint 10 cn_x_le_10) newSolver))).
  eexists.
  split; [vm_compute; reflexivity|].
  split; vm_compute; reflexivity.
Qed.

Definition error2 : ISymbol.t := ISymbol.mk Error_ 2.

(** C7: with the first revision, admitting the weak [x == 0] into a new
    solver and removing it again empties the rows and the registry, and
    leaves two cells in the objective. *)
Theorem rev1_objective_keeps_cells_after_removal :
  exists s s',
    Solver1.addConstraint 10 cn_x_eq_0_weak newSolver = (Ok tt, s)
    /\ Solver1.removeConstraint 10 cn_x_eq_0_weak s = (Ok tt, s')
    /\ rows s' = [] /\ constraints s' = []
    /\ objective s' = RowBase.mk 0 [(x_sym, 1); (error2, 1)]
    /\ objective s' <> objective newSolver.
Proof.
  eexists. eexists.
  split; [vm_compute; reflexivity|].
  split; [vm_compute; reflexivity|].
  split; [reflexivity|]. split; [reflexivity|].
  split; [reflexivity|]. discriminate.
Qed.

Lemma rev2_objective_restored_after_removal :
  exists s s',
    Solver2.addConstraint 10 cn_x_eq_0_weak newSolver = (Ok tt, s)
    /\ Solver2.removeConstraint 10 cn_x_eq_0_weak s = (Ok tt, s')
    /\ rows s' = rows newSolver /\ constraints s' = constraints newSolver
    /\ objective s' = objective newSolver.
Proof.
  eexists. eexists.
  split; [vm_compute; reflexivity|].
  split; [vm_compute; reflexivity|].
  repeat split.
Qed.

(** [x == 0], weak, and [x <= 5], required, as the second and third
    constraints of a program. *)
Definition cn1_x_eq_0_weak : Constraint.t :=
  Constraint.mk (Expression.mk [(x, 1)] 0) Eq 1 1.
Definition cn2_x_le_5 : Constraint.t :=
  Constraint.mk (Expression.mk [(x, 1)] (-5)) Le required 2.

Definition error4 : ISymbol.t := ISymbol.mk Error_ 4.
Definition slack6 : ISymbol.t := ISymbol.mk Slack 6.

(** C3: [x <= 5] after [x >= 10] is refused as unsatisfiable on the
    artificial-variable path, by both revisions, and the failed call has
    rewritten the rows: the row of [x] went from [10 + slack1] to
    [5 - slack3], and a row [slack1 = -5 - slack3] with a negative constant
    was added, on no list of infeasible rows.  The registry and the map of
    variables are the ones before the call, so [x >= 10] is still registered
    and [x <= 5] is not; yet [updateVariables] now publishes [x = 5], which
    [x >= 10] rules out.  With a weak [x == 0] in between, the objective is
    rewritten as well. *)
Theorem unsatisfiable_on_artificial_path_rewrites_rows :
  (exists s s',
     Solver1.addConstraint 10 cn_x_ge_10 newSolver = (Ok tt, s)
     /\ Solver2.addConstraint 10 cn_x_ge_10 newSolver = (Ok tt, s)
     /\ Solver1.addConstraint 10 cn_x_le_5 s = (Err UnsatisfiableConstraint, s')
     /\ Solver2.addConstraint 10 cn_x_le_5 s = (Err UnsatisfiableConstraint, s')
     /\ rows s = [(x_sym, RowBase.mk 10 [(slack1, 1)])]
     /\ rows s' = [(x_sym, RowBase.mk 5 [(slack3, -1)]);
                   (slack1, RowBase.mk (-5) [(slack3, -1)])]
     /\ rows s' <> rows s
     /\ constraints s' = constraints s
     /\ vars s' = vars s
     /\ SolverCore.hasConstraint cn_x_ge_10 s' = true
     /\ SolverCore.hasConstraint cn_x_le_5 s' = false
     /\ infeasibleRows s' = []
     /\ SolverCore.updateVariables s initial_values (Var.id x) = 10
     /\ SolverCore.updateVariables s' initial_values (Var.id x) = 5
     /\ exists lhs,
          Expression.value (SolverCore.updateVariables s' initial_values)
            (Constraint.expression cn_x_ge_10) = Ok lhs
          /\ lhs == -5
          /\ ~ satisfies (Constraint.operator cn_x_ge_10) lhs)
  /\ (exists s0 s s',
        Solver1.addConstraint 10 cn_x_ge_10 newSolver = (Ok tt, s0)
        /\ Solver1.addConstraint 10 cn1_x_eq_0_weak s0 = (Ok tt, s)
        /\ Solver1.addConstraint 10 cn2_x_le_5 s
           = (Err UnsatisfiableConstraint, s')
        /\ objective s = RowBase.mk 10 [(slack1, 1); (error4, 1)]
        /\ objective s' = RowBase.mk 5 [(error4, 1); (slack6, -1)]
        /\ objective s' <> objective s
        /\ rows s' <> rows s
        /\ constraints s' = constraints s).
Proof.
  split.
  - eexists. eexists.
    split; [vm_compute; reflexivity|].
    split; [vm_compute; reflexivity|].
    split; [vm_compute; reflexivity|].
    split; [vm_compute; reflexivity|].
    split; [reflexivity|]. split; [reflexivity|].
    split; [discriminate|].
    split; [reflexivity|]. split; [reflexivity|].
    split; [reflexivity|]. split; [reflexivity|].
    split; [reflexivity|]. split; [reflexivity|].
    split; [reflexivity|].
    eexists. split; [vm_compute; reflexivity|].
    split; [reflexivity|]. intro H. vm_compute in H. apply H. reflexivity.
  - eexists. eexists. eexists.
    split; [vm_compute; reflexivity|].
    split; [vm_compute; reflexivity|].
    split; [vm_compute; reflexivity|].
    split; [reflexivity|]. split; [reflexivity|].
    split; [discriminate|]. split; [discriminate|]. reflexivity.
Qed.

(** ** Which errors a method can raise, and what it has written by then *)

(** [raises P m]: an error thrown by [m] satisfies [P]. *)
Definition raises {A : Type} (P : Error -> Prop) (m : M A) : Prop :=
  forall s e s', m s = (Err e, s') -> P e.

Lemma raises_elim {A : Type} (P : Error -> Prop) (m : M A) s e s' :
  raises P m -> m s = (Err e, s') -> P e.
Proof. intros H E. exact (H s e s' E). Qed.

Lemma raises_ret {A : Type} (P : Error -> Prop) (a : A) : raises P (ret a).
Proof. intros s e s' H. discriminate H. Qed.

Lemma raises_gets {A : Type} (P : Error -> Prop) (f : Solver -> A) :
  raises P (gets f).
Proof. intros s e s' H. discriminate H. Qed.

Lemma raises_modify (P : Error -> Prop) (f : Solver -> Solver) :
  raises P (modify f).
Proof. intros s e s' H. discriminate H. Qed.

Lemma raises_throw {A : Type} (P : Error -> Prop) (e : Error) :
  P e -> raises P (@throw A e).
Proof. intros Pe s e' s' H. inversion H; subst. exact Pe. Qed.

Lemma raises_lift {A : Type} (P : Error -> Prop) (r : Result A) :
  (forall e, r = Err e -> P e) -> raises P (lift r).
Proof. intros Hr s e s' H. inversion H; subst. apply Hr. reflexivity. Qed.

Lemma raises_bind {A B : Type} (P : Error -> Prop) (m : M A) (f : A -> M B) :
  raises P m -> (forall a, raises P (f a)) -> raises P (bind m f).
Proof.
  intros Hm Hf s e s' H. unfold bind in H.
  destruct (m s) as [[a|e0] s0] eqn:E.
  - exact (Hf a s0 e s' H).
  - inversion H; subst. exact (Hm s e s' E).
Qed.

Lemma raises_weaken {A : Type} (P Q : Error -> Prop) (m : M A) :
  (forall e, P e -> Q e) -> raises P m -> raises Q m.
Proof. intros HPQ Hm s e s' H. apply HPQ. exact (Hm s e s' H). Qed.

Lemma bind_inv {A B : Type} (m : M A) (f : A -> M B) s r s' :
  bind m f s = (r, s') ->
  (exists a s0, m s = (Ok a, s0) /\ f a s0 = (r, s'))
  \/ (exists e, m s = (Err e, s') /\ r = Err e).
Proof.
  unfold bind. destruct (m s) as [[a|e] s0] eqn:E; intro H.
  - left. exists a, s0. split; [reflexivity|exact H].
  - right. exists e. inversion H; subst. split; reflexivity.
Qed.

(** The errors of a pivot: an absent cell, an unbounded objective, or the
    model's fuel. *)
Definition pivot_error (e : Error) : Prop :=
  e = TypeError \/ e = ObjectiveUnbounded \/ e = OutOfFuel.

(** The errors raised once a tableau operation is under way. *)
Definition late_error (e : Error) : Prop :=
  pivot_error e \/ e = UnsatisfiableConstraint \/ e = NoLeavingRow
  \/ e = DualOptimizeFailed.

(** The errors of [_dualOptimize]. *)
Definition dual_error (e : Error) : Prop :=
  pivot_error e \/ e = DualOptimizeFailed.

Lemma dual_is_late (e : Error) : dual_error e -> late_error e.
Proof. unfold dual_error, late_error. tauto. Qed.

(** The errors raised by the checks that open a public method, and by the
    constructors of the front end. *)
Definition early_error (e : Error) : bool :=
  match e with
  | DuplicateConstraint | UnknownConstraint | DuplicateEditVariable
  | UnknownEditVariable | BadRequiredStrength
  | ArrayLength | ArrayItem0 | ArrayItem1 | InvalidArgument => true
  | _ => false
  end.

Lemma late_not_early (e : Error) : late_error e -> early_error e = false.
Proof.
  unfold late_error, pivot_error.
  intros [[H|[H|H]]|[H|[H|H]]]; subst; reflexivity.
Qed.

Lemma pivot_is_late (e : Error) : pivot_error e -> late_error e.
Proof. intro H. left. exact H. Qed.

Lemma solveFor_raises (symbol : ISymbol.t) (row : RowBase.t) (e : Error) :
  RowBase.solveFor symbol row = Err e -> e = TypeError.
Proof.
  unfold RowBase.solveFor.
  destruct (IMap.erase symbol (RowBase.cells row)) as [[pr|] cells'];
    intro H; [discriminate H|]. now inversion H.
Qed.

(** What the tableau is to a caller: the rows, the objective and the
    registry of constraints. *)
Definition tableau (s : Solver) :=
  (rows s, objective s, constraints s).

(** [keeps f m]: whatever [m] does, and whether it returns or throws, the
    part [f] of the solver is afterwards what it was. *)
Definition keeps {A B : Type} (f : Solver -> A) (m : M B) : Prop :=
  forall s r s', m s = (r, s') -> f s' = f s.

Lemma keeps_ret {A B : Type} (f : Solver -> A) (b : B) : keeps f (ret b).
Proof. intros s r s' H. now inversion H. Qed.

Lemma keeps_gets {A B : Type} (f : Solver -> A) (g : Solver -> B) :
  keeps f (gets g).
Proof. intros s r s' H. now inversion H. Qed.

Lemma keeps_throw {A B : Type} (f : Solver -> A) (e : Error) :
  keeps f (@throw B e).
Proof. intros s r s' H. now inversion H. Qed.

Lemma keeps_lift {A B : Type} (f : Solver -> A) (r : Result B) :
  keeps f (lift r).
Proof. intros s r' s' H. now inversion H. Qed.

Lemma keeps_modify {A : Type} (f : Solver -> A) (g : Solver -> Solver) :
  (forall s, f (g s) = f s) -> keeps f (modify g).
Proof. intros Hg s r s' H. inversion H. apply Hg. Qed.

Lemma keeps_bind {A B C : Type} (f : Solver -> A) (m : M B) (k : B -> M C) :
  keeps f m -> (forall b, keeps f (k b)) -> keeps f (bind m k).
Proof.
  intros Hm Hk s r s' H. unfold bind in H.
  destruct (m s) as [[b|e] s0] eqn:E.
  - rewrite (Hk b s0 r s' H). exact (Hm s _ s0 E).
  - inversion H; subst. exact (Hm s _ s' E).
Qed.

Lemma keeps_elim {A B : Type} (f : Solver -> A) (m : M B) s r s' :
  keeps f m -> m s = (r, s') -> f s' = f s.
Proof. intros H E. exact (H s r s' E). Qed.

Ltac keeps_step :=
  match goal with
  | |- keeps _ (bind _ _) => apply keeps_bind; [|intro]
  | |- keeps _ (ret _) => apply keeps_ret
  | |- keeps _ (gets _) => apply keeps_gets
  | |- keeps _ (throw _) => apply keeps_throw
  | |- keeps _ (lift _) => apply keeps_lift
  | |- keeps _ (modify _) => apply keeps_modify; intro; reflexivity
  | |- keeps _ (if ?b then _ else _) => destruct b
  | |- keeps _ (match ?x with Some _ => _ | None => _ end) => destruct x
  | |- keeps _ (match ?x with (_, _) => _ end) =>
      let p := fresh "p" in destruct x as [[p|] ?]
  end.

Ltac raises_step :=
  match goal with
  | |- raises _ (bind _ _) => apply raises_bind; [|intro]
  | |- raises _ (ret _) => apply raises_ret
  | |- raises _ (gets _) => apply raises_gets
  | |- raises _ (modify _) => apply raises_modify
  | |- raises _ (if ?b then _ else _) => destruct b
  | |- raises _ (match ?x with Some _ => _ | None => _ end) => destruct x
  | |- raises _ (match ?x with (_, _) => _ end) =>
      let p := fresh "p" in destruct x as [[p|] ?]
  | |- raises _ (match ?x with [] => _ | _ :: _ => _ end) => destruct x
  | |- raises _ (fun _ => (Ok _, _)) =>
      let H := fresh in intros ? ? ? H; discriminate H
  end.

Section Footprint.
Variable insertISymbol : ISymbol.t -> number -> RowBase.t -> RowBase.t.
Variable allDummies : RowBase.t -> Result bool.
Variable _getMarkerLeavingISymbol :
  IMap.t ISymbol.t RowBase.t -> ISymbol.t -> ISymbol.t.
Hypothesis allDummies_raises :
  forall row e, allDummies row = Err e -> e = TypeError.

Lemma solveForEx_raises lhs rhs row :
  raises pivot_error (lift (SolverCore.solveForEx insertISymbol lhs rhs row)).
Proof.
  apply raises_lift. intros e H. left.
  exact (solveFor_raises _ _ _ H).
Qed.

Lemma _substitute_raises P symbol row :
  raises P (SolverCore._substitute insertISymbol symbol row).
Proof. apply raises_modify. Qed.

Lemma _optimize_raises (fuel : nat) (target : Target) :
  raises pivot_error (SolverCore._optimize insertISymbol fuel target).
Proof.
  induction fuel as [|fuel IH]; simpl.
  - apply raises_throw. right. right. reflexivity.
  - repeat raises_step;
      try (apply raises_throw; unfold pivot_error; tauto);
      try apply solveForEx_raises; try apply _substitute_raises.
    exact IH.
Qed.

Lemma _dualOptimize_raises (fuel : nat) :
  raises dual_error (SolverCore._dualOptimize insertISymbol fuel).
Proof.
  induction fuel as [|fuel IH]; simpl.
  - apply raises_throw. unfold dual_error, pivot_error. tauto.
  - repeat raises_step;
      try (apply raises_throw; unfold dual_error, pivot_error; tauto);
      try (apply (raises_weaken pivot_error); [intros e0 He0; now left|];
           apply solveForEx_raises);
      try apply _substitute_raises; exact IH.
Qed.

Lemma _substitute_keeps_constraints symbol row :
  keeps constraints (SolverCore._substitute insertISymbol symbol row).
Proof.
  apply keeps_modify. intro s.
  destruct (SolverCore._substitute_rows insertISymbol symbol row (rows s)
              (infeasibleRows s)) as [rows' infeasible'].
  cbn. destruct (artificial s); reflexivity.
Qed.

Lemma _makeISymbol_keeps_constraints type :
  keeps constraints (SolverCore._makeISymbol type).
Proof. intros s r s' H. now inversion H. Qed.

Lemma _optimize_keeps_constraints (fuel : nat) (target : Target) :
  keeps constraints (SolverCore._optimize insertISymbol fuel target).
Proof.
  induction fuel as [|fuel IH]; simpl.
  - apply keeps_throw.
  - repeat keeps_step; try apply _substitute_keeps_constraints. exact IH.
Qed.

Lemma _addWithArtificialVariable_keeps_constraints (fuel : nat) row :
  keeps constraints
    (SolverCore._addWithArtificialVariable insertISymbol fuel row).
Proof.
  unfold SolverCore._addWithArtificialVariable.
  repeat keeps_step;
    try apply _makeISymbol_keeps_constraints;
    try apply _optimize_keeps_constraints;
    try apply _substitute_keeps_constraints.
Qed.

Lemma _getVarISymbol_runs (variable : Var.t) (s : Solver) :
  exists symbol s',
    SolverCore._getVarISymbol variable s = (Ok symbol, s')
    /\ tableau s' = tableau s.
Proof.
  unfold SolverCore._getVarISymbol, SolverCore._makeISymbol, bind.
  destruct (IMap.setDefault variable (ISymbol.mk External (idTick s)) (vars s))
    as [pr vars'] eqn:E.
  exists (snd pr). eexists. cbn. rewrite E. split; reflexivity.
Qed.

Lemma _createRow_terms_runs (terms : IMap.t Var.t number) :
  forall (row : RowBase.t) (s : Solver),
  exists row' s',
    SolverCore._createRow_terms insertISymbol terms row s = (Ok row', s')
    /\ tableau s' = tableau s.
Proof.
  induction terms as [|termPair rest IH]; intros row s; simpl.
  - exists row, s. split; reflexivity.
  - destruct (negb (nearZero (snd termPair))); [|apply IH].
    destruct (_getVarISymbol_runs (fst termPair) s) as (symbol & s0 & E & T).
    unfold bind at 1. rewrite E.
    unfold bind at 1, gets.
    assert (R : rows s0 = rows s) by (inversion T; reflexivity).
    destruct (IMap.find symbol (rows s0)) as [basic|].
    + destruct (IH (SolverCore.insertRow insertISymbol (snd basic)
                      (snd termPair) row) s0) as (row' & s' & E' & T').
      exists row', s'. split; [exact E'|]. now rewrite T'.
    + destruct (IH (insertISymbol symbol (snd termPair) row) s0)
        as (row' & s' & E' & T').
      exists row', s'. split; [exact E'|]. now rewrite T'.
Qed.

(** [_createRow] always returns; it leaves the rows and the registry alone,
    and the objective too when the constraint is required; the marker it
    hands out is a symbol of its own making. *)
Lemma _createRow_runs (cn : Constraint.t) (s : Solver) :
  exists created s',
    SolverCore._createRow insertISymbol cn s = (Ok created, s')
    /\ rows s' = rows s /\ constraints s' = constraints s
    /\ (Qlt_bool (Constraint.strength cn) Strength.required = false ->
        objective s' = objective s)
    /\ isInvalid (ITag.marker (IRowCreation.tag created)) = false.
Proof.
  unfold SolverCore._createRow.
  destruct (_createRow_terms_runs (Expression.terms (Constraint.expression cn))
              (RowBase.new (Expression.constant (Constraint.expression cn))) s)
    as (row & s0 & E & T).
  unfold bind at 1. rewrite E.
  assert (R : rows s0 = rows s /\ objective s0 = objective s
              /\ constraints s0 = constraints s)
    by (inversion T; auto).
  destruct R as (R1 & R2 & R3).
  destruct (Constraint.operator cn);
    destruct (Qlt_bool (Constraint.strength cn) Strength.required);
    do 2 eexists; (split; [reflexivity|]); cbn;
    (split; [exact R1|]); (split; [exact R3|]);
    (split; [intro F; (discriminate F || exact R2)|reflexivity]).
Qed.

Lemma _createRow_raises P (cn : Constraint.t) :
  raises P (SolverCore._createRow insertISymbol cn).
Proof.
  intros s e s' H.
  destruct (_createRow_runs cn s) as (created & s0 & E & _).
  rewrite E in H. discriminate H.
Qed.

Lemma _makeISymbol_raises P (type : ISymbolType) :
  raises P (SolverCore._makeISymbol type).
Proof. intros s e s' H. discriminate H. Qed.

Lemma _addWithArtificialVariable_raises (fuel : nat) (row : RowBase.t) :
  raises pivot_error
    (SolverCore._addWithArtificialVariable insertISymbol fuel row).
Proof.
  unfold SolverCore._addWithArtificialVariable.
  repeat raises_step;
    try apply _makeISymbol_raises; try apply _optimize_raises;
    try apply solveForEx_raises; try apply _substitute_raises.
Qed.

(** What follows the duplicate check of [addConstraint] raises late errors
    only. *)
Lemma addConstraint_admission_raises (fuel : nat) (cn : Constraint.t) s e s' :
  IMap.find cn (constraints s) = None ->
  SolverCore.addConstraint insertISymbol allDummies fuel cn s = (Err e, s') ->
  late_error e.
Proof.
  intros Hfind H. unfold SolverCore.addConstraint in H.
  unfold bind at 1, gets in H. rewrite Hfind in H.
  revert H. apply raises_elim. cbv zeta.
  repeat raises_step;
    try apply _createRow_raises;
    try (apply raises_throw; unfold late_error; tauto);
    try (apply (raises_weaken pivot_error); [exact pivot_is_late|]);
    try apply _optimize_raises; try apply _addWithArtificialVariable_raises;
    try apply _substitute_raises.
  - apply raises_lift. intros e0 H0. left.
    apply allDummies_raises in H0. exact H0.
  - apply raises_lift. intros e0 H0. left.
    exact (solveFor_raises _ _ _ H0).
Qed.

(** An early error of [addConstraint] is the duplicate check's, and nothing
    was written. *)
Lemma addConstraint_early (fuel : nat) (cn : Constraint.t) s e s' :
  SolverCore.addConstraint insertISymbol allDummies fuel cn s = (Err e, s') ->
  early_error e = true -> s' = s.
Proof.
  intros H He.
  destruct (IMap.find cn (constraints s)) as [found|] eqn:Hfind.
  - unfold SolverCore.addConstraint in H.
    unfold bind at 1, gets in H. rewrite Hfind in H.
    inversion H. reflexivity.
  - apply (addConstraint_admission_raises fuel cn s e s' Hfind) in H.
    apply late_not_early in H. congruence.
Qed.

Lemma pivot_error_not_unsatisfiable : ~ pivot_error UnsatisfiableConstraint.
Proof. intros [H|[H|H]]; discriminate H. Qed.

(** When a required constraint whose row holds dummy symbols only is
    refused as unsatisfiable, the refusal is the one of the all-dummies
    test, and the tableau is the one before the call. *)
Lemma addConstraint_refused_on_dummies (fuel : nat) (cn : Constraint.t)
  s created s0 s' :
  Qlt_bool (Constraint.strength cn) Strength.required = false ->
  SolverCore._createRow insertISymbol cn s = (Ok created, s0) ->
  allDummies (IRowCreation.row created) = Ok true ->
  SolverCore.addConstraint insertISymbol allDummies fuel cn s
  = (Err UnsatisfiableConstraint, s') ->
  tableau s' = tableau s.
Proof.
  intros Hreq Hrow Hdummies H.
  destruct (_createRow_runs cn s) as (created' & s0' & E & R1 & R3 & R2 & Hm).
  rewrite Hrow in E. inversion E; subst created' s0'. clear E.
  specialize (R2 Hreq).
  unfold SolverCore.addConstraint in H.
  unfold bind at 1, gets in H.
  destruct (IMap.find cn (constraints s)); [discriminate H|].
  unfold bind at 1 in H. rewrite Hrow in H. cbv zeta in H.
  apply bind_inv in H.
  destruct H as [(subject & s1 & Hsubject & H)|(e & Hsubject & _)].
  - (* a subject was found: no later step raises "unsatisfiable" *)
    assert (Hvalid : isInvalid subject = false).
    { destruct (isInvalid (SolverCore._chooseSubject (IRowCreation.row created)
                             (IRowCreation.tag created))) eqn:Hc.
      - unfold bind, lift in Hsubject. rewrite Hdummies in Hsubject.
        destruct (negb (nearZero (RowBase.constant (IRowCreation.row created))));
          [discriminate Hsubject|].
        inversion Hsubject; subst. exact Hm.
      - inversion Hsubject; subst. exact Hc. }
    rewrite Hvalid in H.
    exfalso. apply pivot_error_not_unsatisfiable.
    revert H. apply raises_elim.
    repeat raises_step; try apply _optimize_raises; try apply _substitute_raises.
    apply raises_lift. intros e0 H0. left. exact (solveFor_raises _ _ _ H0).
  - (* the all-dummies test threw *)
    destruct (isInvalid (SolverCore._chooseSubject (IRowCreation.row created)
                           (IRowCreation.tag created))); [|discriminate Hsubject].
    unfold bind, lift in Hsubject. rewrite Hdummies in Hsubject.
    destruct (negb (nearZero (RowBase.constant (IRowCreation.row created))));
      [|discriminate Hsubject].
    inversion Hsubject; subst s'.
    unfold tableau. now rewrite R1, R2, R3.
Qed.

(** An early error of [removeConstraint] is the one of the registry lookup,
    and nothing was written. *)
Lemma removeConstraint_early (fuel : nat) (cn : Constraint.t) s e s' :
  SolverCore.removeConstraint insertISymbol _getMarkerLeavingISymbol fuel cn s
  = (Err e, s') ->
  early_error e = true -> s' = s.
Proof.
  intros H He. unfold SolverCore.removeConstraint in H.
  unfold bind at 1, gets in H.
  destruct (IMap.erase cn (constraints s)) as [[cnPair|] cs'].
  - exfalso.
    assert (L : late_error e).
    { revert H. apply raises_elim. cbv zeta.
      unfold SolverCore._removeConstraintEffects, SolverCore._removeMarkerEffects.
      repeat raises_step;
        try (apply raises_throw; unfold late_error, pivot_error; tauto);
        try (apply (raises_weaken pivot_error); [exact pivot_is_late|]);
        try apply _optimize_raises; try apply solveForEx_raises;
        try apply _substitute_raises. }
    apply late_not_early in L. congruence.
  - inversion H. reflexivity.
Qed.

Lemma suggestValue_early (fuel : nat) (variable : Var.t) (value : number)
  s e s' :
  SolverCore.suggestValue insertISymbol fuel variable value s = (Err e, s') ->
  early_error e = true -> s' = s.
Proof.
  intros H He. unfold SolverCore.suggestValue in H.
  unfold bind at 1, gets in H.
  destruct (IMap.find variable (edits s)) as [editPair|].
  - exfalso.
    assert (L : late_error e).
    { revert H. apply raises_elim. cbv zeta.
      unfold SolverCore.push_infeasible.
      repeat raises_step;
        (apply (raises_weaken dual_error); [exact dual_is_late|]);
        apply _dualOptimize_raises. }
    apply late_not_early in L. congruence.
  - inversion H. reflexivity.
Qed.

Lemma removeEditVariable_early (fuel : nat) (variable : Var.t) s e s' :
  SolverCore.removeEditVariable insertISymbol _getMarkerLeavingISymbol fuel
    variable s = (Err e, s') ->
  early_error e = true -> tableau s' = tableau s.
Proof.
  intros H He. unfold SolverCore.removeEditVariable in H.
  unfold bind at 1, gets in H.
  destruct (IMap.erase variable (edits s)) as [[editPair|] es'].
  - unfold bind at 1, modify in H.
    apply removeConstraint_early in H; [|exact He].
    subst s'. reflexivity.
  - inversion H. reflexivity.
Qed.

Lemma addEditVariable_early (fuel : nat) (cnId : Z) (variable : Var.t)
  (strength : number) s e s' :
  SolverCore.addEditVariable insertISymbol allDummies fuel cnId variable
    strength s = (Err e, s') ->
  early_error e = true -> s' = s.
Proof.
  intros H He. unfold SolverCore.addEditVariable in H.
  unfold bind at 1, gets in H.
  destruct (IMap.find variable (edits s)); [inversion H; reflexivity|].
  cbv zeta in H.
  destruct (Qeq_bool (Strength.clip strength) Strength.required);
    [inversion H; reflexivity|].
  unfold bind at 1, lift in H.
  destruct (Expression.new [Expression.IVariable variable]) as [expr|e0];
    [|inversion H; reflexivity].
  unfold bind at 1, lift in H.
  destruct (Constraint.new cnId (Expression.IExpression expr) Eq None
              (Strength.clip strength)) as [cn|e0];
    [|inversion H; reflexivity].
  apply bind_inv in H.
  destruct H as [(u & s0 & Hadd & H)|(e0 & Hadd & E)].
  - exfalso. unfold bind at 1, gets in H.
    destruct (IMap.find cn (constraints s0)); [discriminate H|].
    inversion H; subst. discriminate He.
  - inversion E; subst e0.
    exact (addConstraint_early fuel cn s e s' Hadd He).
Qed.

Lemma createConstraint_early (fuel : nat) (cnId : Z) (lhs : Expression.Item)
  (operator : Operator) (rhs : Expression.Item) (strength : number) s e s' :
  SolverCore.createConstraint insertISymbol allDummies fuel cnId lhs operator
    rhs strength s = (Err e, s') ->
  early_error e = true -> s' = s.
Proof.
  intros H He. unfold SolverCore.createConstraint in H.
  unfold bind at 1, lift in H.
  destruct (Constraint.new cnId lhs operator (Some rhs) strength) as [cn|e0];
    [|inversion H; reflexivity].
  apply bind_inv in H.
  destruct H as [(u & s0 & Hadd & H)|(e0 & Hadd & E)].
  - discriminate H.
  - inversion E; subst e0.
    exact (addConstraint_early fuel cn s e s' Hadd He).
Qed.

(** Whenever [addConstraint] refuses a constraint as unsatisfiable, on
    either path, the registry of constraints is the one before the call. *)
Lemma addConstraint_unsatisfiable_keeps_registry (fuel : nat)
  (cn : Constraint.t) s s' :
  SolverCore.addConstraint insertISymbol allDummies fuel cn s
  = (Err UnsatisfiableConstraint, s') ->
  constraints s' = constraints s.
Proof.
  intro H. unfold SolverCore.addConstraint in H.
  unfold bind at 1, gets in H.
  destruct (IMap.find cn (constraints s)); [discriminate H|].
  destruct (_createRow_runs cn s) as (created & s0 & E & _ & R & _).
  unfold bind at 1 in H. rewrite E in H. cbv zeta in H.
  apply bind_inv in H.
  destruct H as [(subject & s1 & Hsubject & H)|(e & Hsubject & _)].
  - apply (keeps_elim constraints) in Hsubject; [|repeat keeps_step].
    apply bind_inv in H.
    destruct H as [(u & s2 & _ & H)|(e & Hadmit & _)].
    + exfalso. apply pivot_error_not_unsatisfiable.
      revert H. apply raises_elim.
      repeat raises_step. apply _optimize_raises.
    + apply (keeps_elim constraints) in Hadmit;
        [congruence|].
      repeat keeps_step;
        try apply _addWithArtificialVariable_keeps_constraints;
        try apply _substitute_keeps_constraints.
  - apply (keeps_elim constraints) in Hsubject; [congruence|].
    repeat keeps_step.
Qed.

Definition not_unsatisfiable (e : Error) : Prop := e <> UnsatisfiableConstraint.

Lemma pivot_not_unsatisfiable (e : Error) : pivot_error e -> not_unsatisfiable e.
Proof. intros [H|[H|H]]; subst; discriminate. Qed.

Lemma removeConstraint_not_unsatisfiable (fuel : nat) (cn : Constraint.t) :
  raises not_unsatisfiable
    (SolverCore.removeConstraint insertISymbol _getMarkerLeavingISymbol fuel cn).
Proof.
  unfold SolverCore.removeConstraint, SolverCore._removeConstraintEffects,
    SolverCore._removeMarkerEffects.
  repeat raises_step;
    try (apply raises_throw; discriminate);
    try (apply (raises_weaken pivot_error); [exact pivot_not_unsatisfiable|]);
    try apply _optimize_raises; try apply solveForEx_raises;
    try apply _substitute_raises.
Qed.

Lemma suggestValue_not_unsatisfiable (fuel : nat) variable value :
  raises not_unsatisfiable
    (SolverCore.suggestValue insertISymbol fuel variable value).
Proof.
  unfold SolverCore.suggestValue, SolverCore.push_infeasible.
  assert (D : forall e, dual_error e -> not_unsatisfiable e).
  { intros e [H|H]; [now apply pivot_not_unsatisfiable|subst; discriminate]. }
  repeat raises_step;
    try (apply raises_throw; discriminate);
    (apply (raises_weaken dual_error); [exact D|]);
    apply _dualOptimize_raises.
Qed.

(** The constraint a call admits, when it admits one. *)
Definition admitted_constraint (call : Call) : option Constraint.t :=
  match call with
  | CreateConstraint cnId lhs operator rhs strength =>
      match Constraint.new cnId lhs operator (Some rhs) strength with
      | Ok cn => Some cn
      | Err _ => None
      end
  | AddConstraint cn => Some cn
  | _ => None
  end.

(** The call admits a required constraint whose row, as [_createRow] builds
    it on [s], holds dummy symbols only. *)
Definition required_row_of_dummies (call : Call) (s : Solver) : Prop :=
  exists cn created s0,
    admitted_constraint call = Some cn
    /\ Qlt_bool (Constraint.strength cn) Strength.required = false
    /\ SolverCore._createRow insertISymbol cn s = (Ok created, s0)
    /\ allDummies (IRowCreation.row created) = Ok true.

Lemma refusal_tableau (fuel : nat) (call : Call) s e s' :
  SolverCore.perform insertISymbol allDummies _getMarkerLeavingISymbol fuel
    call s = (Err e, s') ->
  early_error e = true
  \/ (e = UnsatisfiableConstraint /\ required_row_of_dummies call s) ->
  tableau s' = tableau s.
Proof.
  intros H [He|[He (cn & created & s0 & Hcn & Hreq & Hrow & Hdummies)]].
  - destruct call; cbn [SolverCore.perform] in H.
    + apply bind_inv in H.
      destruct H as [(u & s1 & _ & H)|(e0 & H & E)]; [discriminate H|].
      inversion E; subst e0.
      now rewrite (createConstraint_early _ _ _ _ _ _ _ _ _ H He).
    + now rewrite (addConstraint_early _ _ _ _ _ H He).
    + now rewrite (removeConstraint_early _ _ _ _ _ H He).
    + now rewrite (addEditVariable_early _ _ _ _ _ _ _ H He).
    + exact (removeEditVariable_early _ _ _ _ _ H He).
    + now rewrite (suggestValue_early _ _ _ _ _ _ H He).
  - subst e. destruct call; cbn [admitted_constraint] in Hcn;
      try discriminate Hcn; cbn [SolverCore.perform] in H.
    + apply bind_inv in H.
      destruct H as [(u & s1 & _ & H)|(e0 & H & E)]; [discriminate H|].
      inversion E; subst e0.
      unfold SolverCore.createConstraint in H.
      unfold bind at 1, lift in H.
      destruct (Constraint.new cnId lhs operator (Some rhs) strength)
        as [cn'|e0]; [|discriminate Hcn].
      inversion Hcn; subst cn'.
      apply bind_inv in H.
      destruct H as [(u & s1 & _ & H)|(e0 & H & E0)]; [discriminate H|].
      inversion E0; subst e0.
      exact (addConstraint_refused_on_dummies fuel cn s created s0 s'
               Hreq Hrow Hdummies H).
    + inversion Hcn; subst cn.
      exact (addConstraint_refused_on_dummies fuel constraint s created s0 s'
               Hreq Hrow Hdummies H).
Qed.

Lemma refusal_registry (fuel : nat) (call : Call) s s' :
  SolverCore.perform insertISymbol allDummies _getMarkerLeavingISymbol fuel
    call s = (Err UnsatisfiableConstraint, s') ->
  constraints s' = constraints s.
Proof.
  intro H. destruct call; cbn [SolverCore.perform] in H.
  - apply bind_inv in H.
    destruct H as [(u & s1 & _ & H)|(e0 & H & E)]; [discriminate H|].
    inversion E; subst e0.
    unfold SolverCore.createConstraint in H. unfold bind at 1, lift in H.
    destruct (Constraint.new cnId lhs operator (Some rhs) strength)
      as [cn|e0]; [|now inversion H].
    apply bind_inv in H.
    destruct H as [(u & s1 & _ & H)|(e0 & H & E0)]; [discriminate H|].
    inversion E0; subst e0.
    exact (addConstraint_unsatisfiable_keeps_registry fuel cn s s' H).
  - exact (addConstraint_unsatisfiable_keeps_registry fuel constraint s s' H).
  - exfalso.
    exact (removeConstraint_not_unsatisfiable fuel constraint s _ s' H eq_refl).
  - unfold SolverCore.addEditVariable in H. unfold bind at 1, gets in H.
    destruct (IMap.find variable (edits s)); [discriminate H|].
    cbv zeta in H.
    destruct (Qeq_bool (Strength.clip strength) Strength.required);
      [discriminate H|].
    unfold bind at 1, lift in H.
    destruct (Expression.new [Expression.IVariable variable]) as [expr|e0];
      [|now inversion H].
    unfold bind at 1, lift in H.
    destruct (Constraint.new cnId (Expression.IExpression expr) Eq None
                (Strength.clip strength)) as [cn|e0]; [|now inversion H].
    apply bind_inv in H.
    destruct H as [(u & s0 & _ & H)|(e0 & Hadd & E)].
    + exfalso. unfold bind at 1, gets in H.
      destruct (IMap.find cn (constraints s0)); discriminate H.
    + inversion E; subst e0.
      exact (addConstraint_unsatisfiable_keeps_registry fuel cn s s' Hadd).
  - exfalso. unfold SolverCore.removeEditVariable in H.
    unfold bind at 1, gets in H.
    destruct (IMap.erase variable (edits s)) as [[editPair|] es'];
      [|discriminate H].
    unfold bind at 1, modify in H.
    exact (removeConstraint_not_unsatisfiable fuel _ _ _ s' H eq_refl).
  - exfalso.
    exact (suggestValue_not_unsatisfiable fuel variable value s _ s' H eq_refl).
Qed.

End Footprint.

Lemma Row_allDummies_raises (row : RowBase.t) (e : Error) :
  Row.allDummies row = Err e -> e = TypeError.
Proof.
  rewrite Row_allDummies_cases.
  destruct (RowBase.cells row); intro H; [now inversion H|discriminate H].
Qed.

Lemma Row2_allDummies_raises (row : RowBase.t) (e : Error) :
  Row2.allDummies row = Err e -> e = TypeError.
Proof. rewrite Row2_allDummies_total. intro H. discriminate H. Qed.

(** solver.ts, first revision: when a call of a public method fails with
    an error of its opening checks or of the expression
    constructors (duplicate or unknown constraint, duplicate or unknown edit
    variable, bad strength, malformed expression), or when a required
    constraint whose row holds dummy symbols only is refused as
    unsatisfiable, the rows, the objective and the registry of constraints
    are the ones before the call; and whenever a constraint is refused as
    unsatisfiable, on either path, the registry is the one before the
    call. *)
Theorem rev1_refusal_before_commit (fuel : nat) (call : Call)
  (s s' : Solver) (e : Error) :
  Solver1.perform fuel call s = (Err e, s') ->
  (early_error e = true
   \/ (e = UnsatisfiableConstraint
       /\ required_row_of_dummies Row.insertISymbol Row.allDummies call s) ->
   tableau s' = tableau s)
  /\ (e = UnsatisfiableConstraint -> constraints s' = constraints s).
Proof.
  intro H. split.
  - exact (refusal_tableau Row.insertISymbol Row.allDummies
             Solver1._getMarkerLeavingISymbol Row_allDummies_raises
             fuel call s e s' H).
  - intro E. subst e.
    exact (refusal_registry Row.insertISymbol Row.allDummies
             Solver1._getMarkerLeavingISymbol fuel call s s' H).
Qed.

(** solver.ts, second revision: the same two facts about a call that
    fails. *)
Lemma rev2_refusal_tableau_and_registry (fuel : nat) (call : Call)
  (s s' : Solver) (e : Error) :
  Solver2.perform fuel call s = (Err e, s') ->
  (early_error e = true
   \/ (e = UnsatisfiableConstraint
       /\ required_row_of_dummies Row2.insertISymbol Row2.allDummies call s) ->
   tableau s' = tableau s)
  /\ (e = UnsatisfiableConstraint -> constraints s' = constraints s).
Proof.
  intro H. split.
  - exact (refusal_tableau Row2.insertISymbol Row2.allDummies
             Solver2._getMarkerLeavingISymbol Row2_allDummies_raises
             fuel call s e s' H).
  - intro E. subst e.
    exact (refusal_registry Row2.insertISymbol Row2.allDummies
             Solver2._getMarkerLeavingISymbol fuel call s s' H).
Qed.

(** [x == 10] and [x == 20], both required. *)
Definition cn_x_eq_10 : Constraint.t :=
  Constraint.mk (Expression.mk [(x, 1)] (-10)) Eq required 0.
Definition cn_x_eq_20 : Constraint.t :=
  Constraint.mk (Expression.mk [(x, 1)] (-20)) Eq required 1.

(** The conflict of [x == 10] and [x == 20], a constraint added twice, and
    [x <= 5] after [x >= 10]. *)
Lemma rev1_refusal_before_commit_witness :
  (exists s s' s'',
     Solver1.addConstraint 10 cn_x_eq_10 newSolver = (Ok tt, s)
     /\ Solver1.perform 10 (AddConstraint cn_x_eq_20) s
        = (Err UnsatisfiableConstraint, s')
     /\ tableau s' = tableau s
     /\ Solver1.perform 10 (AddConstraint cn_x_eq_10) s
        = (Err DuplicateConstraint, s'')
     /\ tableau s'' = tableau s)
  /\ (exists s s',
        Solver1.addConstraint 10 cn_x_ge_10 newSolver = (Ok tt, s)
        /\ Solver1.perform 10 (AddConstraint cn_x_le_5) s
           = (Err UnsatisfiableConstraint, s')
        /\ constraints s' = constraints s).
Proof.
  split.
  - exists (state_after (Solver1.addConstraint 10 cn_x_eq_10) newSolver).
    exists (state_after (Solver1.perform 10 (AddConstraint cn_x_eq_20))
              (state_after (Solver1.addConstraint 10 cn_x_eq_10) newSolver)).
    exists (state_after (Solver1.perform 10 (AddConstraint cn_x_eq_10))
              (state_after (Solver1.addConstraint 10 cn_x_eq_10) newSolver)).
    split; [vm_compute; reflexivity|].
    split; [vm_compute; reflexivity|].
    split.
    + apply (rev1_refusal_before_commit 10 (AddConstraint cn_x_eq_20) _ _
               UnsatisfiableConstraint).
      * vm_compute; reflexivity.
      * right. split; [reflexivity|].
        exists cn_x_eq_20. eexists. eexists.
        split; [reflexivity|]. split; [vm_compute; reflexivity|].
        split; [vm_compute; reflexivity|]. vm_compute; reflexivity.
    + split; [vm_compute; reflexivity|].
      apply (rev1_refusal_before_commit 10 (AddConstraint cn_x_eq_10) _ _
               DuplicateConstraint).
      * vm_compute; reflexivity.
      * left. reflexivity.
  - exists (state_after (Solver1.addConstraint 10 cn_x_ge_10) newSolver).
    exists (state_after (Solver1.perform 10 (AddConstraint cn_x_le_5))
              (state_after (Solver1.addConstraint 10 cn_x_ge_10) newSolver)).
    split; [vm_compute; reflexivity|].
    split; [vm_compute; reflexivity|].
    apply (rev1_refusal_before_commit 10 (AddConstraint cn_x_le_5) _ _
             UnsatisfiableConstraint).
    + vm_compute; reflexivity.
    + reflexivity.
Defined.

(** ** Maps with sorted, unique keys *)


Section IMapFacts.
Context {K V : Type} {HK : Keyed K}.

Definition key_lt (p q : K * V) : Prop := (key_id (fst p) < key_id (fst q))%Z.

(** The keys of the map go up strictly: what [createMap] maintains. *)
Definition IMap_wf (m : IMap.t K V) : Prop := StronglySorted key_lt m.

Lemma find_insert_same (k : K) (v : V) (m : IMap.t K V) :
  exists k', IMap.find k (IMap.insert k v m) = Some (k', v).
Proof.
  induction m as [|p m IH]; simpl.
  - rewrite Z.eqb_refl. now exists k.
  - destruct (key_id k <? key_id (fst p))%Z eqn:Hlt; simpl.
    + rewrite Z.eqb_refl. now exists k.
    + destruct (key_id k =? key_id (fst p))%Z eqn:Heq; simpl.
      * rewrite Z.eqb_sym, Heq. now exists (fst p).
      * rewrite Z.eqb_sym, Heq. exact IH.
Qed.

Lemma find_insert_other (k k' : K) (v : V) (m : IMap.t K V) :
  key_id k' <> key_id k ->
  IMap.find k' (IMap.insert k v m) = IMap.find k' m.
Proof.
  intro Hne. induction m as [|p m IH]; simpl.
  - destruct (Z.eqb_spec (key_id k) (key_id k')); [congruence|reflexivity].
  - destruct (key_id k <? key_id (fst p))%Z; simpl.
    + destruct (Z.eqb_spec (key_id k) (key_id k')); [congruence|reflexivity].
    + destruct (Z.eqb_spec (key_id k) (key_id (fst p))) as [E|E]; simpl.
      * destruct (Z.eqb_spec (key_id (fst p)) (key_id k')); [congruence|].
        reflexivity.
      * now rewrite IH.
Qed.

Lemma find_remove_other (k k' : K) (m : IMap.t K V) :
  key_id k' <> key_id k ->
  IMap.find k' (IMap.remove k m) = IMap.find k' m.
Proof.
  intro Hne. induction m as [|p m IH]; simpl; [reflexivity|].
  destruct (Z.eqb_spec (key_id (fst p)) (key_id k)) as [E|E]; simpl.
  - destruct (Z.eqb_spec (key_id (fst p)) (key_id k')); [congruence|].
    reflexivity.
  - now rewrite IH.
Qed.

Lemma find_above_head (k : K) (p : K * V) (m : IMap.t K V) :
  Forall (key_lt p) m -> (key_id k <= key_id (fst p))%Z ->
  IMap.find k m = None.
Proof.
  intros Hall Hle. induction m as [|q m IH]; simpl; [reflexivity|].
  inversion Hall as [|? ? Hq Hm]; subst.
  destruct (Z.eqb_spec (key_id (fst q)) (key_id k)) as [E|E].
  - unfold key_lt in Hq. lia.
  - exact (IH Hm).
Qed.

Lemma find_remove_same (k : K) (m : IMap.t K V) :
  IMap_wf m -> IMap.find k (IMap.remove k m) = None.
Proof.
  intro Hwf. induction m as [|p m IH]; simpl; [reflexivity|].
  inversion Hwf as [|? ? Hm Hall]; subst.
  destruct (Z.eqb_spec (key_id (fst p)) (key_id k)) as [E|E]; simpl.
  - apply (find_above_head k p m Hall). lia.
  - destruct (Z.eqb_spec (key_id (fst p)) (key_id k)); [congruence|].
    exact (IH Hm).
Qed.

Lemma wf_remove (k : K) (m : IMap.t K V) :
  IMap_wf m -> IMap_wf (IMap.remove k m).
Proof.
  intro Hwf. induction m as [|p m IH]; simpl; [constructor|].
  inversion Hwf as [|? ? Hm Hall]; subst.
  destruct (key_id (fst p) =? key_id k)%Z; [exact Hm|].
  constructor; [exact (IH Hm)|].
  clear IH Hwf Hm. induction m as [|q m IHm]; simpl; [constructor|].
  inversion Hall; subst.
  destruct (key_id (fst q) =? key_id k)%Z; [assumption|].
  constructor; [assumption|]. now apply IHm.
Qed.

Lemma wf_insert (k : K) (v : V) (m : IMap.t K V) :
  IMap_wf m -> IMap_wf (IMap.insert k v m).
Proof.
  intro Hwf. induction m as [|p m IH]; simpl.
  - repeat constructor.
  - inversion Hwf as [|? ? Hm Hall]; subst.
    destruct (Z.ltb_spec (key_id k) (key_id (fst p))) as [Hlt|Hge].
    + constructor; [exact Hwf|].
      constructor; [exact Hlt|].
      eapply Forall_impl; [|exact Hall].
      intros q Hq. unfold key_lt in *. simpl. lia.
    + destruct (Z.eqb_spec (key_id k) (key_id (fst p))) as [E|E].
      * constructor; [exact Hm|].
        eapply Forall_impl; [|exact Hall].
        intros q Hq. unfold key_lt in *. simpl. exact Hq.
      * constructor; [exact (IH Hm)|].
        clear IH Hwf Hm. induction m as [|q m IHm]; simpl.
        -- constructor; [|constructor]. unfold key_lt. simpl. lia.
        -- inversion Hall; subst.
           destruct (key_id k <? key_id (fst q))%Z.
           ++ constructor; [unfold key_lt; simpl; lia|].
              constructor; assumption.
           ++ destruct (key_id k =? key_id (fst q))%Z.
              ** constructor; [assumption|assumption].
              ** constructor; [assumption|]. now apply IHm.
Qed.

End IMapFacts.

(** ** The [Row] of the second revision *)

Definition has (symbol : ISymbol.t) (row : RowBase.t) : bool :=
  IMap.contains symbol (RowBase.cells row).

Lemma Row2_insertISymbol_cases (symbol : ISymbol.t) (c : number)
  (row : RowBase.t) :
  Row2.insertISymbol symbol c row
  = let cells :=
      match IMap.find symbol (RowBase.cells row) with
      | Some _ => RowBase.cells row
      | None => IMap.insert symbol 0 (RowBase.cells row)
      end in
    let sum := RowBase.coefficientFor symbol row + c in
    if nearZero sum
    then RowBase.mk (RowBase.constant row) (IMap.remove symbol cells)
    else RowBase.mk (RowBase.constant row) (IMap.insert symbol sum cells).
Proof.
  unfold Row2.insertISymbol, RowBase.coefficientFor, IMap.setDefault, IMap.erase.
  destruct (IMap.find symbol (RowBase.cells row)); reflexivity.
Qed.

(** solver.ts, second revision: [insertISymbol(s, c)] adds [c] to the
    coefficient of [s] (0 when the cell is absent) and erases the cell
    exactly when the sum is within [eps] of zero; the other cells and the
    constant stay as they were. *)
Lemma Row2_insertISymbol_adds (symbol : ISymbol.t) (c : number)
  (row : RowBase.t) :
  IMap_wf (RowBase.cells row) ->
  let sum := RowBase.coefficientFor symbol row + c in
  let row' := Row2.insertISymbol symbol c row in
  has symbol row' = negb (nearZero sum)
  /\ RowBase.coefficientFor symbol row' = (if nearZero sum then 0 else sum)
  /\ (forall other, ISymbol.id other <> ISymbol.id symbol ->
        RowBase.coefficientFor other row' = RowBase.coefficientFor other row)
  /\ RowBase.constant row' = RowBase.constant row
  /\ IMap_wf (RowBase.cells row').
Proof.
  intros Hwf sum row'. subst row'.
  rewrite Row2_insertISymbol_cases. fold sum.
  set (cells := match IMap.find symbol (RowBase.cells row) with
                | Some _ => RowBase.cells row
                | None => IMap.insert symbol 0 (RowBase.cells row)
                end).
  assert (Hcells : IMap_wf cells).
  { subst cells. destruct (IMap.find symbol (RowBase.cells row));
      [exact Hwf|now apply wf_insert]. }
  assert (Hother : forall other, ISymbol.id other <> ISymbol.id symbol ->
            IMap.find other cells = IMap.find other (RowBase.cells row)).
  { intros other Hne. subst cells.
    destruct (IMap.find symbol (RowBase.cells row)); [reflexivity|].
    exact (find_insert_other (HK := ISymbol_Keyed) symbol other 0 _ Hne). }
  cbv zeta. unfold has, IMap.contains, RowBase.coefficientFor.
  destruct (nearZero sum); cbn [RowBase.cells RowBase.constant negb].
  - rewrite (find_remove_same symbol cells Hcells).
    repeat split; try reflexivity.
    + intros other Hne.
      rewrite (find_remove_other (HK := ISymbol_Keyed) symbol other cells Hne).
      now rewrite (Hother other Hne).
    + now apply wf_remove.
  - destruct (find_insert_same symbol sum cells) as (k' & E).
    rewrite E. repeat split; try reflexivity.
    + intros other Hne.
      rewrite (find_insert_other (HK := ISymbol_Keyed) symbol other sum cells Hne).
      now rewrite (Hother other Hne).
    + now apply wf_insert.
Qed.

Lemma Row2_insertISymbol_adds_witness :
  RowBase.coefficientFor slack1 (Row2.insertISymbol slack1 3 (RowBase.mk 0 [(slack1, 2)]))
  = 2 + 3
  /\ has slack1 (Row2.insertISymbol slack1 (-2) (RowBase.mk 0 [(slack1, 2)])) = false.
Proof.
  assert (Hwf : IMap_wf (RowBase.cells (RowBase.mk 0 [(slack1, 2)])))
    by (repeat constructor).
  split.
  - exact (proj1 (proj2 (Row2_insertISymbol_adds slack1 3 _ Hwf))).
  - exact (proj1 (Row2_insertISymbol_adds slack1 (-2) _ Hwf)).
Defined.

(** ** The leaving row of a marker, second revision *)

Section MarkerLeaving.
Variable marker : ISymbol.t.

Definition coeff (pr : ISymbol.t * RowBase.t) : Q :=
  RowBase.coefficientFor marker (snd pr).

Definition restricted (pr : ISymbol.t * RowBase.t) : bool :=
  negb (ISymbolType_eqb (ISymbol.type (fst pr)) External).

(** A restricted row with a negative coefficient for the marker. *)
Definition tier1 (pr : ISymbol.t * RowBase.t) : bool :=
  restricted pr && Qlt_bool (coeff pr) 0.

(** A restricted row with a positive coefficient for the marker. *)
Definition tier2 (pr : ISymbol.t * RowBase.t) : bool :=
  restricted pr && Qlt_bool 0 (coeff pr).

(** An external row that holds the marker. *)
Definition tier3 (pr : ISymbol.t * RowBase.t) : bool :=
  negb (restricted pr) && negb (Qeq_bool (coeff pr) 0).

Definition ratio1 (pr : ISymbol.t * RowBase.t) : Q :=
  - RowBase.constant (snd pr) / coeff pr.

Definition ratio2 (pr : ISymbol.t * RowBase.t) : Q :=
  RowBase.constant (snd pr) / coeff pr.

(** One turn of a search for the first row of the smallest ratio. *)
Definition keep_smaller (candidate : ISymbol.t * RowBase.t -> bool)
  (ratio : ISymbol.t * RowBase.t -> Q) (acc : Q * ISymbol.t)
  (pr : ISymbol.t * RowBase.t) : Q * ISymbol.t :=
  if candidate pr && Qlt_bool (ratio pr) (fst acc) then (ratio pr, fst pr)
  else acc.

Definition keep_last (acc : ISymbol.t) (pr : ISymbol.t * RowBase.t)
  : ISymbol.t :=
  if tier3 pr then fst pr else acc.

Lemma Qeq_bool_zero_not_lt (c : Q) :
  Qeq_bool c 0 = true -> Qlt_bool c 0 = false /\ Qlt_bool 0 c = false.
Proof.
  intro H. apply Qeq_bool_iff in H.
  split; apply Qlt_bool_false_iff; rewrite H; apply Qle_refl.
Qed.

Lemma Qlt_bool_trichotomy (c : Q) :
  Qeq_bool c 0 = false -> Qlt_bool c 0 = false -> Qlt_bool 0 c = true.
Proof.
  intros Hne Hlt. apply Qlt_bool_iff. apply Qlt_bool_false_iff in Hlt.
  apply Qle_lt_or_eq in Hlt. destruct Hlt as [H|H]; [exact H|].
  assert (E : Qeq_bool c 0 = true) by (apply Qeq_bool_iff; now symmetry).
  congruence.
Qed.

Lemma Qlt_bool_asym (a b : Q) : Qlt_bool a b = true -> Qlt_bool b a = false.
Proof.
  intro H. apply Qlt_bool_iff in H. apply Qlt_bool_false_iff.
  now apply Qlt_le_weak.
Qed.

Lemma Qlt_bool_neg_nonzero (c : Q) : Qlt_bool c 0 = true -> Qeq_bool c 0 = false.
Proof.
  intro H. apply Qlt_bool_iff in H.
  destruct (Qeq_bool c 0) eqn:E; [|reflexivity].
  apply Qeq_bool_iff in E. rewrite E in H. now apply Qlt_irrefl in H.
Qed.

Lemma keep_smaller_skip candidate ratio acc (pr : ISymbol.t * RowBase.t) :
  candidate pr = false -> keep_smaller candidate ratio acc pr = acc.
Proof. intro H. unfold keep_smaller. now rewrite H. Qed.

Lemma keep_smaller_take candidate ratio acc (pr : ISymbol.t * RowBase.t) :
  candidate pr = true ->
  keep_smaller candidate ratio acc pr
  = if Qlt_bool (ratio pr) (fst acc) then (ratio pr, fst pr) else acc.
Proof. intro H. unfold keep_smaller. now rewrite H. Qed.

(** Which search a row belongs to, by the tests of the loop. *)
Lemma tiers_of_row (pr : ISymbol.t * RowBase.t) :
  (tier1 pr, tier2 pr, tier3 pr)
  = if Qeq_bool (coeff pr) 0 then (false, false, false)
    else if ISymbolType_eqb (ISymbol.type (fst pr)) External
    then (false, false, true)
    else if Qlt_bool (coeff pr) 0 then (true, false, false)
    else (false, true, false).
Proof.
  unfold tier1, tier2, tier3, restricted.
  destruct (Qeq_bool (coeff pr) 0) eqn:Hz.
  - destruct (Qeq_bool_zero_not_lt _ Hz) as [H1 H2]. rewrite H1, H2.
    now rewrite !andb_false_r.
  - destruct (ISymbolType_eqb (ISymbol.type (fst pr)) External);
      [reflexivity|].
    destruct (Qlt_bool (coeff pr) 0) eqn:Hneg.
    + now rewrite (Qlt_bool_asym _ _ Hneg).
    + now rewrite (Qlt_bool_trichotomy _ Hz Hneg).
Qed.

(** The loop of the second revision is three searches run side by side. *)
Lemma rev2_loop_is_three_searches (rs : IMap.t ISymbol.t RowBase.t) :
  forall r1 r2 first second third,
    Solver2._getMarkerLeavingISymbol_from marker rs r1 r2 first second third
    = let a1 := fold_left (keep_smaller tier1 ratio1) rs (r1, first) in
      let a2 := fold_left (keep_smaller tier2 ratio2) rs (r2, second) in
      let a3 := fold_left keep_last rs third in
      if negb (Solver2.ISymbol_same (snd a1) INVALID_SYMBOL) then snd a1
      else if negb (Solver2.ISymbol_same (snd a2) INVALID_SYMBOL) then snd a2
      else a3.
Proof.
  induction rs as [|pr rs IH]; intros r1 r2 first second third;
    [reflexivity|].
  cbn [Solver2._getMarkerLeavingISymbol_from fold_left].
  pose proof (tiers_of_row pr) as T. unfold keep_last at 2.
  change (RowBase.coefficientFor marker (snd pr)) with (coeff pr).
  destruct (Qeq_bool (coeff pr) 0);
    [|destruct (ISymbolType_eqb (ISymbol.type (fst pr)) External);
      [|destruct (Qlt_bool (coeff pr) 0)]];
    injection T as T1 T2 T3; rewrite T3.
  - rewrite (keep_smaller_skip _ _ _ _ T1), (keep_smaller_skip _ _ _ _ T2).
    apply IH.
  - rewrite (keep_smaller_skip _ _ _ _ T1), (keep_smaller_skip _ _ _ _ T2).
    apply IH.
  - rewrite (keep_smaller_take _ _ _ _ T1), (keep_smaller_skip _ _ _ _ T2).
    cbn [fst]. change (- RowBase.constant (snd pr) / coeff pr) with (ratio1 pr).
    destruct (Qlt_bool (ratio1 pr) r1); apply IH.
  - rewrite (keep_smaller_skip _ _ _ _ T1), (keep_smaller_take _ _ _ _ T2).
    cbn [fst]. change (RowBase.constant (snd pr) / coeff pr) with (ratio2 pr).
    destruct (Qlt_bool (ratio2 pr) r2); apply IH.
Qed.

(** A search keeps its start when no candidate is below it, and otherwise
    ends on a candidate below the start whose ratio no candidate
    undercuts. *)
Lemma keep_smaller_min (candidate : ISymbol.t * RowBase.t -> bool)
  (ratio : ISymbol.t * RowBase.t -> Q) (rs : IMap.t ISymbol.t RowBase.t) :
  forall acc,
    let res := fold_left (keep_smaller candidate ratio) rs acc in
    (forall pr, In pr rs -> candidate pr = true -> fst res <= ratio pr)
    /\ (res = acc
        \/ exists pr, In pr rs /\ candidate pr = true
                      /\ res = (ratio pr, fst pr) /\ ratio pr < fst acc).
Proof.
  induction rs as [|pr rs IH]; intro acc; cbn [fold_left].
  - split; [intros pr []|]. now left.
  - destruct (IH (keep_smaller candidate ratio acc pr)) as [Hmin Hres].
    set (res := fold_left (keep_smaller candidate ratio) rs
                  (keep_smaller candidate ratio acc pr)) in *.
    assert (Hle : fst res <= fst (keep_smaller candidate ratio acc pr)).
    { destruct Hres as [E|(q & _ & _ & E & Hq)].
      - rewrite E. apply Qle_refl.
      - rewrite E. cbn [fst]. now apply Qlt_le_weak. }
    unfold keep_smaller in Hle, Hres.
    split.
    + intros q [Eq|Hin] Hc; [subst q|now apply Hmin].
      rewrite Hc in Hle. cbn [andb] in Hle.
      destruct (Qlt_bool (ratio pr) (fst acc)) eqn:Hlt; [exact Hle|].
      apply Qlt_bool_false_iff in Hlt. eapply Qle_trans; eassumption.
    + destruct (candidate pr && Qlt_bool (ratio pr) (fst acc)) eqn:Hstep.
      * right. apply andb_true_iff in Hstep. destruct Hstep as [Hc Hlt].
        apply Qlt_bool_iff in Hlt.
        destruct Hres as [E|(q & Hin & Hcq & E & Hq)].
        -- exists pr. repeat split; auto. now left.
        -- exists q. repeat split; auto; [now right|].
           cbn [fst] in Hq. eapply Qlt_trans; eassumption.
      * destruct Hres as [E|(q & Hin & Hcq & E & Hq)]; [now left|].
        right. exists q. repeat split; auto. now right.
Qed.

(** The last search ends on the last external row that holds the marker. *)
Lemma keep_last_is_last (rs : IMap.t ISymbol.t RowBase.t) :
  forall acc,
    let res := fold_left keep_last rs acc in
    (res = acc /\ forall pr, In pr rs -> tier3 pr = false)
    \/ exists before pr after,
         rs = before ++ pr :: after /\ tier3 pr = true /\ res = fst pr
         /\ forall q, In q after -> tier3 q = false.
Proof.
  induction rs as [|pr rs IH]; intro acc; cbn [fold_left].
  - left. split; [reflexivity|intros pr []].
  - destruct (IH (keep_last acc pr)) as [[E Hnone]|(b & q & a & E & Hq & R & Ha)].
    + rewrite E. unfold keep_last. destruct (tier3 pr) eqn:Ht.
      * right. exists [], pr, rs. repeat split; auto.
      * left. split; [reflexivity|].
        intros q [Eq|Hin]; [now subst q|now apply Hnone].
    + right. exists (pr :: b), q, a.
      split; [now rewrite E|]. split; [exact Hq|]. split; [exact R|exact Ha].
Qed.

Lemma search_from_invalid_none candidate ratio
  (rs : IMap.t ISymbol.t RowBase.t) :
  (forall pr, In pr rs -> candidate pr = false) ->
  fold_left (keep_smaller candidate ratio) rs (MAX_VALUE, INVALID_SYMBOL)
  = (MAX_VALUE, INVALID_SYMBOL).
Proof.
  intro Hnone.
  destruct (keep_smaller_min candidate ratio rs (MAX_VALUE, INVALID_SYMBOL))
    as [_ [E|(pr & Hin & Hc & _)]]; [exact E|].
  rewrite (Hnone pr Hin) in Hc. discriminate Hc.
Qed.

Lemma search_from_invalid_some candidate ratio
  (rs : IMap.t ISymbol.t RowBase.t) :
  (forall pr, In pr rs -> candidate pr = true -> ratio pr < MAX_VALUE) ->
  (exists pr, In pr rs /\ candidate pr = true) ->
  exists pr,
    In pr rs /\ candidate pr = true
    /\ fold_left (keep_smaller candidate ratio) rs (MAX_VALUE, INVALID_SYMBOL)
       = (ratio pr, fst pr)
    /\ forall q, In q rs -> candidate q = true -> ratio pr <= ratio q.
Proof.
  intros Hbound (q0 & Hin0 & Hc0).
  destruct (keep_smaller_min candidate ratio rs (MAX_VALUE, INVALID_SYMBOL))
    as [Hmin [E|(pr & Hin & Hc & E & _)]].
  - exfalso. rewrite E in Hmin. cbn [fst] in Hmin.
    apply (Qlt_not_le _ _ (Hbound q0 Hin0 Hc0)). exact (Hmin q0 Hin0 Hc0).
  - exists pr. repeat split; auto.
    intros q Hq Hcq. rewrite E in Hmin. exact (Hmin q Hq Hcq).
Qed.

(** solver.ts, second revision: on a tableau whose restricted rows have
    non-negative constants, the leaving row of a marker is chosen by the
    three-tier rule (ratios below [Number.MAX_VALUE], which seeds the two
    searches). *)
Lemma rev2_marker_leaving_three_tiers (rs : IMap.t ISymbol.t RowBase.t) :
  (forall pr, In pr rs -> Solver2.ISymbol_same (fst pr) INVALID_SYMBOL = false) ->
  (forall pr, In pr rs -> restricted pr = true ->
              0 <= RowBase.constant (snd pr)) ->
  (forall pr, In pr rs -> tier1 pr = true -> ratio1 pr < MAX_VALUE) ->
  (forall pr, In pr rs -> tier2 pr = true -> ratio2 pr < MAX_VALUE) ->
  let leaving := Solver2._getMarkerLeavingISymbol rs marker in
  ((exists pr, In pr rs /\ tier1 pr = true) ->
   exists pr, In pr rs /\ leaving = fst pr /\ tier1 pr = true
     /\ forall q, In q rs -> tier1 q = true ->
          - RowBase.constant (snd pr) / coeff pr
          <= - RowBase.constant (snd q) / coeff q)
  /\ ((forall pr, In pr rs -> tier1 pr = false) ->
      (exists pr, In pr rs /\ tier2 pr = true) ->
      exists pr, In pr rs /\ leaving = fst pr /\ tier2 pr = true
        /\ forall q, In q rs -> tier2 q = true ->
             Qabs (RowBase.constant (snd pr)) / coeff pr
             <= Qabs (RowBase.constant (snd q)) / coeff q)
  /\ ((forall pr, In pr rs -> tier1 pr = false) ->
      (forall pr, In pr rs -> tier2 pr = false) ->
      (exists pr, In pr rs /\ tier3 pr = true) ->
      exists before pr after,
        rs = before ++ pr :: after /\ leaving = fst pr /\ tier3 pr = true
        /\ forall q, In q after -> tier3 q = false)
  /\ ((forall pr, In pr rs -> tier1 pr = false) ->
      (forall pr, In pr rs -> tier2 pr = false) ->
      (forall pr, In pr rs -> tier3 pr = false) ->
      leaving = INVALID_SYMBOL).
Proof.
  intros Hkeys Hfeasible Hb1 Hb2 leaving. subst leaving.
  unfold Solver2._getMarkerLeavingISymbol.
  rewrite rev2_loop_is_three_searches. cbv zeta.
  split; [|split; [|split]].
  - intro Hex.
    destruct (search_from_invalid_some tier1 ratio1 rs Hb1 Hex)
      as (pr & Hin & Hc & E & Hmin).
    exists pr. rewrite E. cbn [snd]. rewrite (Hkeys pr Hin). cbn [negb].
    repeat split; auto.
  - intros Hno1 Hex.
    rewrite (search_from_invalid_none tier1 ratio1 rs Hno1). cbn [snd negb].
    change (Solver2.ISymbol_same INVALID_SYMBOL INVALID_SYMBOL) with true.
    cbn [negb].
    destruct (search_from_invalid_some tier2 ratio2 rs Hb2 Hex)
      as (pr & Hin & Hc & E & Hmin).
    exists pr. rewrite E. cbn [snd]. rewrite (Hkeys pr Hin). cbn [negb].
    repeat split; auto.
    intros q Hq Hcq.
    assert (Hr : forall p, In p rs -> tier2 p = true ->
                   Qabs (RowBase.constant (snd p)) == RowBase.constant (snd p)).
    { intros p Hp Hcp. apply Qabs_pos. apply (Hfeasible p Hp).
      unfold tier2 in Hcp. now apply andb_true_iff in Hcp. }
    rewrite (Hr pr Hin Hc), (Hr q Hq Hcq). exact (Hmin q Hq Hcq).
  - intros Hno1 Hno2 Hex.
    rewrite (search_from_invalid_none tier1 ratio1 rs Hno1).
    rewrite (search_from_invalid_none tier2 ratio2 rs Hno2). cbn [snd].
    change (Solver2.ISymbol_same INVALID_SYMBOL INVALID_SYMBOL) with true.
    cbn [negb].
    destruct (keep_last_is_last rs INVALID_SYMBOL)
      as [[_ Hnone]|(b & pr & a & E & Hc & R & Ha)].
    + destruct Hex as (pr & Hin & Hc). rewrite (Hnone pr Hin) in Hc.
      discriminate Hc.
    + exists b, pr, a. repeat split; auto.
  - intros Hno1 Hno2 Hno3.
    rewrite (search_from_invalid_none tier1 ratio1 rs Hno1).
    rewrite (search_from_invalid_none tier2 ratio2 rs Hno2). cbn [snd].
    change (Solver2.ISymbol_same INVALID_SYMBOL INVALID_SYMBOL) with true.
    cbn [negb].
    destruct (keep_last_is_last rs INVALID_SYMBOL)
      as [[E _]|(b & pr & a & E & Hc & _)]; [exact E|].
    rewrite (Hno3 pr) in Hc; [discriminate Hc|].
    rewrite E. apply in_or_app. right. now left.
Qed.

End MarkerLeaving.

Lemma rev2_marker_leaving_three_tiers_witness :
  exists pr,
    In pr tableau_three_bounds
    /\ Solver2._getMarkerLeavingISymbol tableau_three_bounds slack1 = fst pr
    /\ tier1 slack1 pr = true
    /\ forall q, In q tableau_three_bounds -> tier1 slack1 q = true ->
         - RowBase.constant (snd pr) / coeff slack1 pr
         <= - RowBase.constant (snd q) / coeff slack1 q.
Proof.
  apply (rev2_marker_leaving_three_tiers slack1 tableau_three_bounds).
  - intros pr [E|[E|[E|[]]]]; subst pr; reflexivity.
  - intros pr [E|[E|[E|[]]]] _; subst pr; discriminate.
  - intros pr [E|[E|[E|[]]]] _; subst pr; reflexivity.
  - intros pr [E|[E|[E|[]]]] _; subst pr; reflexivity.
  - exists (slack3, RowBase.mk 5 [(slack1, -1)]).
    split; [right; left; reflexivity|reflexivity].
Defined.

Section NoLeavingRow.
Variable insertISymbol : ISymbol.t -> number -> RowBase.t -> RowBase.t.
Variable _getMarkerLeavingISymbol :
  IMap.t ISymbol.t RowBase.t -> ISymbol.t -> ISymbol.t.

Lemma _removeConstraintEffects_runs (cn : Constraint.t) (tag : ITag.t)
  (s : Solver) :
  exists s',
    SolverCore._removeConstraintEffects insertISymbol cn tag s = (Ok tt, s')
    /\ rows s' = rows s /\ constraints s' = constraints s.
Proof.
  unfold SolverCore._removeConstraintEffects, SolverCore._removeMarkerEffects,
    bind, modify, ret.
  destruct (ISymbolType_eqb (ISymbol.type (ITag.marker tag)) Error_);
    destruct (ISymbolType_eqb (ISymbol.type (ITag.other tag)) Error_);
    eexists; (split; [reflexivity|]);
    repeat match goal with
           | |- context [IMap.find ?k ?m] => destruct (IMap.find k m)
           end; split; reflexivity.
Qed.

(** When the marker of a registered constraint is not basic and the search
    for a leaving row comes back with the invalid symbol, [removeConstraint]
    throws "failed to find leaving row". *)
Lemma removeConstraint_without_leaving_row (fuel : nat) (cn : Constraint.t)
  (registered : Constraint.t * ITag.t) (s : Solver) :
  IMap.find cn (constraints s) = Some registered ->
  IMap.find (ITag.marker (snd registered)) (rows s) = None ->
  isInvalid (_getMarkerLeavingISymbol (rows s) (ITag.marker (snd registered)))
  = true ->
  exists s',
    SolverCore.removeConstraint insertISymbol _getMarkerLeavingISymbol fuel cn s
    = (Err NoLeavingRow, s').
Proof.
  intros Hcn Hrow Hinvalid.
  unfold SolverCore.removeConstraint.
  unfold bind at 1, gets. unfold IMap.erase at 1. rewrite Hcn.
  unfold bind at 1, modify. cbv zeta.
  destruct (_removeConstraintEffects_runs cn (snd registered)
              (set_constraints (IMap.remove cn (constraints s)) s))
    as (s0 & E & R & _).
  unfold bind at 1. rewrite E.
  unfold bind at 1, gets. unfold bind at 1.
  cbn [rows set_constraints] in R. rewrite R.
  unfold IMap.erase at 1. rewrite Hrow, Hinvalid.
  eexists. reflexivity.
Qed.

End NoLeavingRow.

(** ** The second revision on the same calls *)

(** solver.ts, second revision: [allDummies] returns for every row, and
    returns true exactly when every cell's symbol is a dummy (so also for a
    row without cells). *)
Theorem Row2_allDummies_iff (this : RowBase.t) :
  exists answer,
    Row2.allDummies this = Ok answer
    /\ (answer = true <->
        forall cell, In cell (RowBase.cells this) ->
                     ISymbol.type (fst cell) = Dummy).
Proof.
  exists (forallb isDummy (RowBase.cells this)).
  split; [apply Row2_allDummies_total|].
  rewrite forallb_forall. unfold isDummy.
  split; intros H cell Hin; specialize (H cell Hin).
  - destruct (ISymbol.type (fst cell)); try discriminate H. reflexivity.
  - now rewrite H.
Qed.

(** The refusals of the second revision, at the conflict of [x == 10] and
    [x == 20]. *)
Lemma rev2_refusal_tableau_and_registry_witness :
  exists s s',
    Solver2.addConstraint 10 cn_x_eq_10 newSolver = (Ok tt, s)
    /\ Solver2.perform 10 (AddConstraint cn_x_eq_20) s
       = (Err UnsatisfiableConstraint, s')
    /\ tableau s' = tableau s
    /\ constraints s' = constraints s.
Proof.
  exists (state_after (Solver2.addConstraint 10 cn_x_eq_10) newSolver).
  exists (state_after (Solver2.perform 10 (AddConstraint cn_x_eq_20))
            (state_after (Solver2.addConstraint 10 cn_x_eq_10) newSolver)).
  split; [vm_compute; reflexivity|].
  split; [vm_compute; reflexivity|].
  split.
  - apply (rev2_refusal_tableau_and_registry 10 (AddConstraint cn_x_eq_20) _ _
             UnsatisfiableConstraint).
    + vm_compute; reflexivity.
    + right. split; [reflexivity|].
      exists cn_x_eq_20. eexists. eexists.
      split; [reflexivity|]. split; [vm_compute; reflexivity|].
      split; [vm_compute; reflexivity|]. vm_compute; reflexivity.
  - apply (rev2_refusal_tableau_and_registry 10 (AddConstraint cn_x_eq_20) _ _
             UnsatisfiableConstraint).
    + vm_compute; reflexivity.
    + reflexivity.
Defined.

Definition dummy1 : ISymbol.t := ISymbol.mk Dummy 1.

(** A registry that names a marker which no row holds. *)
Definition solver_with_lost_marker : Solver :=
  set_constraints [(cn_x_eq_10, ITag.mk dummy1 INVALID_SYMBOL)] newSolver.

Lemma removeConstraint_without_leaving_row_witness :
  exists s',
    Solver2.removeConstraint 10 cn_x_eq_10 solver_with_lost_marker
    = (Err NoLeavingRow, s').
Proof.
  apply (removeConstraint_without_leaving_row Row2.insertISymbol
           Solver2._getMarkerLeavingISymbol 10 cn_x_eq_10
           (cn_x_eq_10, ITag.mk dummy1 INVALID_SYMBOL) solver_with_lost_marker);
    reflexivity.
Defined.

(** ** The seed scenarios of the specification, second revision *)

(** A program of calls, each of which must return; the solver it leaves. *)
Fixpoint run_calls (perform : nat -> Call -> M unit) (fuel : nat)
  (calls : list Call) (s : Solver) : Result Solver :=
  match calls with
  | [] => Ok s
  | call :: rest =>
      match perform fuel call s with
      | (Ok _, s') => run_calls perform fuel rest s'
      | (Err e, _) => Err e
      end
  end.

(** The value [updateVariables] publishes for [x] after the program. *)
Definition published_x (perform : nat -> Call -> M unit) (calls : list Call)
  : Result number :=
  match run_calls perform 20 calls newSolver with
  | Ok s => Ok (Qred (SolverCore.updateVariables s initial_values (Var.id x)))
  | Err e => Err e
  end.

Definition x_rel (constant : number) (operator : Operator) (strength : number)
  (id : Z) : Constraint.t :=
  Constraint.mk (Expression.mk [(x, 1)] constant) operator strength id.

(** S1, S2, S5 and S6: [x == 20]; [x >= 10], [x <= 20], strong [x == 15];
    [x >= 0] with a strong edit variable suggested 42 and then -5; medium
    [x == 100] against weak [x == 0], before and after the medium one is
    removed. *)
Lemma rev2_seed_scenarios :
  published_x Solver2.perform [AddConstraint (x_rel (-20) Eq required 0)]
  = Ok 20
  /\ published_x Solver2.perform
       [AddConstraint (x_rel (-10) Ge required 0);
        AddConstraint (x_rel (-20) Le required 1);
        AddConstraint (x_rel (-15) Eq Strength.strong 2)]
     = Ok 15
  /\ published_x Solver2.perform
       [AddConstraint (x_rel 0 Ge required 0);
        AddEditVariable 1 x Strength.strong;
        SuggestValue x 42]
     = Ok 42
  /\ published_x Solver2.perform
       [AddConstraint (x_rel 0 Ge required 0);
        AddEditVariable 1 x Strength.strong;
        SuggestValue x 42;
        SuggestValue x (-5)]
     = Ok 0
  /\ published_x Solver2.perform
       [AddConstraint (x_rel (-100) Eq Strength.medium 0);
        AddConstraint (x_rel 0 Eq Strength.weak 1)]
     = Ok 100
  /\ published_x Solver2.perform
       [AddConstraint (x_rel (-100) Eq Strength.medium 0);
        AddConstraint (x_rel 0 Eq Strength.weak 1);
        RemoveConstraint (x_rel (-100) Eq Strength.medium 0)]
     = Ok 0.
Proof. repeat split; vm_compute; reflexivity. Qed.

(** ** The constructor of [Expression]: what it accepts and what it builds *)

(** The error [parseArgs] raises at an argument, by the tests of its loop:
    none for a number, a variable, an expression and a pair of a number and
    a variable or expression. *)
Definition argument_error (item : Expression.Item) : option Error :=
  match item with
  | Expression.INumber _ | Expression.IVariable _ | Expression.IExpression _ =>
      None
  | Expression.IArray items =>
      match items with
      | [value; value2] =>
          match value with
          | Expression.INumber _ =>
              match value2 with
              | Expression.IVariable _ | Expression.IExpression _ => None
              | _ => Some ArrayItem1
              end
          | _ => Some ArrayItem0
          end
      | _ => Some ArrayLength
      end
  | Expression.IOther => Some InvalidArgument
  end.

(** The terms of an expression, each coefficient multiplied by [value]. *)
Definition scaled (value : number) (terms : list (Var.t * number))
  : list (Var.t * number) :=
  List.map (fun termPair => (fst termPair, snd termPair * value)) terms.

(** The terms an argument hands to [setDefault], in the order of the
    calls. *)
Definition argument_terms (item : Expression.Item) : list (Var.t * number) :=
  match item with
  | Expression.IVariable v => [(v, 1)]
  | Expression.IExpression e => Expression.terms e
  | Expression.IArray [Expression.INumber value; Expression.IVariable v] =>
      [(v, value)]
  | Expression.IArray [Expression.INumber value; Expression.IExpression e] =>
      scaled value (Expression.terms e)
  | _ => []
  end.

(** What an argument adds to [constant]. *)
Definition argument_constant (item : Expression.Item) : number :=
  match item with
  | Expression.INumber n => n
  | Expression.IExpression e => Expression.constant e
  | Expression.IArray [Expression.INumber value; Expression.IExpression e] =>
      Expression.constant e * value
  | _ => 0
  end.

(** The linear form an expression stands for, at the values [st] of the
    variables. *)
Definition linear (st : values) (e : Expression.t) : number :=
  Expression.constant e + termsSum st (Expression.terms e).

(** The number an argument stands for. *)
Definition argument_value (st : values) (item : Expression.Item) : number :=
  match item with
  | Expression.INumber n => n
  | Expression.IVariable v => st (Var.id v)
  | Expression.IExpression e => linear st e
  | Expression.IArray [Expression.INumber value; Expression.IVariable v] =>
      value * st (Var.id v)
  | Expression.IArray [Expression.INumber value; Expression.IExpression e] =>
      value * linear st e
  | _ => 0
  end.

(** The ids of the variables of a list of terms, in order. *)
Definition term_ids (terms : list (Var.t * number)) : list Z :=
  List.map (fun termPair => Var.id (fst termPair)) terms.

(** One call [terms.setDefault(termPair.first, () => termPair.second)]. *)
Definition setDefault_term (acc : IMap.t Var.t number)
  (termPair : Var.t * number) : IMap.t Var.t number :=
  snd (IMap.setDefault (fst termPair) (snd termPair) acc).

Lemma mergeTerms_scaled (value : number) (terms2 terms : IMap.t Var.t number) :
  Expression.mergeTerms value terms2 terms
  = fold_left setDefault_term (scaled value terms2) terms.
Proof.
  unfold Expression.mergeTerms, scaled. revert terms.
  induction terms2 as [|p terms2 IH]; intro terms; simpl; [reflexivity|].
  apply IH.
Qed.

Lemma parseArgs_from_ok (args : list Expression.Item) :
  Forall (fun item => argument_error item = None) args ->
  forall (constant : number) (terms : IMap.t Var.t number),
  exists e,
    Expression.parseArgs_from args constant terms = Ok e
    /\ Expression.terms e
       = fold_left setDefault_term (flat_map argument_terms args) terms
    /\ Expression.constant e
       == constant + fold_right Qplus 0 (List.map argument_constant args).
Proof.
  induction 1 as [|item args Hitem Hargs IH]; intros constant terms.
  - eexists. split; [reflexivity|]. split; [reflexivity|]. simpl. ring.
  - destruct item as [n|v|e0|items|]; try discriminate Hitem.
    + destruct (IH (constant + n) terms) as (e & E & T & C).
      exists e. split; [exact E|]. split; [exact T|].
      rewrite C. simpl. ring.
    + destruct (IH constant (snd (IMap.setDefault v 1 terms)))
        as (e & E & T & C).
      exists e. split; [exact E|]. split; [exact T|].
      rewrite C. simpl. ring.
    + cbn [Expression.parseArgs_from flat_map argument_terms].
      rewrite fold_left_app.
      destruct (IH (constant + Expression.constant e0)
                  (fold_left setDefault_term (Expression.terms e0) terms))
        as (e & E & T & C).
      exists e. split; [exact E|]. split; [exact T|].
      rewrite C. simpl. ring.
    + destruct items as [|value [|value2 [|other items]]];
        try discriminate Hitem.
      destruct value as [value| | | |]; try discriminate Hitem.
      destruct value2 as [|v|e0| |]; try discriminate Hitem.
      * destruct (IH constant (snd (IMap.setDefault v value terms)))
          as (e & E & T & C).
        exists e. split; [exact E|]. split; [exact T|].
        rewrite C. simpl. ring.
      * cbn [Expression.parseArgs_from flat_map argument_terms].
        rewrite fold_left_app, mergeTerms_scaled.
        destruct (IH (constant + Expression.constant e0 * value)
                  (fold_left setDefault_term
                     (scaled value (Expression.terms e0)) terms))
          as (e & E & T & C).
        exists e. split; [exact E|]. split; [exact T|].
        rewrite C. simpl. ring.
Qed.

Lemma parseArgs_from_err (before : list Expression.Item) :
  Forall (fun item => argument_error item = None) before ->
  forall (bad : Expression.Item) (after : list Expression.Item) (err : Error)
         (constant : number) (terms : IMap.t Var.t number),
    argument_error bad = Some err ->
    Expression.parseArgs_from (before ++ bad :: after) constant terms = Err err.
Proof.
  induction 1 as [|item before Hitem Hbefore IH];
    intros bad after err constant terms Hbad.
  - cbn [app].
    destruct bad as [n|v|e0|items|]; try discriminate Hbad.
    + destruct items as [|value [|value2 [|other items]]];
        try (injection Hbad as <-; reflexivity).
      destruct value as [value| | | |];
        try (injection Hbad as <-; reflexivity).
      destruct value2 as [|v|e0| |]; try discriminate Hbad;
        injection Hbad as <-; reflexivity.
    + injection Hbad as <-. reflexivity.
  - cbn [app].
    destruct item as [n|v|e0|items|]; try discriminate Hitem;
      cbn [Expression.parseArgs_from]; try (apply IH; exact Hbad).
    destruct items as [|value [|value2 [|other items]]];
      try discriminate Hitem.
    destruct value as [value| | | |]; try discriminate Hitem.
    destruct value2 as [|v|e0| |]; try discriminate Hitem;
      apply IH; exact Hbad.
Qed.

(** Every list of arguments is well formed throughout or has a first
    argument that is not. *)
Lemma first_bad_argument (args : list Expression.Item) :
  Forall (fun item => argument_error item = None) args
  \/ exists before bad after err,
       args = before ++ bad :: after
       /\ Forall (fun item => argument_error item = None) before
       /\ argument_error bad = Some err.
Proof.
  induction args as [|item args IH]; [left; constructor|].
  destruct (argument_error item) as [err|] eqn:E.
  - right. exists [], item, args, err. repeat split; auto.
  - destruct IH as [IH|(before & bad & after & err & Hargs & Hb & Hbad)].
    + left. constructor; assumption.
    + right. exists (item :: before), bad, after, err.
      rewrite Hargs. repeat split; auto.
Qed.

(** [new Expression(...args)] returns exactly when every argument is a
    number, a variable, an expression or a pair of a number and a variable or
    expression; otherwise it throws the error of the first argument that is
    not, whatever follows it. *)
Theorem new_Expression_fails_at_first_bad_argument
  (args : list Expression.Item) :
  ((exists e, Expression.new args = Ok e)
   <-> Forall (fun item => argument_error item = None) args)
  /\ (forall err,
        Expression.new args = Err err
        <-> exists before bad after,
              args = before ++ bad :: after
              /\ Forall (fun item => argument_error item = None) before
              /\ argument_error bad = Some err).
Proof.
  unfold Expression.new, Expression.parseArgs.
  destruct (first_bad_argument args)
    as [Hok|(before & bad & after & err0 & Hargs & Hb & Hbad)].
  - destruct (parseArgs_from_ok args Hok 0 []) as (e & E & _).
    split.
    + split; [intros _; exact Hok|intros _; exists e; exact E].
    + intro err. split.
      * intro H. rewrite E in H. discriminate H.
      * intros (before & bad & after & Hargs & Hb & Hbad).
        exfalso. subst args.
        apply Forall_app in Hok. destruct Hok as [_ Hok].
        inversion Hok as [|? ? Hbad' _]; subst. congruence.
  - pose proof (parseArgs_from_err before Hb bad after err0 0 [] Hbad) as E.
    rewrite <- Hargs in E.
    split.
    + split.
      * intros (e & He). rewrite E in He. discriminate He.
      * intro Hok. exfalso. subst args.
        apply Forall_app in Hok. destruct Hok as [_ Hok].
        inversion Hok as [|? ? Hbad' _]; subst. congruence.
    + intro err. split.
      * intro H. rewrite E in H. injection H as <-.
        exists before, bad, after. auto.
      * intros (before' & bad' & after' & Hargs' & Hb' & Hbad').
        rewrite Hargs'. apply parseArgs_from_err; assumption.
Qed.

(** *** Which coefficient a variable ends up with *)

Lemma IMap_find_is_first_match {V : Type} (k : Var.t) (m : list (Var.t * V)) :
  IMap.find k m = List.find (fun p => (Var.id (fst p) =? Var.id k)%Z) m.
Proof.
  induction m as [|p m IH]; simpl; [reflexivity|].
  change (key_id (fst p)) with (Var.id (fst p)).
  change (key_id k) with (Var.id k).
  destruct (Var.id (fst p) =? Var.id k)%Z; [reflexivity|exact IH].
Qed.

Section AbsentKey.
Context {K V : Type} {HK : Keyed K}.

(** A key the map does not hold goes in as it is given. *)
Lemma find_insert_absent (k k' : K) (v : V) (m : IMap.t K V) :
  IMap.find k m = None ->
  IMap.find k' (IMap.insert k v m)
  = if (key_id k =? key_id k')%Z then Some (k, v) else IMap.find k' m.
Proof.
  induction m as [|p m IH]; intro Habs; simpl.
  - reflexivity.
  - simpl in Habs.
    destruct (Z.eqb_spec (key_id (fst p)) (key_id k)) as [E|E];
      [discriminate Habs|].
    destruct (key_id k <? key_id (fst p))%Z; simpl.
    + destruct (key_id k =? key_id k')%Z; reflexivity.
    + destruct (Z.eqb_spec (key_id k) (key_id (fst p))) as [E'|E'];
        [congruence|].
      simpl. rewrite (IH Habs).
      destruct (Z.eqb_spec (key_id k) (key_id k')) as [E2|E2];
        [|reflexivity].
      destruct (Z.eqb_spec (key_id (fst p)) (key_id k')); [congruence|].
      reflexivity.
Qed.

Lemma find_setDefault (k k' : K) (v : V) (m : IMap.t K V) :
  IMap.find k' (snd (IMap.setDefault k v m))
  = match IMap.find k' m with
    | Some p => Some p
    | None => if (key_id k =? key_id k')%Z then Some (k, v) else None
    end.
Proof.
  unfold IMap.setDefault.
  destruct (IMap.find k m) as [p|] eqn:E; cbn [snd].
  - destruct (IMap.find k' m) eqn:E'; [reflexivity|].
    destruct (Z.eqb_spec (key_id k) (key_id k')) as [Ek|Ek]; [|reflexivity].
    exfalso. clear -E E' Ek.
    induction m as [|q m IH]; simpl in *; [discriminate E|].
    rewrite Ek in E.
    destruct (key_id (fst q) =? key_id k')%Z; [discriminate E'|auto].
  - rewrite (find_insert_absent k k' v m E).
    destruct (Z.eqb_spec (key_id k) (key_id k')) as [Ek|Ek].
    + assert (E' : IMap.find k' m = None).
      { clear -E Ek. induction m as [|q m IH]; simpl in *; [reflexivity|].
        rewrite <- Ek.
        destruct (key_id (fst q) =? key_id k)%Z; [discriminate E|auto]. }
      now rewrite E'.
    + now destruct (IMap.find k' m).
Qed.

Lemma wf_setDefault (k : K) (v : V) (m : IMap.t K V) :
  IMap_wf m -> IMap_wf (snd (IMap.setDefault k v m)).
Proof.
  intro Hwf. unfold IMap.setDefault.
  destruct (IMap.find k m); cbn [snd]; [exact Hwf|now apply wf_insert].
Qed.

End AbsentKey.

Lemma find_fold_setDefault (v : Var.t) (l : list (Var.t * number)) :
  forall m : IMap.t Var.t number,
    IMap.find v (fold_left setDefault_term l m)
    = match IMap.find v m with
      | Some p => Some p
      | None => List.find (fun p => (Var.id (fst p) =? Var.id v)%Z) l
      end.
Proof.
  induction l as [|p l IH]; intro m; cbn [fold_left List.find].
  - now destruct (IMap.find v m).
  - rewrite IH. unfold setDefault_term at 1.
    rewrite (find_setDefault (HK := Var_Keyed) (fst p) v (snd p) m).
    destruct (IMap.find v m); [reflexivity|].
    change (key_id (fst p)) with (Var.id (fst p)).
    change (key_id v) with (Var.id v).
    destruct (Var.id (fst p) =? Var.id v)%Z; [now destruct p|reflexivity].
Qed.

Lemma wf_fold_setDefault (l : list (Var.t * number)) :
  forall m : IMap.t Var.t number,
    IMap_wf m -> IMap_wf (fold_left setDefault_term l m).
Proof.
  induction l as [|p l IH]; intros m Hwf; cbn [fold_left]; [exact Hwf|].
  apply IH. now apply wf_setDefault.
Qed.

(** What [new Expression(...args)] builds: the constant is the sum of the
    constants of the arguments, the terms are sorted by id with no variable
    twice, and a variable has the coefficient of its first occurrence in the
    arguments (a later occurrence is dropped, not added). *)
Theorem new_Expression_first_occurrence (args : list Expression.Item)
  (e : Expression.t) :
  Expression.new args = Ok e ->
  Expression.constant e
  == fold_right Qplus 0 (List.map argument_constant args)
  /\ IMap_wf (Expression.terms e)
  /\ forall v : Var.t,
       IMap.find v (Expression.terms e)
       = List.find (fun termPair => (Var.id (fst termPair) =? Var.id v)%Z)
           (flat_map argument_terms args).
Proof.
  intro Hnew.
  assert (Hok : Forall (fun item => argument_error item = None) args).
  { destruct (first_bad_argument args)
      as [Hok|(before & bad & after & err & Hargs & Hb & Hbad)]; [exact Hok|].
    unfold Expression.new, Expression.parseArgs in Hnew.
    rewrite Hargs, (parseArgs_from_err before Hb bad after err 0 [] Hbad)
      in Hnew.
    discriminate Hnew. }
  destruct (parseArgs_from_ok args Hok 0 []) as (e' & E & T & C).
  unfold Expression.new, Expression.parseArgs in Hnew.
  rewrite E in Hnew. injection Hnew as <-.
  split; [rewrite C; ring|]. split.
  - rewrite T. apply wf_fold_setDefault. constructor.
  - intro v. rewrite T. apply find_fold_setDefault.
Qed.

Lemma new_Expression_first_occurrence_witness :
  exists e,
    Expression.new
      [Expression.IArray [Expression.INumber 2; Expression.IVariable x];
       Expression.INumber 3; Expression.IVariable y; Expression.IVariable x]
    = Ok e
    /\ Expression.constant e == 3
    /\ IMap.find x (Expression.terms e) = Some (x, 2)
    /\ IMap.find y (Expression.terms e) = Some (y, 1).
Proof.
  eexists. split; [reflexivity|].
  match goal with
  | |- Expression.constant ?e == _ /\ _ =>
      destruct (new_Expression_first_occurrence
                  [Expression.IArray
                     [Expression.INumber 2; Expression.IVariable x];
                   Expression.INumber 3; Expression.IVariable y;
                   Expression.IVariable x] e eq_refl) as (C & _ & F)
  end.
  split; [rewrite C; reflexivity|].
  split; rewrite F; reflexivity.
Defined.

(** *** The value of what the constructor builds *)

Lemma termsSum_app (st : values) (l1 l2 : list (Var.t * number)) :
  termsSum st (l1 ++ l2) == termsSum st l1 + termsSum st l2.
Proof.
  unfold termsSum. induction l1 as [|p l1 IH]; simpl; [ring|].
  rewrite IH. ring.
Qed.

Lemma termsSum_scaled (st : values) (value : number)
  (l : list (Var.t * number)) :
  termsSum st (scaled value l) == value * termsSum st l.
Proof.
  unfold termsSum, scaled. induction l as [|p l IH]; simpl; [ring|].
  rewrite IH. ring.
Qed.

Lemma termsSum_insert_absent (st : values) (k : Var.t) (v : number)
  (m : IMap.t Var.t number) :
  IMap.find k m = None ->
  termsSum st (IMap.insert k v m) == termsSum st m + st (Var.id k) * v.
Proof.
  unfold termsSum.
  induction m as [|p m IH]; intro Habs; simpl.
  - ring.
  - simpl in Habs.
    destruct (Z.eqb_spec (key_id (fst p)) (key_id k)) as [E|E];
      [discriminate Habs|].
    destruct (key_id k <? key_id (fst p))%Z; simpl; [ring|].
    destruct (Z.eqb_spec (key_id k) (key_id (fst p))) as [E'|E'];
      [congruence|].
    simpl. rewrite (IH Habs). ring.
Qed.

Lemma termsSum_fold_setDefault (st : values) (l : list (Var.t * number)) :
  forall m : IMap.t Var.t number,
    NoDup (term_ids l) ->
    (forall p, In p l -> IMap.find (fst p) m = None) ->
    termsSum st (fold_left setDefault_term l m)
    == termsSum st m + termsSum st l.
Proof.
  induction l as [|p l IH]; intros m Hnd Habs; cbn [fold_left].
  - unfold termsSum at 3. simpl. ring.
  - inversion Hnd as [|? ? Hp Hl]; subst.
    assert (Hp0 : IMap.find (fst p) m = None) by (apply Habs; now left).
    unfold setDefault_term at 2. unfold IMap.setDefault.
    rewrite Hp0. cbn [snd].
    rewrite IH.
    + rewrite (termsSum_insert_absent st (fst p) (snd p) m Hp0).
      unfold termsSum at 4. simpl. fold (termsSum st l). ring.
    + exact Hl.
    + intros q Hq.
      rewrite (find_insert_absent (HK := Var_Keyed) (fst p) (fst q) (snd p) m
                 Hp0).
      destruct (Z.eqb_spec (key_id (fst p)) (key_id (fst q))) as [E|E].
      * exfalso. apply Hp. unfold term_ids.
        change (Var.id (fst p)) with (key_id (fst p)). rewrite E.
        apply (in_map (fun termPair => Var.id (fst termPair))). exact Hq.
      * apply Habs. now right.
Qed.

Lemma argument_value_split (st : values) (item : Expression.Item) :
  argument_value st item
  == argument_constant item + termsSum st (argument_terms item).
Proof.
  unfold linear.
  destruct item as [n|v|e0|items|]; simpl; unfold termsSum; simpl;
    try ring.
  - unfold linear, termsSum. ring.
  - repeat (match goal with
            | |- context [match ?i with _ => _ end] => is_var i; destruct i
            end; simpl); try ring.
    match goal with
    | |- context [scaled ?k (Expression.terms ?e0)] =>
        fold (termsSum st (scaled k (Expression.terms e0)))
    end.
    rewrite termsSum_scaled. unfold linear. ring.
Qed.

Lemma arguments_value_split (st : values) (args : list Expression.Item) :
  fold_right Qplus 0 (List.map (argument_value st) args)
  == fold_right Qplus 0 (List.map argument_constant args)
     + termsSum st (flat_map argument_terms args).
Proof.
  induction args as [|item args IH]; simpl.
  - unfold termsSum. simpl. ring.
  - rewrite IH, termsSum_app, argument_value_split. ring.
Qed.

(** The [value] getter of an expression with a term is its linear form. *)
Lemma value_is_linear (st : values) (e : Expression.t) :
  Expression.isConstant e = false ->
  exists v, Expression.value st e = Ok v /\ v == linear st e.
Proof.
  unfold Expression.value, Expression.isConstant, IMap.size, IMap.map, linear,
    termsSum.
  destruct (Expression.terms e) as [|p ps]; simpl; intro H;
    [discriminate H|].
  eexists. split; [reflexivity|]. rewrite fold_left_Qplus. ring.
Qed.

Lemma new_Expression_linear (st : values) (args : list Expression.Item)
  (e : Expression.t) :
  Expression.new args = Ok e ->
  NoDup (term_ids (flat_map argument_terms args)) ->
  linear st e == fold_right Qplus 0 (List.map (argument_value st) args).
Proof.
  intros Hnew Hnd.
  assert (Hok : Forall (fun item => argument_error item = None) args).
  { destruct (first_bad_argument args)
      as [Hok|(before & bad & after & err & Hargs & Hb & Hbad)]; [exact Hok|].
    unfold Expression.new, Expression.parseArgs in Hnew.
    rewrite Hargs, (parseArgs_from_err before Hb bad after err 0 [] Hbad)
      in Hnew.
    discriminate Hnew. }
  destruct (parseArgs_from_ok args Hok 0 []) as (e' & E & T & C).
  unfold Expression.new, Expression.parseArgs in Hnew.
  rewrite E in Hnew. injection Hnew as <-.
  unfold linear. rewrite T, C, arguments_value_split.
  rewrite (termsSum_fold_setDefault st _ [] Hnd) by reflexivity.
  unfold termsSum at 1. simpl. ring.
Qed.

(** When no variable occurs twice in the arguments, the expression that
    [new Expression(...args)] builds stands for the sum of its arguments (a
    pair for the product of its two items), and so does its [value] getter
    when the expression has a term. *)
Theorem new_Expression_sums_distinct_variables (st : values)
  (args : list Expression.Item) (e : Expression.t) :
  Expression.new args = Ok e ->
  NoDup (term_ids (flat_map argument_terms args)) ->
  linear st e == fold_right Qplus 0 (List.map (argument_value st) args)
  /\ (Expression.isConstant e = false ->
      exists v,
        Expression.value st e = Ok v
        /\ v == fold_right Qplus 0 (List.map (argument_value st) args)).
Proof.
  intros Hnew Hnd.
  pose proof (new_Expression_linear st args e Hnew Hnd) as L.
  split; [exact L|].
  intro Hc. destruct (value_is_linear st e Hc) as (v & Hv & Ev).
  exists v. split; [exact Hv|]. now rewrite Ev.
Qed.

Lemma new_Expression_sums_distinct_variables_witness :
  exists e v,
    Expression.new
      [Expression.IArray [Expression.INumber 2; Expression.IVariable x];
       Expression.INumber 3; Expression.IVariable y]
    = Ok e
    /\ Expression.value (set_value x 5 (set_value y 7 initial_values)) e = Ok v
    /\ v == 20.
Proof.
  eexists.
  match goal with
  | |- exists v, ?n = Ok ?e /\ _ =>
      destruct (new_Expression_sums_distinct_variables
                  (set_value x 5 (set_value y 7 initial_values))
                  [Expression.IArray
                     [Expression.INumber 2; Expression.IVariable x];
                   Expression.INumber 3; Expression.IVariable y] e eq_refl)
        as (_ & V)
  end.
  - repeat constructor; simpl; intuition discriminate.
  - destruct (V eq_refl) as (v & Hv & Ev).
    exists v. split; [reflexivity|]. split; [exact Hv|].
    rewrite Ev. reflexivity.
Defined.

(** *** [plus], [minus], [multiply], [divide] and the constructor of
    [Constraint] *)

(** What [plus] and its like are called on: a variable or an expression. *)
Definition receiver (item : Expression.Item) : bool :=
  match item with
  | Expression.IVariable _ | Expression.IExpression _ => true
  | _ => false
  end.

(** What [plus] and [minus] are given: a number, a variable or an
    expression. *)
Definition operand (item : Expression.Item) : bool :=
  match item with
  | Expression.INumber _ | Expression.IVariable _ | Expression.IExpression _ =>
      true
  | _ => false
  end.

Lemma term_ids_scaled (value : number) (l : list (Var.t * number)) :
  term_ids (scaled value l) = term_ids l.
Proof.
  unfold term_ids, scaled. rewrite List.map_map. reflexivity.
Qed.

Lemma new_Expression_runs (st : values) (args : list Expression.Item) :
  Forall (fun item => argument_error item = None) args ->
  NoDup (term_ids (flat_map argument_terms args)) ->
  exists e,
    Expression.new args = Ok e
    /\ linear st e == fold_right Qplus 0 (List.map (argument_value st) args).
Proof.
  intros Hok Hnd.
  destruct (parseArgs_from_ok args Hok 0 []) as (e & E & _).
  exists e. split; [exact E|].
  exact (new_Expression_linear st args e E Hnd).
Qed.

Lemma NoDup_term_ids_left (l1 l2 : list (Var.t * number)) :
  NoDup (term_ids (l1 ++ l2)) -> NoDup (term_ids l1).
Proof.
  unfold term_ids. rewrite List.map_app. intro H.
  exact (NoDup_app_remove_r _ _ H).
Qed.

Lemma term_ids_app (l1 l2 : list (Var.t * number)) :
  term_ids (l1 ++ l2) = term_ids l1 ++ term_ids l2.
Proof. unfold term_ids. apply List.map_app. Qed.

Lemma minus_runs (st : values) (this value : Expression.Item) :
  receiver this = true -> operand value = true ->
  NoDup (term_ids (argument_terms this ++ argument_terms value)) ->
  exists e,
    Expression.minus this value = Ok e
    /\ linear st e == argument_value st this - argument_value st value.
Proof.
  intros Hthis Hvalue Hnd. unfold Expression.minus.
  rewrite term_ids_app in Hnd.
  destruct this as [|v|e0| |]; try discriminate Hthis;
    destruct value as [n|w|f0| |]; try discriminate Hvalue;
    match goal with
    | |- exists e, Expression.new ?args = Ok e /\ _ =>
        assert (Hok : Forall (fun item => argument_error item = None) args)
          by (repeat (apply Forall_cons; [reflexivity|]); apply Forall_nil);
        assert (Hnd' : NoDup (term_ids (flat_map argument_terms args)))
          by (cbn [flat_map argument_terms] in *;
              rewrite ?term_ids_app, ?term_ids_scaled in *;
              cbn [term_ids List.map fst snd app] in *;
              rewrite ?app_nil_r in *; exact Hnd);
        destruct (new_Expression_runs st args Hok Hnd') as (e & E & L);
        exists e; split; [exact E|]; rewrite L; simpl; ring
    end.
Qed.

(** With operands that share no variable, [plus], [minus], [multiply] and
    [divide] return an expression that stands for the sum, the difference,
    the product and the quotient. *)
Theorem Expression_arithmetic_on_distinct_variables (st : values)
  (this value : Expression.Item) (coefficient : number) :
  receiver this = true -> operand value = true ->
  NoDup (term_ids (argument_terms this ++ argument_terms value)) ->
  (exists e, Expression.plus this value = Ok e
             /\ linear st e
                == argument_value st this + argument_value st value)
  /\ (exists e, Expression.minus this value = Ok e
                /\ linear st e
                   == argument_value st this - argument_value st value)
  /\ (exists e, Expression.multiply this coefficient = Ok e
                /\ linear st e == argument_value st this * coefficient)
  /\ (~ coefficient == 0 ->
      exists e, Expression.divide this coefficient = Ok e
                /\ linear st e == argument_value st this / coefficient).
Proof.
  intros Hthis Hvalue Hnd.
  pose proof (NoDup_term_ids_left _ _ Hnd) as Hnd1.
  split; [|split; [exact (minus_runs st this value Hthis Hvalue Hnd)|split]].
  - unfold Expression.plus.
    assert (Hok : Forall (fun item => argument_error item = None)
                    [this; value]).
    { destruct this; try discriminate Hthis;
        destruct value; try discriminate Hvalue;
        repeat (apply Forall_cons; [reflexivity|]); apply Forall_nil. }
    assert (Hnd' : NoDup (term_ids (flat_map argument_terms [this; value]))).
    { cbn [flat_map]. now rewrite app_nil_r. }
    destruct (new_Expression_runs st [this; value] Hok Hnd') as (e & E & L).
    exists e. split; [exact E|]. rewrite L. simpl. ring.
  - unfold Expression.multiply.
    set (args := [Expression.IArray [Expression.INumber coefficient; this]]).
    assert (Hok : Forall (fun item => argument_error item = None) args).
    { subst args. destruct this; try discriminate Hthis;
        repeat (apply Forall_cons; [reflexivity|]); apply Forall_nil. }
    assert (Hnd' : NoDup (term_ids (flat_map argument_terms args))).
    { subst args. cbn [flat_map]. rewrite app_nil_r.
      destruct this; try discriminate Hthis; cbn [argument_terms] in *;
        [exact Hnd1|now rewrite term_ids_scaled]. }
    destruct (new_Expression_runs st args Hok Hnd') as (e & E & L).
    exists e. split; [exact E|]. rewrite L. subst args.
    destruct this; try discriminate Hthis; simpl; ring.
  - intros _. unfold Expression.divide.
    set (args := [Expression.IArray
                    [Expression.INumber (1 / coefficient); this]]).
    assert (Hok : Forall (fun item => argument_error item = None) args).
    { subst args. destruct this; try discriminate Hthis;
        repeat (apply Forall_cons; [reflexivity|]); apply Forall_nil. }
    assert (Hnd' : NoDup (term_ids (flat_map argument_terms args))).
    { subst args. cbn [flat_map]. rewrite app_nil_r.
      destruct this; try discriminate Hthis; cbn [argument_terms] in *;
        [exact Hnd1|now rewrite term_ids_scaled]. }
    destruct (new_Expression_runs st args Hok Hnd') as (e & E & L).
    exists e. split; [exact E|]. rewrite L. subst args.
    destruct this; try discriminate Hthis; simpl; unfold Qdiv; ring.
Qed.

Lemma Expression_arithmetic_on_distinct_variables_witness :
  let st := set_value x 5 (set_value y 7 initial_values) in
  let two_y_plus_3 := Expression.IExpression (Expression.mk [(y, 2)] 3) in
  (exists e, Expression.plus (Expression.IVariable x) two_y_plus_3 = Ok e
             /\ linear st e == 22)
  /\ (exists e, Expression.minus (Expression.IVariable x) two_y_plus_3 = Ok e
                /\ linear st e == -12)
  /\ (exists e, Expression.multiply (Expression.IVariable x) 4 = Ok e
                /\ linear st e == 20)
  /\ (exists e, Expression.divide (Expression.IVariable x) 4 = Ok e
                /\ linear st e == 5 / 4).
Proof.
  intros st two_y_plus_3.
  assert (Hnd : NoDup (term_ids (argument_terms (Expression.IVariable x)
                                 ++ argument_terms two_y_plus_3))).
  { repeat constructor; simpl; intuition discriminate. }
  destruct (Expression_arithmetic_on_distinct_variables st
              (Expression.IVariable x) two_y_plus_3 4 eq_refl eq_refl Hnd)
    as ((e1 & E1 & L1) & (e2 & E2 & L2) & (e3 & E3 & L3) & D).
  destruct D as (e4 & E4 & L4); [discriminate|].
  split; [exists e1; split; [exact E1|rewrite L1; reflexivity]|].
  split; [exists e2; split; [exact E2|rewrite L2; reflexivity]|].
  split; [exists e3; split; [exact E3|rewrite L3; reflexivity]|].
  exists e4. split; [exact E4|rewrite L4; reflexivity].
Defined.

(** *** The constructor of [Constraint] *)

Lemma clip_range (value : number) :
  0 <= Strength.clip value <= Strength.required.
Proof.
  unfold Strength.clip. split.
  - apply Q.le_max_l.
  - apply Q.max_lub; [discriminate|apply Q.le_min_l].
Qed.

(** [Strength.clip] by the position of its argument: each case is stated
    under a comparison that holds of the argument, so none speaks of an
    argument that compares with nothing. *)
Lemma clip_cases (value : number) :
  (value <= 0 -> Strength.clip value == 0)
  /\ (0 <= value <= Strength.required -> Strength.clip value == value)
  /\ (Strength.required <= value -> Strength.clip value == Strength.required).
Proof.
  split; [|split; [apply clip_fixes_range|]]; unfold Strength.clip; intro H.
  - apply Q.max_l. eapply Qle_trans; [apply Q.le_min_r|exact H].
  - rewrite (Q.min_l _ _ H). apply Q.max_r. discriminate.
Qed.

(** [new Constraint(lhs, operator, rhs, strength)], for a variable or
    expression [lhs] and a number, variable or expression [rhs] that share no
    variable: the expression of the constraint stands for [lhs - rhs], the
    operator is the given one, and the strength stored is
    [Strength.clip(strength)]: 0 for a strength of 0 or less, the strength
    itself between 0 and [required], [required] for a strength of [required]
    or more.  With no [rhs], an expression [lhs] is taken as it is and a
    variable [lhs] makes the constructor throw; an [lhs] that is neither has
    no [minus] method. *)
Theorem Constraint_new_stands_for_lhs_minus_rhs (st : values) (cnId : Z)
  (lhs : Expression.Item) (operator : Operator) (strength : number) :
  (forall rhs : Expression.Item,
     receiver lhs = true -> operand rhs = true ->
     NoDup (term_ids (argument_terms lhs ++ argument_terms rhs)) ->
     exists cn,
       Constraint.new cnId lhs operator (Some rhs) strength = Ok cn
       /\ linear st (Constraint.expression cn)
          == argument_value st lhs - argument_value st rhs
       /\ Constraint.operator cn = operator
       /\ Constraint.id cn = cnId
       /\ Constraint.strength cn = Strength.clip strength
       /\ (strength <= 0 -> Constraint.strength cn == 0)
       /\ (0 <= strength <= Strength.required ->
           Constraint.strength cn == strength)
       /\ (Strength.required <= strength ->
           Constraint.strength cn == Strength.required))
  /\ (forall e, lhs = Expression.IExpression e ->
        Constraint.new cnId lhs operator None strength
        = Ok (Constraint.mk e operator (Strength.clip strength) cnId))
  /\ (forall v, lhs = Expression.IVariable v ->
        Constraint.new cnId lhs operator None strength = Err ArrayItem1)
  /\ (receiver lhs = false ->
      forall rhs, Constraint.new cnId lhs operator rhs strength = Err TypeError).
Proof.
  split; [|split; [|split]].
  - intros rhs Hlhs Hrhs Hnd.
    destruct (minus_runs st lhs rhs Hlhs Hrhs Hnd) as (e & E & L).
    exists (Constraint.mk e operator (Strength.clip strength) cnId).
    split.
    + unfold Constraint.new.
      destruct lhs; try discriminate Hlhs; now rewrite E.
    + split; [exact L|]. split; [reflexivity|]. split; [reflexivity|].
      split; [reflexivity|]. apply clip_cases.
  - intros e ->. reflexivity.
  - intros v ->. reflexivity.
  - intros Hlhs rhs. unfold Constraint.new.
    destruct lhs; try discriminate Hlhs; destruct rhs; reflexivity.
Qed.

Lemma Constraint_new_stands_for_lhs_minus_rhs_witness :
  let st := set_value x 5 (set_value y 7 initial_values) in
  exists cn,
    Constraint.new 0 (Expression.IVariable x) Le
      (Some (Expression.IExpression (Expression.mk [(y, 2)] 3)))
      (Strength.required + 1)
    = Ok cn
    /\ linear st (Constraint.expression cn) == -12
    /\ Constraint.strength cn == Strength.required.
Proof.
  intro st.
  destruct (proj1 (Constraint_new_stands_for_lhs_minus_rhs st 0
                     (Expression.IVariable x) Le (Strength.required + 1))
              (Expression.IExpression (Expression.mk [(y, 2)] 3))
              eq_refl eq_refl)
    as (cn & E & L & _ & _ & _ & _ & _ & S).
  - repeat constructor; simpl; intuition discriminate.
  - exists cn. split; [exact E|]. split; [rewrite L; reflexivity|].
    apply S. discriminate.
Defined.

(** ** Strengths *)

Lemma clamp_range (v : Q) : 0 <= Qmax 0 (Qmin 1000 v) <= 1000.
Proof.
  split.
  - apply Q.le_max_l.
  - apply Q.max_lub; [discriminate|apply Q.le_min_l].
Qed.

Lemma create_range (a b c w : Q) :
  0 <= Strength.create a b c w <= Strength.required.
Proof.
  rewrite required_value. unfold Strength.create.
  pose proof (clamp_range (a * w)) as Ha.
  pose proof (clamp_range (b * w)) as Hb.
  pose proof (clamp_range (c * w)) as Hc.
  set (A := Qmax 0 (Qmin 1000 (a * w))) in *.
  set (B := Qmax 0 (Qmin 1000 (b * w))) in *.
  set (C := Qmax 0 (Qmin 1000 (c * w))) in *.
  cbv zeta. split; lra.
Qed.

Lemma create_lexicographic (a b c a' b' c' : number) :
  0 <= a <= 1000 -> 0 <= b <= 999 -> 0 <= c <= 999 ->
  0 <= a' <= 1000 -> 0 <= b' <= 1000 -> 0 <= c' <= 1000 ->
  (a + 1 <= a' -> Strength.create a b c 1 < Strength.create a' b' c' 1)
  /\ (a == a' -> b + 1 <= b' ->
      Strength.create a b c 1 < Strength.create a' b' c' 1)
  /\ (a == a' -> b == b' -> c < c' ->
      Strength.create a b c 1 < Strength.create a' b' c' 1).
Proof.
  intros Ha Hb Hc Ha' Hb' Hc'.
  assert (Hb1 : 0 <= b <= 1000) by (destruct Hb; split; lra).
  assert (Hc1 : 0 <= c <= 1000) by (destruct Hc; split; lra).
  rewrite (create_unit_weight a b c Ha Hb1 Hc1).
  rewrite (create_unit_weight a' b' c' Ha' Hb' Hc').
  destruct Ha, Hb, Hc, Ha', Hb', Hc'.
  repeat split; intros; lra.
Qed.

(** The clamp [Math.max(0.0, Math.min(1000.0, z * 1.0))] of a whole number
    is the whole number clamped. *)
Lemma clamp_of_whole (z : Z) :
  Qmax 0 (Qmin 1000 (inject_Z z * 1)) == inject_Z (Z.max 0 (Z.min 1000 z)).
Proof.
  assert (E : inject_Z z * 1 == inject_Z z) by ring.
  rewrite E.
  destruct (Z_le_gt_dec z 0) as [Hneg|Hpos].
  - replace (Z.max 0 (Z.min 1000 z)) with 0%Z by lia.
    apply Q.max_l. eapply Qle_trans; [apply Q.le_min_r|].
    change 0 with (inject_Z 0). rewrite <- Zle_Qle. exact Hneg.
  - destruct (Z_le_gt_dec z 1000) as [Hin|Hout].
    + replace (Z.max 0 (Z.min 1000 z)) with z by lia.
      rewrite Q.min_r
        by (change 1000 with (inject_Z 1000); rewrite <- Zle_Qle; exact Hin).
      apply Q.max_r. change 0 with (inject_Z 0). rewrite <- Zle_Qle. lia.
    + replace (Z.max 0 (Z.min 1000 z)) with 1000%Z by lia.
      rewrite Q.min_l
        by (change 1000 with (inject_Z 1000); rewrite <- Zle_Qle; lia).
      apply Q.max_r. discriminate.
Qed.

Lemma create_of_whole (a b c : Z) :
  Strength.create (inject_Z a) (inject_Z b) (inject_Z c) 1
  == inject_Z (Z.max 0 (Z.min 1000 a) * 1000000
               + Z.max 0 (Z.min 1000 b) * 1000
               + Z.max 0 (Z.min 1000 c)).
Proof.
  unfold Strength.create.
  rewrite !clamp_of_whole, <- inject_Z_combination. ring.
Qed.

Lemma create_whole_lexicographic (a b c a' b' c' : Z) :
  (0 <= a <= 1000)%Z -> (0 <= b <= 999)%Z -> (0 <= c <= 999)%Z ->
  (0 <= a' <= 1000)%Z -> (0 <= b' <= 1000)%Z -> (0 <= c' <= 1000)%Z ->
  ((a < a')%Z ->
   Strength.create (inject_Z a) (inject_Z b) (inject_Z c) 1
   < Strength.create (inject_Z a') (inject_Z b') (inject_Z c') 1)
  /\ (a = a' -> (b < b')%Z ->
      Strength.create (inject_Z a) (inject_Z b) (inject_Z c) 1
      < Strength.create (inject_Z a') (inject_Z b') (inject_Z c') 1)
  /\ (a = a' -> b = b' -> (c < c')%Z ->
      Strength.create (inject_Z a) (inject_Z b) (inject_Z c) 1
      < Strength.create (inject_Z a') (inject_Z b') (inject_Z c') 1).
Proof.
  intros Ha Hb Hc Ha' Hb' Hc'.
  destruct (create_lexicographic (inject_Z a) (inject_Z b) (inject_Z c)
              (inject_Z a') (inject_Z b') (inject_Z c'))
    as (L1 & L2 & L3);
    try (apply (inject_Z_range 0 1000); assumption);
    try (apply (inject_Z_range 0 999); assumption).
  assert (Hs : forall u v : Z, (u < v)%Z -> inject_Z u + 1 <= inject_Z v).
  { intros u v Huv. change 1 with (inject_Z 1).
    rewrite <- inject_Z_plus, <- Zle_Qle. lia. }
  split; [|split].
  - intro Hlt. apply L1, Hs, Hlt.
  - intros -> Hlt. apply L2; [reflexivity|apply Hs, Hlt].
  - intros -> -> Hlt. apply L3; try reflexivity.
    rewrite <- Zlt_Qlt. exact Hlt.
Qed.

(** [Strength.clip] returns 0 for a value of 0 or less, the value itself
    between 0 and [Strength.required], and [required] for a value of
    [required] or more.  For whole-number components and the default weight
    1, [Strength.create] clamps each component into 0..1000 and returns
    1000000 times the strong one plus 1000 times the medium one plus the weak
    one: a strength between 0 and [required], which [clip] leaves alone.
    With components between 0 and 1000 this sum orders strengths by their
    strong component first, then the medium one, then the weak one, as long
    as the lower components of the smaller strength stay below 1000; and the
    four named strengths go up. *)
Theorem Strength_create_and_clip (a b c a' b' c' : Z) (value : number) :
  ((value <= 0 -> Strength.clip value == 0)
   /\ (0 <= value <= Strength.required -> Strength.clip value == value)
   /\ (Strength.required <= value ->
       Strength.clip value == Strength.required))
  /\ (Strength.create (inject_Z a) (inject_Z b) (inject_Z c) 1
      == inject_Z (Z.max 0 (Z.min 1000 a) * 1000000
                   + Z.max 0 (Z.min 1000 b) * 1000
                   + Z.max 0 (Z.min 1000 c))
      /\ 0 <= Strength.create (inject_Z a) (inject_Z b) (inject_Z c) 1
         <= Strength.required
      /\ Strength.clip
           (Strength.create (inject_Z a) (inject_Z b) (inject_Z c) 1)
         == Strength.create (inject_Z a) (inject_Z b) (inject_Z c) 1)
  /\ ((0 <= a <= 1000)%Z -> (0 <= b <= 999)%Z -> (0 <= c <= 999)%Z ->
      (0 <= a' <= 1000)%Z -> (0 <= b' <= 1000)%Z -> (0 <= c' <= 1000)%Z ->
      ((a < a')%Z ->
       Strength.create (inject_Z a) (inject_Z b) (inject_Z c) 1
       < Strength.create (inject_Z a') (inject_Z b') (inject_Z c') 1)
      /\ (a = a' -> (b < b')%Z ->
          Strength.create (inject_Z a) (inject_Z b) (inject_Z c) 1
          < Strength.create (inject_Z a') (inject_Z b') (inject_Z c') 1)
      /\ (a = a' -> b = b' -> (c < c')%Z ->
          Strength.create (inject_Z a) (inject_Z b) (inject_Z c) 1
          < Strength.create (inject_Z a') (inject_Z b') (inject_Z c') 1))
  /\ Strength.weak < Strength.medium
  /\ Strength.medium < Strength.strong
  /\ Strength.strong < Strength.required.
Proof.
  split; [apply clip_cases|].
  split.
  { split; [apply create_of_whole|].
    split; [apply create_range|apply clip_fixes_range, create_range]. }
  split; [apply create_whole_lexicographic|].
  repeat split.
Qed.

Lemma Strength_create_and_clip_witness :
  Strength.create 1 0 0 1 < Strength.create 2 0 0 1
  /\ Strength.create 0 999 999 1 < Strength.create 1 0 0 1
  /\ Strength.create 5 7 9 1 < Strength.create 5 8 0 1
  /\ Strength.create 5 7 8 1 < Strength.create 5 7 9 1
  /\ Strength.create (-4) 2000 3 1 == 1000003
  /\ Strength.clip (-3) == 0
  /\ Strength.clip (Strength.required + 1) == Strength.required.
Proof.
  split; [|split; [|split; [|split; [|split; [|split]]]]].
  - apply (proj1 (proj1 (proj2 (proj2 (Strength_create_and_clip 1 0 0 2 0 0 0)))
                    ltac:(lia) ltac:(lia) ltac:(lia)
                    ltac:(lia) ltac:(lia) ltac:(lia))).
    reflexivity.
  - apply (proj1 (proj1 (proj2 (proj2
                    (Strength_create_and_clip 0 999 999 1 0 0 0)))
                    ltac:(lia) ltac:(lia) ltac:(lia)
                    ltac:(lia) ltac:(lia) ltac:(lia))).
    reflexivity.
  - apply (proj1 (proj2 (proj1 (proj2 (proj2
                    (Strength_create_and_clip 5 7 9 5 8 0 0)))
                    ltac:(lia) ltac:(lia) ltac:(lia)
                    ltac:(lia) ltac:(lia) ltac:(lia)))).
    + reflexivity.
    + reflexivity.
  - apply (proj2 (proj2 (proj1 (proj2 (proj2
                    (Strength_create_and_clip 5 7 8 5 7 9 0)))
                    ltac:(lia) ltac:(lia) ltac:(lia)
                    ltac:(lia) ltac:(lia) ltac:(lia)))).
    + reflexivity.
    + reflexivity.
    + reflexivity.
  - apply (proj1 (proj1 (proj2
                    (Strength_create_and_clip (-4) 2000 3 0 0 0 0)))).
  - apply (proj1 (proj1 (Strength_create_and_clip 0 0 0 0 0 0 (-3)))).
    discriminate.
  - apply (proj2 (proj2 (proj1
             (Strength_create_and_clip 0 0 0 0 0 0 (Strength.required + 1))))).
    discriminate.
Defined.

(** ** Rows as linear forms *)

(** The sum over the cells of coefficient times the value of the symbol;
    [val] gives the value of a symbol by its id. *)
Definition cellsSum (val : Z -> number) (cells : IMap.t ISymbol.t number)
  : number :=
  fold_right Qplus 0
    (List.map (fun cell => snd cell * val (ISymbol.id (fst cell))) cells).

(** The linear form a row stands for. *)
Definition Row_value (val : Z -> number) (row : RowBase.t) : number :=
  RowBase.constant row + cellsSum val (RowBase.cells row).

Section KeyFacts.
Context {K V : Type} {HK : Keyed K}.

(** [find] looks at the id of the key only. *)
Lemma find_same_id (k k' : K) (m : IMap.t K V) :
  key_id k = key_id k' -> IMap.find k m = IMap.find k' m.
Proof.
  intro E. induction m as [|p m IH]; simpl; [reflexivity|].
  rewrite E, IH. reflexivity.
Qed.



Lemma find_mapValues (f : V -> V) (k : K) (m : IMap.t K V) :
  IMap.find k (IMap.mapValues f m)
  = match IMap.find k m with
    | Some p => Some (fst p, f (snd p))
    | None => None
    end.
Proof.
  unfold IMap.mapValues.
  induction m as [|p m IH]; simpl; [reflexivity|].
  destruct (key_id (fst p) =? key_id k)%Z; [reflexivity|exact IH].
Qed.

Lemma wf_mapValues (f : V -> V) (m : IMap.t K V) :
  IMap_wf m -> IMap_wf (IMap.mapValues f m).
Proof.
  unfold IMap.mapValues. intro Hwf.
  induction m as [|p m IH]; simpl; [constructor|].
  inversion Hwf as [|? ? Hm Hall]; subst.
  constructor; [exact (IH Hm)|].
  clear -Hall. induction m as [|q m IHm]; simpl; [constructor|].
  inversion Hall; subst. constructor; [assumption|now apply IHm].
Qed.

(** Inserting twice at a key the map did not hold is inserting the last
    value. *)
Lemma insert_insert_absent (k : K) (v0 v : V) (m : IMap.t K V) :
  IMap.find k m = None ->
  IMap.insert k v (IMap.insert k v0 m) = IMap.insert k v m.
Proof.
  induction m as [|p m IH]; intro Habs; simpl.
  - now rewrite Z.ltb_irrefl, Z.eqb_refl.
  - simpl in Habs.
    destruct (Z.eqb_spec (key_id (fst p)) (key_id k)) as [E|E];
      [discriminate Habs|].
    destruct (key_id k <? key_id (fst p))%Z eqn:Hlt; simpl.
    + now rewrite Z.ltb_irrefl, Z.eqb_refl.
    + destruct (Z.eqb_spec (key_id k) (key_id (fst p))) as [E'|E'];
        [congruence|].
      simpl. rewrite Hlt.
      destruct (Z.eqb_spec (key_id k) (key_id (fst p))); [congruence|].
      now rewrite (IH Habs).
Qed.

(** Removing a key just inserted into a map that did not hold it gives the
    map back. *)
Lemma remove_insert_absent (k : K) (v : V) (m : IMap.t K V) :
  IMap.find k m = None -> IMap.remove k (IMap.insert k v m) = m.
Proof.
  induction m as [|p m IH]; intro Habs; simpl.
  - now rewrite Z.eqb_refl.
  - simpl in Habs.
    destruct (Z.eqb_spec (key_id (fst p)) (key_id k)) as [E|E];
      [discriminate Habs|].
    destruct (key_id k <? key_id (fst p))%Z; simpl.
    + now rewrite Z.eqb_refl.
    + destruct (Z.eqb_spec (key_id k) (key_id (fst p))) as [E'|E'];
        [congruence|].
      simpl.
      destruct (Z.eqb_spec (key_id (fst p)) (key_id k)); [congruence|].
      now rewrite (IH Habs).
Qed.

Lemma remove_absent (k : K) (m : IMap.t K V) :
  IMap.find k m = None -> IMap.remove k m = m.
Proof.
  induction m as [|p m IH]; intro Habs; simpl; [reflexivity|].
  simpl in Habs.
  destruct (key_id (fst p) =? key_id k)%Z; [discriminate Habs|].
  now rewrite (IH Habs).
Qed.

End KeyFacts.

Lemma cellsSum_mapValues_scale (val : Z -> number) (k : number)
  (cells : IMap.t ISymbol.t number) :
  cellsSum val (IMap.mapValues (fun second => second * k) cells)
  == k * cellsSum val cells.
Proof.
  unfold cellsSum, IMap.mapValues.
  induction cells as [|c cells IH]; simpl; [ring|]. rewrite IH. ring.
Qed.

Lemma cellsSum_mapValues_opp (val : Z -> number)
  (cells : IMap.t ISymbol.t number) :
  cellsSum val (IMap.mapValues Qopp cells) == - cellsSum val cells.
Proof.
  unfold cellsSum, IMap.mapValues.
  induction cells as [|c cells IH]; simpl; [ring|]. rewrite IH. ring.
Qed.

Lemma cellsSum_remove_found (val : Z -> number) (symbol : ISymbol.t)
  (cell : ISymbol.t * number) (cells : IMap.t ISymbol.t number) :
  IMap.find symbol cells = Some cell ->
  cellsSum val cells
  == snd cell * val (ISymbol.id symbol) + cellsSum val (IMap.remove symbol cells).
Proof.
  unfold cellsSum.
  induction cells as [|c cells IH]; simpl; [discriminate|].
  change (key_id (fst c)) with (ISymbol.id (fst c)).
  change (key_id symbol) with (ISymbol.id symbol).
  destruct (Z.eqb_spec (ISymbol.id (fst c)) (ISymbol.id symbol)) as [E|E].
  - intro H. injection H as <-. rewrite E. reflexivity.
  - intro H. simpl. rewrite (IH H). ring.
Qed.

Lemma cellsSum_insert_absent (val : Z -> number) (symbol : ISymbol.t)
  (v : number) (cells : IMap.t ISymbol.t number) :
  IMap.find symbol cells = None ->
  cellsSum val (IMap.insert symbol v cells)
  == cellsSum val cells + v * val (ISymbol.id symbol).
Proof.
  unfold cellsSum.
  induction cells as [|c cells IH]; intro Habs; simpl.
  - ring.
  - simpl in Habs.
    destruct (Z.eqb_spec (key_id (fst c)) (key_id symbol)) as [E|E];
      [discriminate Habs|].
    destruct (key_id symbol <? key_id (fst c))%Z; simpl; [ring|].
    destruct (Z.eqb_spec (key_id symbol) (key_id (fst c))) as [E'|E'];
      [congruence|].
    simpl. rewrite (IH Habs). ring.
Qed.

Lemma Qopp_involutive_eq (q : Q) : - - q = q.
Proof. destruct q as [n d]. unfold Qopp. simpl. now rewrite Z.opp_involutive. Qed.

(** [reverseSign] negates the row: its constant, every coefficient and so
    the linear form; reversing twice gives the row back. *)
Theorem reverseSign_negates_the_row (val : Z -> number) (symbol : ISymbol.t)
  (row : RowBase.t) :
  Row_value val (RowBase.reverseSign row) == - Row_value val row
  /\ RowBase.constant (RowBase.reverseSign row) = - RowBase.constant row
  /\ RowBase.coefficientFor symbol (RowBase.reverseSign row)
     == - RowBase.coefficientFor symbol row
  /\ has symbol (RowBase.reverseSign row) = has symbol row
  /\ RowBase.reverseSign (RowBase.reverseSign row) = row.
Proof.
  unfold Row_value, RowBase.reverseSign, RowBase.coefficientFor, has,
    IMap.contains.
  cbn [RowBase.constant RowBase.cells].
  rewrite cellsSum_mapValues_opp, find_mapValues.
  split; [ring|]. split; [reflexivity|].
  split; [destruct (IMap.find symbol (RowBase.cells row)); simpl; ring|].
  split; [now destruct (IMap.find symbol (RowBase.cells row))|].
  destruct row as [constant cells]. cbn [RowBase.constant RowBase.cells].
  rewrite Qopp_involutive_eq. f_equal.
  unfold IMap.mapValues.
  induction cells as [|c cells IH]; cbn [List.map fst snd]; [reflexivity|].
  rewrite IH, Qopp_involutive_eq. now destruct c.
Qed.

Lemma solveFor_found (val : Z -> number) (symbol : ISymbol.t)
  (row : RowBase.t) (cell : ISymbol.t * number) :
  IMap.find symbol (RowBase.cells row) = Some cell ->
  ~ snd cell == 0 ->
  exists row',
    RowBase.solveFor symbol row = Ok row'
    /\ (Row_value val row == 0
        <-> val (ISymbol.id symbol) == Row_value val row')
    /\ (IMap_wf (RowBase.cells row) ->
        has symbol row' = false /\ IMap_wf (RowBase.cells row')).
Proof.
  unfold RowBase.solveFor, IMap.erase.
  intros Hfind Hnz. rewrite Hfind.
  eexists. split; [reflexivity|]. split.
  - unfold Row_value. cbn [RowBase.constant RowBase.cells].
    rewrite cellsSum_mapValues_scale.
    rewrite (cellsSum_remove_found val symbol cell _ Hfind).
    set (rest := cellsSum val (IMap.remove symbol (RowBase.cells row))).
    set (c := RowBase.constant row). set (a := snd cell) in *.
    set (v := val (ISymbol.id symbol)).
    split; intro H.
    + assert (E : c + rest == - (a * v)) by lra.
      transitivity ((-1 / a) * (c + rest)); [|ring].
      rewrite E. field. exact Hnz.
    + assert (E : a * v == a * (-1 / a) * (c + rest))
        by (rewrite H; ring).
      assert (E2 : a * (-1 / a) == -1) by (field; exact Hnz).
      rewrite E2 in E. lra.
  - intro Hwf. unfold has, IMap.contains. cbn [RowBase.cells].
    rewrite find_mapValues, (find_remove_same symbol _ Hwf).
    split; [reflexivity|]. apply wf_mapValues, wf_remove, Hwf.
Qed.

(** [solveFor(symbol)] throws on a row that does not hold the symbol.  On
    a row that holds it with a coefficient other than zero, it returns a row
    without the symbol such that the old row is zero exactly where the symbol
    equals the new row: the equation [row = 0] solved for the symbol. *)
Theorem solveFor_solves_the_equation (val : Z -> number) (symbol : ISymbol.t)
  (row : RowBase.t) :
  (IMap.find symbol (RowBase.cells row) = None ->
   RowBase.solveFor symbol row = Err TypeError)
  /\ (forall cell,
        IMap.find symbol (RowBase.cells row) = Some cell ->
        ~ snd cell == 0 ->
        exists row',
          RowBase.solveFor symbol row = Ok row'
          /\ (Row_value val row == 0
              <-> val (ISymbol.id symbol) == Row_value val row')
          /\ (IMap_wf (RowBase.cells row) ->
              has symbol row' = false /\ IMap_wf (RowBase.cells row'))).
Proof.
  split.
  - unfold RowBase.solveFor, IMap.erase. intros ->. reflexivity.
  - intros cell. apply solveFor_found.
Qed.

Lemma solveFor_solves_the_equation_witness :
  exists row',
    RowBase.solveFor slack1 (RowBase.mk 6 [(x_sym, 1); (slack1, -2)]) = Ok row'
    /\ has slack1 row' = false
    /\ forall val : Z -> number,
         Row_value val (RowBase.mk 6 [(x_sym, 1); (slack1, -2)]) == 0
         <-> val 1%Z == Row_value val row'.
Proof.
  assert (Hwf : IMap_wf [(x_sym, 1); (slack1, -2)]).
  { repeat constructor. }
  assert (Hnz : ~ -2 == 0) by discriminate.
  eexists. split; [reflexivity|]. split; [reflexivity|].
  intro val.
  destruct (proj2 (solveFor_solves_the_equation val slack1
                     (RowBase.mk 6 [(x_sym, 1); (slack1, -2)]))
              (slack1, -2) eq_refl Hnz) as (row' & E & Heq & _).
  injection E as <-. exact Heq.
Defined.

(** *** [solveForEx] *)

Lemma solveFor_after_insert (val : Z -> number) (lhs rhs : ISymbol.t)
  (c : number) (row : RowBase.t) (cell : ISymbol.t * number) :
  IMap.find lhs (RowBase.cells row) = None ->
  IMap.find rhs (RowBase.cells row) = Some cell ->
  ~ snd cell == 0 -> c == -1 ->
  exists row',
    RowBase.solveFor rhs
      (RowBase.mk (RowBase.constant row) (IMap.insert lhs c (RowBase.cells row)))
    = Ok row'
    /\ (val (ISymbol.id lhs) == Row_value val row
        <-> val (ISymbol.id rhs) == Row_value val row').
Proof.
  intros Hlhs Hrhs Hnz Hc.
  assert (Hne : key_id rhs <> key_id lhs).
  { intro E. rewrite (find_same_id rhs lhs _ E) in Hrhs. congruence. }
  set (row1 := RowBase.mk (RowBase.constant row)
                 (IMap.insert lhs c (RowBase.cells row))).
  assert (Hfind : IMap.find rhs (RowBase.cells row1) = Some cell).
  { subst row1. cbn [RowBase.cells].
    now rewrite (find_insert_other (HK := ISymbol_Keyed) lhs rhs c _ Hne). }
  destruct (solveFor_found val rhs row1 cell Hfind Hnz) as (row' & E & Heq & _).
  exists row'. split; [exact E|].
  rewrite <- Heq. subst row1. unfold Row_value.
  cbn [RowBase.constant RowBase.cells].
  rewrite (cellsSum_insert_absent val lhs c _ Hlhs), Hc.
  split; intro H; lra.
Qed.

(** [solveForEx(lhs, rhs)], in both revisions of the class: for a row that
    does not hold [lhs] and holds [rhs] with a coefficient other than zero,
    the equation [lhs = row] becomes the equation [rhs = row'] with the same
    solutions. *)
Theorem solveForEx_exchanges_the_subject (val : Z -> number)
  (lhs rhs : ISymbol.t) (row : RowBase.t) (cell : ISymbol.t * number) :
  IMap.find lhs (RowBase.cells row) = None ->
  IMap.find rhs (RowBase.cells row) = Some cell ->
  ~ snd cell == 0 ->
  (exists row',
     Row.solveForEx lhs rhs row = Ok row'
     /\ (val (ISymbol.id lhs) == Row_value val row
         <-> val (ISymbol.id rhs) == Row_value val row'))
  /\ (exists row',
        Row2.solveForEx lhs rhs row = Ok row'
        /\ (val (ISymbol.id lhs) == Row_value val row
            <-> val (ISymbol.id rhs) == Row_value val row')).
Proof.
  intros Hlhs Hrhs Hnz. split.
  - unfold Row.solveForEx, RowBase.solveForEx, Row.insertISymbol,
      IMap.setDefault.
    rewrite Hlhs. cbn [snd].
    change (nearZero (-1)) with false. cbv iota.
    apply (solveFor_after_insert val lhs rhs (-1) row cell); auto. reflexivity.
  - unfold Row2.solveForEx, RowBase.solveForEx.
    rewrite Row2_insertISymbol_cases.
    unfold RowBase.coefficientFor. rewrite Hlhs. cbv zeta.
    change (nearZero (0 + -1)) with false. cbv iota.
    rewrite (insert_insert_absent (HK := ISymbol_Keyed) lhs 0 (0 + -1) _ Hlhs).
    apply (solveFor_after_insert val lhs rhs (0 + -1) row cell); auto.
    reflexivity.
Qed.

Lemma solveForEx_exchanges_the_subject_witness :
  exists row',
    Row2.solveForEx slack3 slack1 (RowBase.mk 5 [(slack1, -1)]) = Ok row'
    /\ forall val : Z -> number,
         val 3%Z == Row_value val (RowBase.mk 5 [(slack1, -1)])
         <-> val 1%Z == Row_value val row'.
Proof.
  eexists. split; [reflexivity|].
  intro val.
  assert (Hnz : ~ -1 == 0) by discriminate.
  destruct (proj2 (solveForEx_exchanges_the_subject val slack3 slack1
                     (RowBase.mk 5 [(slack1, -1)]) (slack1, -1)
                     eq_refl eq_refl Hnz)) as (row' & E & Heq).
  injection E as <-. exact Heq.
Defined.

(** *** [insertISymbol], [insertRow] and [substitute], second revision *)

(** The coefficient a row holds for a symbol, if it holds the symbol. *)
Definition cellOf (symbol : ISymbol.t) (row : RowBase.t) : option number :=
  option_map snd (IMap.find symbol (RowBase.cells row)).

Lemma has_cellOf (symbol : ISymbol.t) (row : RowBase.t) :
  has symbol row = match cellOf symbol row with Some _ => true | None => false end.
Proof.
  unfold has, IMap.contains, cellOf.
  now destruct (IMap.find symbol (RowBase.cells row)).
Qed.

Lemma coefficientFor_cellOf (symbol : ISymbol.t) (row : RowBase.t) :
  RowBase.coefficientFor symbol row
  = match cellOf symbol row with Some c => c | None => 0 end.
Proof.
  unfold RowBase.coefficientFor, cellOf.
  now destruct (IMap.find symbol (RowBase.cells row)).
Qed.

Lemma cellOf_same_id (symbol symbol' : ISymbol.t) (row : RowBase.t) :
  ISymbol.id symbol = ISymbol.id symbol' ->
  cellOf symbol row = cellOf symbol' row.
Proof.
  intro E. unfold cellOf.
  now rewrite (find_same_id (HK := ISymbol_Keyed) symbol symbol' _ E).
Qed.

Lemma Row2_insertISymbol_cellOf (symbol : ISymbol.t) (c : number)
  (row : RowBase.t) :
  IMap_wf (RowBase.cells row) ->
  let sum := RowBase.coefficientFor symbol row + c in
  let row' := Row2.insertISymbol symbol c row in
  cellOf symbol row' = (if nearZero sum then None else Some sum)
  /\ (forall other, ISymbol.id other <> ISymbol.id symbol ->
        cellOf other row' = cellOf other row)
  /\ RowBase.constant row' = RowBase.constant row
  /\ IMap_wf (RowBase.cells row').
Proof.
  intros Hwf sum row'. subst row'.
  rewrite Row2_insertISymbol_cases. fold sum.
  set (cells := match IMap.find symbol (RowBase.cells row) with
                | Some _ => RowBase.cells row
                | None => IMap.insert symbol 0 (RowBase.cells row)
                end).
  assert (Hcells : IMap_wf cells).
  { subst cells. destruct (IMap.find symbol (RowBase.cells row));
      [exact Hwf|now apply wf_insert]. }
  assert (Hother : forall other, ISymbol.id other <> ISymbol.id symbol ->
            IMap.find other cells = IMap.find other (RowBase.cells row)).
  { intros other Hne. subst cells.
    destruct (IMap.find symbol (RowBase.cells row)); [reflexivity|].
    exact (find_insert_other (HK := ISymbol_Keyed) symbol other 0 _ Hne). }
  cbv zeta. unfold cellOf.
  destruct (nearZero sum); cbn [RowBase.cells RowBase.constant].
  - rewrite (find_remove_same symbol cells Hcells).
    repeat split; try reflexivity.
    + intros other Hne.
      rewrite (find_remove_other (HK := ISymbol_Keyed) symbol other cells Hne).
      now rewrite (Hother other Hne).
    + now apply wf_remove.
  - destruct (find_insert_same symbol sum cells) as (k' & E).
    rewrite E. repeat split; try reflexivity.
    + intros other Hne.
      rewrite (find_insert_other (HK := ISymbol_Keyed) symbol other sum cells Hne).
      now rewrite (Hother other Hne).
    + now apply wf_insert.
Qed.

(** What a cell becomes when [coefficient] times the cell [cell] of another
    row is added to it. *)
Definition added (coefficient : number) (old : option number)
  (cell : option number) : option number :=
  match cell with
  | None => old
  | Some c =>
      let sum := match old with Some o => o | None => 0 end + c * coefficient in
      if nearZero sum then None else Some sum
  end.

Lemma Row2_insertRow_fold (coefficient : number)
  (cells : IMap.t ISymbol.t number) :
  IMap_wf cells ->
  forall this : RowBase.t,
    IMap_wf (RowBase.cells this) ->
    let row' :=
      fold_left
        (fun this pr => Row2.insertISymbol (fst pr) (snd pr * coefficient) this)
        cells this in
    RowBase.constant row' = RowBase.constant this
    /\ IMap_wf (RowBase.cells row')
    /\ forall symbol,
         cellOf symbol row'
         = added coefficient (cellOf symbol this)
             (option_map snd (IMap.find symbol cells)).
Proof.
  induction cells as [|c cells IH]; intros Hwf this Hthis; cbn [fold_left].
  - repeat split; auto.
  - inversion Hwf as [|? ? Hcells Hall]; subst.
    destruct (Row2_insertISymbol_cellOf (fst c) (snd c * coefficient) this Hthis)
      as (Hsame & Hother & Hconst & Hwf1).
    destruct (IH Hcells _ Hwf1) as (C & W & F).
    split; [now rewrite C|]. split; [exact W|].
    intro symbol. rewrite F. cbn [IMap.find].
    change (key_id (fst c)) with (ISymbol.id (fst c)).
    change (key_id symbol) with (ISymbol.id symbol).
    destruct (Z.eqb_spec (ISymbol.id (fst c)) (ISymbol.id symbol)) as [E|E].
    + rewrite (find_above_head symbol c cells Hall)
        by (change (key_id symbol) with (ISymbol.id symbol);
            change (key_id (fst c)) with (ISymbol.id (fst c)); lia).
      cbn [option_map added].
      rewrite <- (cellOf_same_id (fst c) symbol _ E), Hsame.
      rewrite coefficientFor_cellOf.
      now rewrite (cellOf_same_id (fst c) symbol this E).
    + now rewrite (Hother symbol (fun H => E (eq_sym H))).
Qed.

Lemma Row2_insertRow_cellOf (other : RowBase.t) (coefficient : number)
  (this : RowBase.t) :
  IMap_wf (RowBase.cells this) -> IMap_wf (RowBase.cells other) ->
  let row' := Row2.insertRow other coefficient this in
  RowBase.constant row'
  = RowBase.constant this + RowBase.constant other * coefficient
  /\ IMap_wf (RowBase.cells row')
  /\ forall symbol,
       cellOf symbol row'
       = added coefficient (cellOf symbol this) (cellOf symbol other).
Proof.
  intros Hthis Hother. unfold Row2.insertRow, RowBase.insertRow.
  exact (Row2_insertRow_fold coefficient (RowBase.cells other) Hother
           (RowBase.mk (RowBase.constant this
                        + RowBase.constant other * coefficient)
              (RowBase.cells this)) Hthis).
Qed.

Lemma added_cases (coefficient : number) (symbol : ISymbol.t)
  (this other row' : RowBase.t) :
  cellOf symbol row'
  = added coefficient (cellOf symbol this) (cellOf symbol other) ->
  let sum :=
    RowBase.coefficientFor symbol this
    + RowBase.coefficientFor symbol other * coefficient in
  (has symbol other = false ->
   has symbol row' = has symbol this
   /\ RowBase.coefficientFor symbol row' = RowBase.coefficientFor symbol this)
  /\ (has symbol other = true ->
      has symbol row' = negb (nearZero sum)
      /\ RowBase.coefficientFor symbol row'
         = if nearZero sum then 0 else sum).
Proof.
  intro H. cbv zeta.
  rewrite !has_cellOf, !coefficientFor_cellOf, H.
  destruct (cellOf symbol other) as [c|]; cbn [added].
  - split; [discriminate|]. intros _.
    destruct (nearZero _); split; reflexivity.
  - split; [|discriminate]. intros _. split; reflexivity.
Qed.

(** solver.ts, second revision: [insertRow(other, coefficient)] adds
    [coefficient] times [other] to the row cell by cell.  The constant grows
    by [other.constant * coefficient]; a symbol that [other] does not hold
    keeps its cell; a symbol that [other] holds gets the sum of the two
    coefficients, and its cell is erased exactly when that sum is within
    [eps] of zero. *)
Theorem Row2_insertRow_adds_cell_by_cell (other : RowBase.t)
  (coefficient : number) (this : RowBase.t) :
  IMap_wf (RowBase.cells this) -> IMap_wf (RowBase.cells other) ->
  let row' := Row2.insertRow other coefficient this in
  RowBase.constant row'
  = RowBase.constant this + RowBase.constant other * coefficient
  /\ IMap_wf (RowBase.cells row')
  /\ forall symbol,
       let sum :=
         RowBase.coefficientFor symbol this
         + RowBase.coefficientFor symbol other * coefficient in
       (has symbol other = false ->
        has symbol row' = has symbol this
        /\ RowBase.coefficientFor symbol row'
           = RowBase.coefficientFor symbol this)
       /\ (has symbol other = true ->
           has symbol row' = negb (nearZero sum)
           /\ RowBase.coefficientFor symbol row'
              = if nearZero sum then 0 else sum).
Proof.
  intros Hthis Hother row'.
  destruct (Row2_insertRow_cellOf other coefficient this Hthis Hother)
    as (C & W & F).
  split; [exact C|]. split; [exact W|].
  intro symbol. apply added_cases. apply F.
Qed.

Lemma Row2_insertRow_adds_cell_by_cell_witness :
  let this := RowBase.mk 1 [(x_sym, 2); (slack1, 1)] in
  let other := RowBase.mk 10 [(slack1, -1); (slack3, 4)] in
  let row' := Row2.insertRow other 1 this in
  RowBase.constant row' = 1 + 10 * 1
  /\ has slack1 row' = false
  /\ RowBase.coefficientFor slack3 row' = 0 + 4 * 1
  /\ RowBase.coefficientFor x_sym row' = 2.
Proof.
  intros this other row'.
  assert (Hthis : IMap_wf (RowBase.cells this)).
  { repeat constructor. }
  assert (Hother : IMap_wf (RowBase.cells other)).
  { repeat constructor. }
  destruct (Row2_insertRow_adds_cell_by_cell other 1 this Hthis Hother)
    as (C & _ & F).
  split; [exact C|].
  split; [exact (proj1 (proj2 (F slack1) eq_refl))|].
  split; [exact (proj2 (proj2 (F slack3) eq_refl))|].
  exact (proj2 (proj1 (F x_sym) eq_refl)).
Defined.

(** solver.ts, second revision: [substitute(symbol, row)] with a [row] that
    does not hold the symbol.  A row that does not hold the symbol either is
    left as it is; otherwise the symbol's cell goes and its coefficient times
    [row] is added cell by cell, so that the symbol is gone afterwards. *)
Theorem Row2_substitute_eliminates_the_symbol (symbol : ISymbol.t)
  (row this : RowBase.t) :
  IMap_wf (RowBase.cells this) -> IMap_wf (RowBase.cells row) ->
  has symbol row = false ->
  let this' := Row2.substitute symbol row this in
  let a := RowBase.coefficientFor symbol this in
  has symbol this' = false
  /\ IMap_wf (RowBase.cells this')
  /\ (has symbol this = false -> this' = this)
  /\ (has symbol this = true ->
      RowBase.constant this'
      = RowBase.constant this + RowBase.constant row * a
      /\ forall other,
           ISymbol.id other <> ISymbol.id symbol ->
           let sum :=
             RowBase.coefficientFor other this
             + RowBase.coefficientFor other row * a in
           (has other row = false ->
            has other this' = has other this
            /\ RowBase.coefficientFor other this'
               = RowBase.coefficientFor other this)
           /\ (has other row = true ->
               has other this' = negb (nearZero sum)
               /\ RowBase.coefficientFor other this'
                  = if nearZero sum then 0 else sum)).
Proof.
  intros Hthis Hrow Habsent this' a. subst this' a.
  unfold Row2.substitute, RowBase.substitute, IMap.erase.
  assert (Hhas : has symbol this
                 = match IMap.find symbol (RowBase.cells this) with
                   | Some _ => true
                   | None => false
                   end) by reflexivity.
  rewrite Hhas. clear Hhas.
  destruct (IMap.find symbol (RowBase.cells this)) as [pr|] eqn:Hfind.
  - assert (Ha : RowBase.coefficientFor symbol this = snd pr)
      by (unfold RowBase.coefficientFor; now rewrite Hfind).
    rewrite Ha.
    set (this0 := RowBase.mk (RowBase.constant this)
                    (IMap.remove symbol (RowBase.cells this))).
    assert (Hwf0 : IMap_wf (RowBase.cells this0))
      by (apply wf_remove, Hthis).
    destruct (Row2_insertRow_cellOf row (snd pr) this0 Hwf0 Hrow)
      as (C & W & F).
    fold (Row2.insertRow row (snd pr) this0).
    split; [|split; [exact W|split; [discriminate|]]].
    + rewrite has_cellOf, F.
      rewrite has_cellOf in Habsent.
      destruct (cellOf symbol row); [discriminate Habsent|].
      cbn [added]. unfold cellOf, this0. cbn [RowBase.cells].
      now rewrite (find_remove_same symbol _ Hthis).
    + intros _. split; [exact C|].
      intros other Hne.
      assert (E0 : cellOf other this0 = cellOf other this).
      { unfold cellOf, this0. cbn [RowBase.cells].
        now rewrite (find_remove_other (HK := ISymbol_Keyed) symbol other _ Hne). }
      assert (E1 : RowBase.coefficientFor other this
                   = RowBase.coefficientFor other this0)
        by (now rewrite !coefficientFor_cellOf, E0).
      assert (E2 : has other this = has other this0)
        by (now rewrite !has_cellOf, E0).
      rewrite E1, E2. apply added_cases. apply F.
  - split; [|split; [exact Hthis|split; [reflexivity|discriminate]]].
    unfold has, IMap.contains. now rewrite Hfind.
Qed.

Lemma Row2_substitute_eliminates_the_symbol_witness :
  let this := RowBase.mk 1 [(x_sym, 2); (slack1, 1)] in
  let row := RowBase.mk 10 [(slack1, -2); (slack3, 4)] in
  let this' := Row2.substitute x_sym row this in
  has x_sym this' = false
  /\ RowBase.constant this' = 1 + 10 * 2
  /\ RowBase.coefficientFor slack1 this' = 1 + -2 * 2
  /\ RowBase.coefficientFor slack3 this' = 0 + 4 * 2.
Proof.
  intros this row this'.
  assert (Hthis : IMap_wf (RowBase.cells this)).
  { repeat constructor. }
  assert (Hrow : IMap_wf (RowBase.cells row)).
  { repeat constructor. }
  destruct (Row2_substitute_eliminates_the_symbol x_sym row this Hthis Hrow
              eq_refl) as (H & _ & _ & S).
  destruct (S eq_refl) as (C & F).
  split; [exact H|]. split; [exact C|].
  split.
  - exact (proj2 (proj2 (F slack1 ltac:(discriminate)) eq_refl)).
  - exact (proj2 (proj2 (F slack3 ltac:(discriminate)) eq_refl)).
Defined.

(** *** [insertISymbol] and [insertRow] of row.ts *)

Lemma Row_insertISymbol_constant (symbol : ISymbol.t) (c : number)
  (this : RowBase.t) :
  RowBase.constant (Row.insertISymbol symbol c this) = RowBase.constant this.
Proof.
  unfold Row.insertISymbol.
  destruct (IMap.setDefault symbol c (RowBase.cells this)) as [pr cells].
  now destruct (nearZero (snd pr)).
Qed.

Lemma Row_insertISymbol_other (symbol other : ISymbol.t) (c : number)
  (this : RowBase.t) :
  ISymbol.id other <> ISymbol.id symbol ->
  IMap.find other (RowBase.cells (Row.insertISymbol symbol c this))
  = IMap.find other (RowBase.cells this).
Proof.
  intro Hne. unfold Row.insertISymbol, IMap.setDefault, IMap.erase.
  destruct (IMap.find symbol (RowBase.cells this)) as [p|];
    cbn [snd fst];
    match goal with
    | |- context [nearZero ?v] => destruct (nearZero v)
    end; cbn [RowBase.cells snd];
    rewrite ?(find_remove_other (HK := ISymbol_Keyed) symbol other _ Hne),
      ?(find_insert_other (HK := ISymbol_Keyed) symbol other c _ Hne);
    reflexivity.
Qed.

Lemma Row_insertRow_fold_keeps (symbol : ISymbol.t)
  (cell : ISymbol.t * number) (coefficient : number)
  (cells : IMap.t ISymbol.t number) :
  nearZero (snd cell) = false ->
  forall this : RowBase.t,
    IMap.find symbol (RowBase.cells this) = Some cell ->
    let row' :=
      fold_left
        (fun this pr => Row.insertISymbol (fst pr) (snd pr * coefficient) this)
        cells this in
    IMap.find symbol (RowBase.cells row') = Some cell
    /\ RowBase.constant row' = RowBase.constant this.
Proof.
  intro Hz.
  induction cells as [|c cells IH]; intros this Hfind; cbn [fold_left].
  - split; [exact Hfind|reflexivity].
  - destruct (IH (Row.insertISymbol (fst c) (snd c * coefficient) this))
      as (F & C).
    + destruct (Z.eq_dec (ISymbol.id symbol) (ISymbol.id (fst c))) as [E|E].
      * rewrite (Row_insertISymbol_present (fst c) _ this cell); auto.
        now rewrite <- (find_same_id (HK := ISymbol_Keyed) symbol (fst c) _ E).
      * now rewrite (Row_insertISymbol_other (fst c) symbol _ this E).
    + split; [exact F|]. now rewrite C, Row_insertISymbol_constant.
Qed.

(** row.ts: [insertISymbol(symbol, c)] gives a symbol that the row does not
    hold the coefficient [c] (no cell when [c] is within [eps] of zero), and
    never adds to a cell that the row holds: whatever [c] is, a cell away from
    zero is left as it is, and so it is by [insertRow], whatever the other
    row and the coefficient. *)
Theorem Row_insertISymbol_never_adds_to_a_cell (symbol : ISymbol.t)
  (c : number) (this : RowBase.t) :
  (IMap.find symbol (RowBase.cells this) = None ->
   Row.insertISymbol symbol c this
   = RowBase.mk (RowBase.constant this)
       (if nearZero c then RowBase.cells this
        else IMap.insert symbol c (RowBase.cells this)))
  /\ (forall cell,
        IMap.find symbol (RowBase.cells this) = Some cell ->
        nearZero (snd cell) = false ->
        Row.insertISymbol symbol c this = this
        /\ forall (other : RowBase.t) (coefficient : number),
             IMap.find symbol
               (RowBase.cells (Row.insertRow other coefficient this))
             = Some cell
             /\ RowBase.constant (Row.insertRow other coefficient this)
                = RowBase.constant this + RowBase.constant other * coefficient).
Proof.
  split.
  - intro Habs. unfold Row.insertISymbol, IMap.setDefault, IMap.erase.
    rewrite Habs. cbn [snd].
    destruct (nearZero c); [|reflexivity].
    now rewrite (remove_insert_absent (HK := ISymbol_Keyed) symbol c _ Habs).
  - intros cell Hfind Hz.
    split; [exact (Row_insertISymbol_present symbol c this cell Hfind Hz)|].
    intros other coefficient.
    unfold Row.insertRow, RowBase.insertRow.
    exact (Row_insertRow_fold_keeps symbol cell coefficient
             (RowBase.cells other) Hz
             (RowBase.mk (RowBase.constant this
                          + RowBase.constant other * coefficient)
                (RowBase.cells this)) Hfind).
Qed.

Lemma Row_insertISymbol_never_adds_to_a_cell_witness :
  let this := RowBase.mk 1 [(x_sym, 2)] in
  Row.insertISymbol slack1 3 this = RowBase.mk 1 [(x_sym, 2); (slack1, 3)]
  /\ Row.insertISymbol x_sym 3 this = this
  /\ IMap.find x_sym
       (RowBase.cells (Row.insertRow (RowBase.mk 0 [(x_sym, 5)]) 1 this))
     = Some (x_sym, 2).
Proof.
  intro this.
  split.
  - exact (proj1 (Row_insertISymbol_never_adds_to_a_cell slack1 3 this) eq_refl).
  - destruct (proj2 (Row_insertISymbol_never_adds_to_a_cell x_sym 3 this)
                (x_sym, 2) eq_refl eq_refl) as (H1 & H2).
    split; [exact H1|].
    exact (proj1 (H2 (RowBase.mk 0 [(x_sym, 5)]) 1)).
Defined.

(** ** The searches of the solver *)

Section FirstMatch.
Context {A : Type}.
Variable test : A -> bool.

(** Where [List.find] stops. *)
Lemma find_first (l : list A) :
  match List.find test l with
  | Some a =>
      exists before after,
        l = before ++ a :: after /\ test a = true
        /\ forall b, In b before -> test b = false
  | None => forall b, In b l -> test b = false
  end.
Proof.
  induction l as [|a l IH]; simpl; [intros b []|].
  destruct (test a) eqn:Ha.
  - exists [], l. repeat split; auto. intros b [].
  - destruct (List.find test l) as [a'|].
    + destruct IH as (before & after & E & Ht & Hb).
      exists (a :: before), after. rewrite E. repeat split; auto.
      intros b [<-|Hin]; auto.
    + intros b [<-|Hin]; auto.
Qed.

End FirstMatch.

(** The test of the loop of [_getEnteringISymbol]. *)
Definition entering_candidate (cell : ISymbol.t * number) : bool :=
  Qlt_bool (snd cell) 0 && negb (ISymbolType_eqb (ISymbol.type (fst cell)) Dummy).

Lemma ISymbolType_eqb_eq (a b : ISymbolType) :
  ISymbolType_eqb a b = true <-> a = b.
Proof. destruct a, b; simpl; split; congruence. Qed.

Lemma entering_candidate_iff (cell : ISymbol.t * number) :
  entering_candidate cell = false
  <-> (snd cell < 0 -> ISymbol.type (fst cell) = Dummy).
Proof.
  unfold entering_candidate.
  destruct (Qlt_bool (snd cell) 0) eqn:Hlt; simpl.
  - apply Qlt_bool_iff in Hlt. rewrite negb_false_iff, ISymbolType_eqb_eq.
    split; auto.
  - apply Qlt_bool_false_iff in Hlt. split; [|reflexivity].
    intros _ H. exfalso. apply (Qlt_not_le _ _ H Hlt).
Qed.

Lemma _getEnteringISymbol_from_find (cells : IMap.t ISymbol.t number) :
  SolverCore._getEnteringISymbol_from cells
  = match List.find entering_candidate cells with
    | Some cell => fst cell
    | None => INVALID_SYMBOL
    end.
Proof.
  induction cells as [|c cells IH]; simpl; [reflexivity|].
  unfold entering_candidate at 1.
  destruct (Qlt_bool (snd c) 0
            && negb (ISymbolType_eqb (ISymbol.type (fst c)) Dummy));
    [reflexivity|exact IH].
Qed.

(** [_getEnteringISymbol] returns the symbol of the first cell of the
    objective with a negative coefficient and a symbol that is not a dummy,
    and the invalid symbol when the objective has no such cell. *)
Theorem _getEnteringISymbol_first_negative (objective : RowBase.t) :
  let entering := SolverCore._getEnteringISymbol objective in
  (entering = INVALID_SYMBOL
   /\ forall cell, In cell (RowBase.cells objective) ->
        snd cell < 0 -> ISymbol.type (fst cell) = Dummy)
  \/ exists before cell after,
       RowBase.cells objective = before ++ cell :: after
       /\ entering = fst cell
       /\ snd cell < 0 /\ ISymbol.type (fst cell) <> Dummy
       /\ forall earlier, In earlier before ->
            snd earlier < 0 -> ISymbol.type (fst earlier) = Dummy.
Proof.
  unfold SolverCore._getEnteringISymbol.
  rewrite _getEnteringISymbol_from_find.
  pose proof (find_first entering_candidate (RowBase.cells objective)) as H.
  destruct (List.find entering_candidate (RowBase.cells objective)) as [cell|].
  - right. destruct H as (before & after & E & Ht & Hb).
    exists before, cell, after.
    unfold entering_candidate in Ht. apply andb_true_iff in Ht.
    destruct Ht as [Hlt Hd]. apply Qlt_bool_iff in Hlt.
    repeat split; auto.
    + intro Hty. rewrite Hty in Hd. discriminate Hd.
    + intros earlier Hin. apply entering_candidate_iff. now apply Hb.
  - left. split; [reflexivity|].
    intros cell Hin. apply entering_candidate_iff. now apply H.
Qed.

(** *** Searches for the least ratio *)

Section LeastRatio.
Context {B : Type}.
Variable candidate : ISymbol.t * B -> bool.
Variable ratio : ISymbol.t * B -> Q.

(** One turn of a search for the first entry of the least ratio: the entry
    replaces the one found so far when it is a candidate whose ratio is
    strictly below. *)
Definition take_least (acc : Q * ISymbol.t) (pr : ISymbol.t * B)
  : Q * ISymbol.t :=
  if candidate pr && Qlt_bool (ratio pr) (fst acc) then (ratio pr, fst pr)
  else acc.

Lemma below_or_none (l : list (ISymbol.t * B)) (bound : Q) :
  (exists pr, In pr l /\ candidate pr = true /\ ratio pr < bound)
  \/ (forall pr, In pr l -> candidate pr = true -> bound <= ratio pr).
Proof.
  induction l as [|p l IH].
  - right. intros pr [].
  - destruct IH as [(pr & Hin & Hc & Hlt)|Hnone].
    + left. exists pr. repeat split; auto. now right.
    + destruct (candidate p) eqn:Hc.
      * destruct (Qlt_le_dec (ratio p) bound) as [Hlt|Hle].
        -- left. exists p. repeat split; auto. now left.
        -- right. intros pr [<-|Hin] Hcp; auto.
      * right. intros pr [<-|Hin] Hcp; [congruence|auto].
Qed.

Lemma least_scan (l : list (ISymbol.t * B)) :
  forall acc : Q * ISymbol.t,
    let res := fold_left take_least l acc in
    ((forall pr, In pr l -> candidate pr = true -> fst acc <= ratio pr) ->
     res = acc)
    /\ ((exists pr, In pr l /\ candidate pr = true /\ ratio pr < fst acc) ->
        exists before pr after,
          l = before ++ pr :: after
          /\ candidate pr = true
          /\ res = (ratio pr, fst pr)
          /\ ratio pr < fst acc
          /\ (forall q, In q before -> candidate q = true -> ratio pr < ratio q)
          /\ (forall q, In q after -> candidate q = true -> ratio pr <= ratio q)).
Proof.
  induction l as [|p l IH]; intro acc; cbn [fold_left].
  - split; [reflexivity|]. intros (pr & [] & _).
  - destruct (candidate p && Qlt_bool (ratio p) (fst acc)) eqn:Hstep.
    + assert (Estep : take_least acc p = (ratio p, fst p))
        by (unfold take_least; now rewrite Hstep).
      rewrite Estep.
      destruct (IH (ratio p, fst p)) as [IHnone IHsome].
      cbn [fst] in IHnone, IHsome.
      apply andb_true_iff in Hstep. destruct Hstep as [Hc Hlt].
      apply Qlt_bool_iff in Hlt.
      split.
      * intro Hnone. exfalso.
        apply (Qlt_not_le _ _ Hlt). apply Hnone; [now left|exact Hc].
      * intros _.
        destruct (below_or_none l (ratio p)) as [Hex|Hnone].
        -- destruct (IHsome Hex)
             as (before & pr & after & E & Hcp & R & Hlt' & Hb & Ha).
           exists (p :: before), pr, after.
           split; [now rewrite E|]. split; [exact Hcp|].
           split; [exact R|].
           split; [eapply Qlt_trans; eassumption|].
           split; [|exact Ha].
           intros q [<-|Hin] Hcq; [exact Hlt'|now apply Hb].
        -- exists [], p, l.
           split; [reflexivity|]. split; [exact Hc|].
           split; [exact (IHnone Hnone)|].
           split; [exact Hlt|].
           split; [intros q []|exact Hnone].
    + assert (Estep : take_least acc p = acc)
        by (unfold take_least; now rewrite Hstep).
      rewrite Estep.
      destruct (IH acc) as [IHnone IHsome].
      split.
      * intro Hnone. apply IHnone.
        intros pr Hin Hc. apply Hnone; [now right|exact Hc].
      * intros (pr0 & Hin0 & Hc0 & Hlt0).
        assert (Hp : candidate p = true -> fst acc <= ratio p).
        { intro Hc. rewrite Hc in Hstep. cbn [andb] in Hstep.
          now apply Qlt_bool_false_iff in Hstep. }
        destruct Hin0 as [<-|Hin0].
        -- exfalso. apply (Qlt_not_le _ _ Hlt0). now apply Hp.
        -- destruct (IHsome (ex_intro _ pr0 (conj Hin0 (conj Hc0 Hlt0))))
             as (before & pr & after & E & Hcp & R & Hlt' & Hb & Ha).
           exists (p :: before), pr, after.
           split; [now rewrite E|]. split; [exact Hcp|].
           split; [exact R|]. split; [exact Hlt'|].
           split; [|exact Ha].
           intros q [<-|Hin] Hcq; [|now apply Hb].
           eapply Qlt_le_trans; [exact Hlt'|now apply Hp].
Qed.

End LeastRatio.

(** The rows [_getLeavingISymbol] considers: a basic symbol that is not
    external and a negative coefficient for the entering symbol. *)
Definition leaving_candidate (entering : ISymbol.t)
  (pr : ISymbol.t * RowBase.t) : bool :=
  negb (ISymbolType_eqb (ISymbol.type (fst pr)) External)
  && Qlt_bool (RowBase.coefficientFor entering (snd pr)) 0.

(** The ratio [-row.constant / temp] of such a row. *)
Definition leaving_ratio (entering : ISymbol.t) (pr : ISymbol.t * RowBase.t)
  : number :=
  - RowBase.constant (snd pr) / RowBase.coefficientFor entering (snd pr).

Lemma _getLeavingISymbol_from_scan (entering : ISymbol.t)
  (rs : IMap.t ISymbol.t RowBase.t) :
  forall (ratio : number) (found : ISymbol.t),
    SolverCore._getLeavingISymbol_from entering rs ratio found
    = snd (fold_left
             (take_least (leaving_candidate entering) (leaving_ratio entering))
             rs (ratio, found)).
Proof.
  induction rs as [|pr rs IH]; intros ratio found; [reflexivity|].
  cbn [SolverCore._getLeavingISymbol_from fold_left].
  unfold take_least at 2, leaving_candidate at 2. cbn [fst].
  destruct (negb (ISymbolType_eqb (ISymbol.type (fst pr)) External));
    cbn [andb]; [|apply IH].
  destruct (Qlt_bool (RowBase.coefficientFor entering (snd pr)) 0);
    cbn [andb]; [|apply IH].
  fold (leaving_ratio entering pr).
  destruct (Qlt_bool (leaving_ratio entering pr) ratio); apply IH.
Qed.

(** [_getLeavingISymbol(entering)] is the ratio test of the simplex method:
    among the rows whose basic symbol is not external and that hold the
    entering symbol with a negative coefficient, it returns the basic symbol
    of the first row with the least ratio [-constant / coefficient] (ratios
    are compared with [Number.MAX_VALUE] first); it returns the invalid
    symbol when no such row has a ratio below [Number.MAX_VALUE], so also
    when there is no such row. *)
Theorem _getLeavingISymbol_first_least_ratio (entering : ISymbol.t)
  (rs : IMap.t ISymbol.t RowBase.t) :
  let leaving := SolverCore._getLeavingISymbol rs entering in
  ((forall pr, In pr rs -> leaving_candidate entering pr = true ->
               MAX_VALUE <= leaving_ratio entering pr) ->
   leaving = INVALID_SYMBOL)
  /\ ((exists pr, In pr rs /\ leaving_candidate entering pr = true
                  /\ leaving_ratio entering pr < MAX_VALUE) ->
      exists before pr after,
        rs = before ++ pr :: after
        /\ leaving = fst pr
        /\ leaving_candidate entering pr = true
        /\ (forall q, In q before -> leaving_candidate entering q = true ->
              leaving_ratio entering pr < leaving_ratio entering q)
        /\ (forall q, In q after -> leaving_candidate entering q = true ->
              leaving_ratio entering pr <= leaving_ratio entering q)).
Proof.
  unfold SolverCore._getLeavingISymbol.
  rewrite _getLeavingISymbol_from_scan.
  destruct (least_scan (leaving_candidate entering) (leaving_ratio entering)
              rs (MAX_VALUE, INVALID_SYMBOL)) as [Hnone Hsome].
  cbn [fst] in Hnone, Hsome. cbv zeta. split.
  - intro H. now rewrite (Hnone H).
  - intro H.
    destruct (Hsome H) as (before & pr & after & E & Hc & R & _ & Hb & Ha).
    exists before, pr, after. rewrite R. repeat split; auto.
Qed.

(** The cells [_getDualEnteringISymbol] considers: a positive coefficient
    and a symbol that is not a dummy. *)
Definition dual_candidate (cell : ISymbol.t * number) : bool :=
  Qlt_bool 0 (snd cell)
  && negb (ISymbolType_eqb (ISymbol.type (fst cell)) Dummy).

(** The ratio [coeff / c] of such a cell: the coefficient of its symbol in
    the objective over its coefficient in the row. *)
Definition dual_ratio (objective : RowBase.t) (cell : ISymbol.t * number)
  : number :=
  RowBase.coefficientFor (fst cell) objective / snd cell.

Lemma _getDualEnteringISymbol_from_scan (objective : RowBase.t)
  (cells : IMap.t ISymbol.t number) :
  forall (ratio : number) (entering : ISymbol.t),
    SolverCore._getDualEnteringISymbol_from objective cells ratio entering
    = snd (fold_left (take_least dual_candidate (dual_ratio objective))
             cells (ratio, entering)).
Proof.
  induction cells as [|c cells IH]; intros ratio entering; [reflexivity|].
  cbn [SolverCore._getDualEnteringISymbol_from fold_left].
  unfold take_least at 2, dual_candidate at 2. cbn [fst].
  destruct (Qlt_bool 0 (snd c)
            && negb (ISymbolType_eqb (ISymbol.type (fst c)) Dummy));
    cbn [andb]; [|apply IH].
  fold (dual_ratio objective c).
  destruct (Qlt_bool (dual_ratio objective c) ratio); apply IH.
Qed.

(** [_getDualEnteringISymbol(row)]: among the cells of the row with a
    positive coefficient and a symbol that is not a dummy, it returns the
    symbol of the first cell with the least ratio of the symbol's coefficient
    in the objective to its coefficient in the row, and the invalid symbol
    when no such cell has a ratio below [Number.MAX_VALUE]. *)
Theorem _getDualEnteringISymbol_first_least_ratio (objective row : RowBase.t) :
  let entering := SolverCore._getDualEnteringISymbol objective row in
  ((forall cell, In cell (RowBase.cells row) -> dual_candidate cell = true ->
                 MAX_VALUE <= dual_ratio objective cell) ->
   entering = INVALID_SYMBOL)
  /\ ((exists cell, In cell (RowBase.cells row) /\ dual_candidate cell = true
                    /\ dual_ratio objective cell < MAX_VALUE) ->
      exists before cell after,
        RowBase.cells row = before ++ cell :: after
        /\ entering = fst cell
        /\ dual_candidate cell = true
        /\ (forall q, In q before -> dual_candidate q = true ->
              dual_ratio objective cell < dual_ratio objective q)
        /\ (forall q, In q after -> dual_candidate q = true ->
              dual_ratio objective cell <= dual_ratio objective q)).
Proof.
  unfold SolverCore._getDualEnteringISymbol.
  rewrite _getDualEnteringISymbol_from_scan.
  destruct (least_scan dual_candidate (dual_ratio objective)
              (RowBase.cells row) (MAX_VALUE, INVALID_SYMBOL))
    as [Hnone Hsome].
  cbn [fst] in Hnone, Hsome. cbv zeta. split.
  - intro H. now rewrite (Hnone H).
  - intro H.
    destruct (Hsome H) as (before & cell & after & E & Hc & R & _ & Hb & Ha).
    exists before, cell, after. rewrite R. repeat split; auto.
Qed.

(** *** The subject of a new row *)

Definition isExternal (cell : ISymbol.t * number) : bool :=
  ISymbolType_eqb (ISymbol.type (fst cell)) External.

Lemma firstExternal_find (cells : IMap.t ISymbol.t number) :
  SolverCore.firstExternal cells = option_map fst (List.find isExternal cells).
Proof.
  induction cells as [|c cells IH]; simpl; [reflexivity|].
  unfold isExternal at 1.
  destruct (ISymbolType_eqb (ISymbol.type (fst c)) External);
    [reflexivity|exact IH].
Qed.

Lemma _anyPivotableISymbol_from_find (cells : IMap.t ISymbol.t number) :
  SolverCore._anyPivotableISymbol_from cells
  = match List.find (fun cell => SolverCore.isPivotable (fst cell)) cells with
    | Some cell => fst cell
    | None => INVALID_SYMBOL
    end.
Proof.
  induction cells as [|c cells IH]; simpl; [reflexivity|].
  destruct (SolverCore.isPivotable (fst c)); [reflexivity|exact IH].
Qed.

(** A symbol of a cell of the row is a symbol the row holds. *)
Lemma has_member (cell : ISymbol.t * number) (row : RowBase.t) :
  In cell (RowBase.cells row) -> has (fst cell) row = true.
Proof.
  unfold has, IMap.contains.
  induction (RowBase.cells row) as [|c cells IH]; simpl; [intros []|].
  intros [<-|Hin].
  - now rewrite Z.eqb_refl.
  - destruct (key_id (fst c) =? key_id (fst cell))%Z; [reflexivity|auto].
Qed.

Lemma has_negative (symbol : ISymbol.t) (row : RowBase.t) :
  Qlt_bool (RowBase.coefficientFor symbol row) 0 = true -> has symbol row = true.
Proof.
  unfold RowBase.coefficientFor, has, IMap.contains.
  destruct (IMap.find symbol (RowBase.cells row)); [reflexivity|].
  intro H. discriminate H.
Qed.

Lemma solveFor_has (symbol : ISymbol.t) (row : RowBase.t) :
  has symbol row = true -> exists row', RowBase.solveFor symbol row = Ok row'.
Proof.
  unfold has, IMap.contains, RowBase.solveFor, IMap.erase.
  destruct (IMap.find symbol (RowBase.cells row)); [|discriminate].
  intros _. eexists. reflexivity.
Qed.

Lemma isPivotable_valid (symbol : ISymbol.t) :
  SolverCore.isPivotable symbol = true -> isInvalid symbol = false.
Proof.
  unfold SolverCore.isPivotable, isInvalid.
  now destruct (ISymbol.type symbol).
Qed.

(** [_chooseSubject(row, tag)] returns the first external symbol of the row
    when there is one.  When the row has none, it returns the marker of the
    tag if that is a slack or error symbol with a negative coefficient in the
    row; if the marker is not, the other symbol of the tag on the same terms;
    and the invalid symbol if neither is.
    [_anyPivotableISymbol(row)] returns the first slack or error symbol of
    the row and the invalid symbol exactly when the row has none.  A valid
    symbol from either is one the row holds, so that [solveFor] does not
    throw on it. *)
Theorem pivot_subjects_are_held_by_the_row (row : RowBase.t) (tag : ITag.t) :
  let subject := SolverCore._chooseSubject row tag in
  let entering := SolverCore._anyPivotableISymbol row in
  (isInvalid subject = false ->
   has subject row = true
   /\ exists row', RowBase.solveFor subject row = Ok row')
  /\ ((exists cell, In cell (RowBase.cells row)
                    /\ ISymbol.type (fst cell) = External) ->
      exists before cell after,
        RowBase.cells row = before ++ cell :: after
        /\ subject = fst cell
        /\ ISymbol.type (fst cell) = External
        /\ forall earlier, In earlier before ->
             ISymbol.type (fst earlier) <> External)
  /\ ((forall cell, In cell (RowBase.cells row) ->
                    ISymbol.type (fst cell) <> External) ->
      (SolverCore.isPivotable (ITag.marker tag) = true ->
       RowBase.coefficientFor (ITag.marker tag) row < 0 ->
       subject = ITag.marker tag)
      /\ (~ (SolverCore.isPivotable (ITag.marker tag) = true
             /\ RowBase.coefficientFor (ITag.marker tag) row < 0) ->
          SolverCore.isPivotable (ITag.other tag) = true ->
          RowBase.coefficientFor (ITag.other tag) row < 0 ->
          subject = ITag.other tag)
      /\ (~ (SolverCore.isPivotable (ITag.marker tag) = true
             /\ RowBase.coefficientFor (ITag.marker tag) row < 0) ->
          ~ (SolverCore.isPivotable (ITag.other tag) = true
             /\ RowBase.coefficientFor (ITag.other tag) row < 0) ->
          subject = INVALID_SYMBOL))
  /\ (isInvalid entering = false ->
      (exists before cell after,
         RowBase.cells row = before ++ cell :: after
         /\ entering = fst cell
         /\ SolverCore.isPivotable (fst cell) = true
         /\ forall earlier, In earlier before ->
              SolverCore.isPivotable (fst earlier) = false)
      /\ has entering row = true
      /\ exists row', RowBase.solveFor entering row = Ok row')
  /\ (isInvalid entering = true
      <-> forall cell, In cell (RowBase.cells row) ->
            SolverCore.isPivotable (fst cell) = false).
Proof.
  cbv zeta.
  unfold SolverCore._chooseSubject, SolverCore._anyPivotableISymbol.
  rewrite firstExternal_find, _anyPivotableISymbol_from_find.
  pose proof (find_first isExternal (RowBase.cells row)) as HE.
  pose proof (find_first (fun cell => SolverCore.isPivotable (fst cell))
                (RowBase.cells row)) as HP.
  assert (Hext : forall cell : ISymbol.t * number,
             isExternal cell = false <-> ISymbol.type (fst cell) <> External).
  { intro cell. unfold isExternal. split.
    - intros H E. rewrite E in H. discriminate H.
    - intro H. destruct (ISymbolType_eqb _ External) eqn:E; [|reflexivity].
      apply ISymbolType_eqb_eq in E. contradiction. }
  split; [|split; [|split; [|split]]].
  - destruct (List.find isExternal (RowBase.cells row)) as [cell|];
      cbn [option_map].
    + destruct HE as (before & after & E & _ & _). intros _.
      assert (Hin : In cell (RowBase.cells row))
        by (rewrite E; apply in_or_app; right; now left).
      pose proof (has_member cell row Hin) as H.
      split; [exact H|exact (solveFor_has _ _ H)].
    + destruct (SolverCore.isPivotable (ITag.marker tag)
                && Qlt_bool (RowBase.coefficientFor (ITag.marker tag) row) 0)
        eqn:Hm.
      * apply andb_true_iff in Hm. destruct Hm as [_ Hm]. intros _.
        pose proof (has_negative _ _ Hm) as H.
        split; [exact H|exact (solveFor_has _ _ H)].
      * destruct (SolverCore.isPivotable (ITag.other tag)
                  && Qlt_bool (RowBase.coefficientFor (ITag.other tag) row) 0)
          eqn:Ho.
        -- apply andb_true_iff in Ho. destruct Ho as [_ Ho]. intros _.
           pose proof (has_negative _ _ Ho) as H.
           split; [exact H|exact (solveFor_has _ _ H)].
        -- intro H. discriminate H.
  - intros (cell0 & Hin0 & Hty0).
    destruct (List.find isExternal (RowBase.cells row)) as [cell|];
      cbn [option_map].
    + destruct HE as (before & after & E & Ht & Hb).
      exists before, cell, after.
      split; [exact E|]. split; [reflexivity|].
      split; [now apply ISymbolType_eqb_eq|].
      intros earlier Hin. apply Hext. now apply Hb.
    + exfalso. apply (proj1 (Hext cell0) (HE cell0 Hin0)). exact Hty0.
  - intro Hnone.
    destruct (List.find isExternal (RowBase.cells row)) as [cell|];
      cbn [option_map].
    + exfalso. destruct HE as (before & after & E & Ht & _).
      apply (Hnone cell).
      * rewrite E. apply in_or_app. right. now left.
      * now apply ISymbolType_eqb_eq.
    + destruct (SolverCore.isPivotable (ITag.marker tag)
                && Qlt_bool (RowBase.coefficientFor (ITag.marker tag) row) 0)
        eqn:Hm.
      * apply andb_true_iff in Hm. destruct Hm as [Hp Hm].
        apply Qlt_bool_iff in Hm.
        split; [reflexivity|].
        split; intro Hnot; exfalso; apply Hnot; split; assumption.
      * assert (Hnm : ~ (SolverCore.isPivotable (ITag.marker tag) = true
                         /\ RowBase.coefficientFor (ITag.marker tag) row < 0)).
        { intros [Hp Hlt]. apply Qlt_bool_iff in Hlt.
          rewrite Hp, Hlt in Hm. discriminate Hm. }
        split; [intros Hp Hlt; exfalso; apply Hnm; split; assumption|].
        destruct (SolverCore.isPivotable (ITag.other tag)
                  && Qlt_bool (RowBase.coefficientFor (ITag.other tag) row) 0)
          eqn:Ho.
        -- apply andb_true_iff in Ho. destruct Ho as [Hp Ho].
           apply Qlt_bool_iff in Ho.
           split; [reflexivity|].
           intros _ Hnot. exfalso. apply Hnot. split; assumption.
        -- split; [|reflexivity].
           intros _ Hp Hlt. apply Qlt_bool_iff in Hlt.
           rewrite Hp, Hlt in Ho. discriminate Ho.
  - destruct (List.find (fun cell => SolverCore.isPivotable (fst cell))
                (RowBase.cells row)) as [cell|].
    + destruct HP as (before & after & E & Ht & Hb). intros _.
      assert (Hin : In cell (RowBase.cells row))
        by (rewrite E; apply in_or_app; right; now left).
      pose proof (has_member cell row Hin) as H.
      split.
      { exists before, cell, after. repeat split; auto. }
      split; [exact H|exact (solveFor_has _ _ H)].
    + intro H. discriminate H.
  - destruct (List.find (fun cell => SolverCore.isPivotable (fst cell))
                (RowBase.cells row)) as [cell|].
    + destruct HP as (before & after & E & Ht & _).
      split.
      * intro H. rewrite (isPivotable_valid _ Ht) in H. discriminate H.
      * intro H. exfalso.
        rewrite (H cell) in Ht; [discriminate Ht|].
        rewrite E. apply in_or_app. right. now left.
    + split; [intros _; exact HP|reflexivity].
Qed.

(** ** What the methods of the solver leave behind *)

(** The books of a solver: the registry of constraints, the symbols of the
    variables, the edit variables and the counter of symbol ids. *)
Definition books (s : Solver) :=
  (constraints s, vars s, edits s, idTick s).

Section Books.
Variable insertISymbol : ISymbol.t -> number -> RowBase.t -> RowBase.t.
Variable allDummies : RowBase.t -> Result bool.
Variable _getMarkerLeavingISymbol :
  IMap.t ISymbol.t RowBase.t -> ISymbol.t -> ISymbol.t.

Lemma _substitute_keeps_books symbol row :
  keeps books (SolverCore._substitute insertISymbol symbol row).
Proof.
  apply keeps_modify. intro s.
  destruct (SolverCore._substitute_rows insertISymbol symbol row (rows s)
              (infeasibleRows s)) as [rows' infeasible'].
  cbn. destruct (artificial s); reflexivity.
Qed.

Lemma _optimize_keeps_books (fuel : nat) (target : Target) :
  keeps books (SolverCore._optimize insertISymbol fuel target).
Proof.
  induction fuel as [|fuel IH]; simpl.
  - apply keeps_throw.
  - repeat keeps_step; try apply _substitute_keeps_books. exact IH.
Qed.

Lemma _dualOptimize_keeps_books (fuel : nat) :
  keeps books (SolverCore._dualOptimize insertISymbol fuel).
Proof.
  induction fuel as [|fuel IH]; simpl.
  - apply keeps_throw.
  - repeat (keeps_step
            || match goal with
               | |- keeps _ (match ?x with [] => _ | _ :: _ => _ end) =>
                   destruct x
               end);
      try apply _substitute_keeps_books; exact IH.
Qed.

(** [_optimize] returns only once [_getEnteringISymbol] finds nothing to
    enter. *)
Lemma _optimize_ok (fuel : nat) (target : Target) :
  forall s s',
    SolverCore._optimize insertISymbol fuel target s = (Ok tt, s') ->
    isInvalid (SolverCore._getEnteringISymbol (target_row target s')) = true.
Proof.
  induction fuel as [|fuel IH]; intros s s' H;
    cbn [SolverCore._optimize] in H; [discriminate H|].
  unfold bind at 1, gets in H.
  destruct (isInvalid (SolverCore._getEnteringISymbol (target_row target s)))
    eqn:Hentering.
  - injection H as <-. exact Hentering.
  - unfold bind at 1, gets in H.
    destruct (isInvalid (SolverCore._getLeavingISymbol (rows s) _)) in H;
      [discriminate H|].
    destruct (IMap.erase _ (rows s)) as [[pr|] rows'] in H;
      [|discriminate H].
    unfold bind at 1, modify in H.
    unfold bind at 1, lift in H.
    destruct (SolverCore.solveForEx insertISymbol _ _ (snd pr)) as [row|e] in H;
      [|discriminate H].
    unfold bind at 1, SolverCore._substitute at 1, modify in H.
    unfold bind at 1, modify in H.
    exact (IH _ _ H).
Qed.


(** What [_getVarISymbol] and [_createRow] leave alone: everything but the
    symbols of the variables and the counter of ids. *)
Definition outside_symbols (s : Solver) :=
  (constraints s, rows s, edits s, infeasibleRows s, objective s, artificial s).

Lemma _getVarISymbol_steps (variable : Var.t) (s : Solver) :
  exists symbol s',
    SolverCore._getVarISymbol variable s = (Ok symbol, s')
    /\ outside_symbols s' = outside_symbols s
    /\ idTick s' = (idTick s + 1)%Z
    /\ vars s' = snd (IMap.setDefault variable (ISymbol.mk External (idTick s))
                        (vars s))
    /\ symbol = snd (fst (IMap.setDefault variable
                            (ISymbol.mk External (idTick s)) (vars s))).
Proof.
  unfold SolverCore._getVarISymbol, SolverCore._makeISymbol, bind.
  destruct (IMap.setDefault variable (ISymbol.mk External (idTick s)) (vars s))
    as [pr vars'] eqn:E.
  exists (snd pr). eexists. cbn. rewrite E. repeat split; reflexivity.
Qed.

Lemma _createRow_terms_steps (terms : IMap.t Var.t number) :
  forall (row : RowBase.t) (s : Solver),
  exists row' s',
    SolverCore._createRow_terms insertISymbol terms row s = (Ok row', s')
    /\ outside_symbols s' = outside_symbols s
    /\ (idTick s <= idTick s')%Z.
Proof.
  induction terms as [|termPair rest IH]; intros row s;
    cbn [SolverCore._createRow_terms].
  - exists row, s. repeat split. lia.
  - destruct (negb (nearZero (snd termPair))); [|apply IH].
    destruct (_getVarISymbol_steps (fst termPair) s)
      as (symbol & s0 & E & T & I & _).
    unfold bind at 1. rewrite E.
    unfold bind at 1, gets.
    destruct (IMap.find symbol (rows s0)) as [basic|].
    + destruct (IH (SolverCore.insertRow insertISymbol (snd basic)
                      (snd termPair) row) s0) as (row' & s' & E' & T' & I').
      exists row', s'. split; [exact E'|]. split; [now rewrite T'|lia].
    + destruct (IH (insertISymbol symbol (snd termPair) row) s0)
        as (row' & s' & E' & T' & I').
      exists row', s'. split; [exact E'|]. split; [now rewrite T'|lia].
Qed.

(** The tag [_createRow] hands out for an operator and a strength, by the
    types of its two symbols: a slack marker for an inequality and an error
    or dummy marker for an equality; the other symbol is an error symbol, the
    next one made, when the strength is below [required], and the invalid
    symbol otherwise. *)
Definition tag_fits (operator : Operator) (strength : number) (tag : ITag.t)
  : Prop :=
  ISymbol.type (ITag.marker tag)
  = match operator with
    | Eq => if Qlt_bool strength Strength.required then Error_ else Dummy
    | _ => Slack
    end
  /\ if Qlt_bool strength Strength.required
     then ISymbol.type (ITag.other tag) = Error_
          /\ ISymbol.id (ITag.other tag) = (ISymbol.id (ITag.marker tag) + 1)%Z
     else ITag.other tag = INVALID_SYMBOL.

Lemma _createRow_steps (cn : Constraint.t) (s : Solver) :
  exists created s',
    SolverCore._createRow insertISymbol cn s = (Ok created, s')
    /\ 0 <= RowBase.constant (IRowCreation.row created)
    /\ tag_fits (Constraint.operator cn) (Constraint.strength cn)
         (IRowCreation.tag created)
    /\ (idTick s <= ISymbol.id (ITag.marker (IRowCreation.tag created))
        < idTick s')%Z
    /\ (constraints s', rows s', edits s', infeasibleRows s', artificial s')
       = (constraints s, rows s, edits s, infeasibleRows s, artificial s)
    /\ (Qlt_bool (Constraint.strength cn) Strength.required = false ->
        objective s' = objective s).
Proof.
  unfold SolverCore._createRow, tag_fits.
  destruct (_createRow_terms_steps (Expression.terms (Constraint.expression cn))
              (RowBase.new (Expression.constant (Constraint.expression cn))) s)
    as (row & s0 & E & T & I).
  unfold bind at 1. rewrite E.
  assert (R : (constraints s0, rows s0, edits s0, infeasibleRows s0,
               artificial s0)
              = (constraints s, rows s, edits s, infeasibleRows s,
                 artificial s)
              /\ objective s0 = objective s)
    by (inversion T; split; congruence).
  destruct R as (R1 & R2).
  assert (Hsign : forall r : RowBase.t,
             0 <= RowBase.constant
                    (if Qlt_bool (RowBase.constant r) 0
                     then RowBase.reverseSign r else r)).
  { intro r. destruct (Qlt_bool (RowBase.constant r) 0) eqn:Hneg.
    - apply Qlt_bool_iff in Hneg. cbn [RowBase.reverseSign RowBase.constant].
      lra.
    - now apply Qlt_bool_false_iff in Hneg. }
  destruct (Constraint.operator cn);
    destruct (Qlt_bool (Constraint.strength cn) Strength.required);
    do 2 eexists; (split; [reflexivity|]);
    cbn [IRowCreation.row IRowCreation.tag ITag.marker ITag.other
         ISymbol.type ISymbol.id idTick set_idTick set_objective
         constraints rows edits infeasibleRows artificial objective];
    (split; [apply Hsign|]);
    (split; [repeat split|]);
    (split; [lia|]);
    (split; [exact R1|]);
    intro F; (discriminate F || exact R2).
Qed.


(** [_optimize] changes the tableau only: the registry, the symbols of the
    variables, the edit variables and the counter of ids are left alone.  It
    throws nothing but "the objective is unbounded" (a TypeError from the
    run time apart), and when it returns no cell of the row it was given has
    a negative coefficient on a symbol that is not a dummy: the row is at its
    minimum (unless the row holds a symbol of type Invalid, at which the
    search for an entering symbol stops). *)
Theorem _optimize_returns_at_an_optimum (fuel : nat) (target : Target)
  (s : Solver) (r : Result unit) (s' : Solver) :
  SolverCore._optimize insertISymbol fuel target s = (r, s') ->
  books s' = books s
  /\ (forall e, r = Err e ->
        e = ObjectiveUnbounded \/ e = TypeError \/ e = OutOfFuel)
  /\ (r = Ok tt ->
      (forall cell, In cell (RowBase.cells (target_row target s')) ->
                    snd cell < 0 -> ISymbol.type (fst cell) = Dummy)
      \/ exists cell, In cell (RowBase.cells (target_row target s'))
                      /\ ISymbol.type (fst cell) = Invalid).
Proof.
  intro H. split; [exact (_optimize_keeps_books fuel target s r s' H)|].
  split.
  - intros e ->.
    destruct (_optimize_raises insertISymbol (fun _ marker => marker) fuel
                target s e s' H) as [E|[E|E]]; auto.
  - intros ->. apply _optimize_ok in H.
    unfold SolverCore._getEnteringISymbol in H.
    rewrite _getEnteringISymbol_from_find in H.
    pose proof (find_first entering_candidate
                  (RowBase.cells (target_row target s'))) as F.
    destruct (List.find entering_candidate
                (RowBase.cells (target_row target s'))) as [cell|].
    + right. destruct F as (before & after & E & _ & _).
      exists cell. split.
      * rewrite E. apply in_or_app. right. now left.
      * unfold isInvalid in H. now apply ISymbolType_eqb_eq.
    + left. intros cell Hin. apply entering_candidate_iff. now apply F.
Qed.

(** *** The registry of constraints *)

(** The registry of constraints and the edit variables. *)
Definition ledger (s : Solver) := (constraints s, edits s).

Lemma keeps_compose {A B C : Type} (f : Solver -> A) (g : A -> B) (m : M C) :
  keeps f m -> keeps (fun s => g (f s)) m.
Proof. intros H s r s' E. now rewrite (H s r s' E). Qed.

Lemma keeps_books_ledger {C : Type} (m : M C) : keeps books m -> keeps ledger m.
Proof.
  exact (keeps_compose books (fun b => (fst (fst (fst b)), snd (fst b))) m).
Qed.

Lemma _makeISymbol_keeps_ledger type :
  keeps ledger (SolverCore._makeISymbol type).
Proof. intros s r s' H. now inversion H. Qed.

Lemma _createRow_keeps_ledger (cn : Constraint.t) :
  keeps ledger (SolverCore._createRow insertISymbol cn).
Proof.
  intros s r s' H.
  destruct (_createRow_steps cn s) as (created & s0 & E & _ & _ & _ & R & _).
  rewrite E in H. inversion H; subst. unfold ledger. inversion R. congruence.
Qed.

Lemma _addWithArtificialVariable_keeps_ledger (fuel : nat) row :
  keeps ledger (SolverCore._addWithArtificialVariable insertISymbol fuel row).
Proof.
  unfold SolverCore._addWithArtificialVariable.
  repeat keeps_step;
    try apply _makeISymbol_keeps_ledger;
    try (apply keeps_books_ledger; apply _optimize_keeps_books);
    try (apply keeps_books_ledger; apply _substitute_keeps_books).
Qed.

Lemma _removeConstraintEffects_keeps_books (cn : Constraint.t) (tag : ITag.t) :
  keeps books (SolverCore._removeConstraintEffects insertISymbol cn tag).
Proof.
  unfold SolverCore._removeConstraintEffects, SolverCore._removeMarkerEffects.
  repeat keeps_step;
    apply keeps_modify; intro s;
    match goal with
    | |- context [IMap.find ?k ?m] => destruct (IMap.find k m)
    end; reflexivity.
Qed.

Lemma hasConstraint_insert (cn other : Constraint.t) (tag : ITag.t)
  (s s' : Solver) :
  constraints s' = IMap.insert cn tag (constraints s) ->
  SolverCore.hasConstraint cn s' = true
  /\ (Constraint.id other <> Constraint.id cn ->
      SolverCore.hasConstraint other s' = SolverCore.hasConstraint other s).
Proof.
  intro E. unfold SolverCore.hasConstraint, IMap.contains. rewrite E. split.
  - destruct (find_insert_same cn tag (constraints s)) as (k & F).
    now rewrite F.
  - intro Hne.
    now rewrite (find_insert_other (HK := Constraint_Keyed) cn other tag _ Hne).
Qed.

Lemma addConstraint_outcome (fuel : nat)
  (cn : Constraint.t) (s : Solver) (r : Result unit) (s' : Solver) :
  SolverCore.addConstraint insertISymbol allDummies fuel cn s = (r, s') ->
  (SolverCore.hasConstraint cn s = true ->
   r = Err DuplicateConstraint /\ s' = s)
  /\ (r = Ok tt ->
      SolverCore.hasConstraint cn s = false
      /\ SolverCore.hasConstraint cn s' = true
      /\ (exists tag,
            constraints s' = IMap.insert cn tag (constraints s)
            /\ tag_fits (Constraint.operator cn) (Constraint.strength cn) tag)
      /\ forall other,
           Constraint.id other <> Constraint.id cn ->
           SolverCore.hasConstraint other s'
           = SolverCore.hasConstraint other s)
  /\ edits s' = edits s.
Proof.
  intro H. unfold SolverCore.addConstraint in H.
  unfold bind at 1, gets in H.
  assert (Hhas : SolverCore.hasConstraint cn s
                 = match IMap.find cn (constraints s) with
                   | Some _ => true
                   | None => false
                   end) by reflexivity.
  rewrite Hhas. clear Hhas.
  destruct (IMap.find cn (constraints s)) as [found|] eqn:Hfind.
  - inversion H; subst.
    split; [auto|]. split; [discriminate|reflexivity].
  - split; [discriminate|].
    destruct (_createRow_steps cn s)
      as (created & s0 & E & _ & Htag & _ & R & _).
    unfold bind at 1 in H. rewrite E in H. cbv zeta in H.
    assert (R0 : ledger s0 = ledger s) by (unfold ledger; inversion R; congruence).
    apply bind_inv in H.
    destruct H as [(subject & s1 & Hsubject & H)|(e & Hsubject & ->)].
    + apply (keeps_elim ledger) in Hsubject; [|repeat keeps_step].
      apply bind_inv in H.
      destruct H as [(u & s2 & Hadmit & H)|(e & Hadmit & ->)].
      * apply (keeps_elim ledger) in Hadmit;
          [|repeat keeps_step;
            try apply _addWithArtificialVariable_keeps_ledger;
            try (apply keeps_books_ledger; apply _substitute_keeps_books)].
        unfold bind at 1, modify in H.
        apply (keeps_elim ledger) in H;
          [|apply keeps_books_ledger; apply _optimize_keeps_books].
        assert (L : ledger s2 = ledger s) by congruence.
        unfold ledger in H, L. cbn [constraints edits set_constraints] in H.
        pose proof (f_equal fst H) as Hc. pose proof (f_equal snd H) as He.
        pose proof (f_equal fst L) as Lc. pose proof (f_equal snd L) as Le.
        cbn [fst snd] in Hc, He, Lc, Le. clear H L.
        rewrite Lc in Hc.
        split; [|congruence].
        intros _. split; [reflexivity|].
        split; [exact (proj1 (hasConstraint_insert cn cn _ s s' Hc))|].
        split; [exists (IRowCreation.tag created); split; assumption|].
        intros other. exact (proj2 (hasConstraint_insert cn other _ s s' Hc)).
      * apply (keeps_elim ledger) in Hadmit;
          [|repeat keeps_step;
            try apply _addWithArtificialVariable_keeps_ledger;
            try (apply keeps_books_ledger; apply _substitute_keeps_books)].
        split; [discriminate|].
        assert (L : ledger s' = ledger s) by congruence.
        exact (f_equal snd L).
    + apply (keeps_elim ledger) in Hsubject; [|repeat keeps_step].
      split; [discriminate|].
      assert (L : ledger s' = ledger s) by congruence.
      exact (f_equal snd L).
Qed.

(** [addConstraint(constraint)] on a constraint the solver already has
    throws "duplicate constraint" and changes nothing.  When it returns, the
    constraint was not registered before and is registered now, under the
    tag [_createRow] made for its operator and strength; the registration of
    any other constraint is what it was.  However the call ends, the edit
    variables are left alone. *)
Theorem addConstraint_registers_the_constraint (fuel : nat)
  (cn : Constraint.t) (s : Solver) (r : Result unit) (s' : Solver) :
  SolverCore.addConstraint insertISymbol allDummies fuel cn s = (r, s') ->
  (SolverCore.hasConstraint cn s = true ->
   r = Err DuplicateConstraint /\ s' = s)
  /\ (r = Ok tt ->
      SolverCore.hasConstraint cn s = false
      /\ SolverCore.hasConstraint cn s' = true
      /\ (exists tag,
            constraints s' = IMap.insert cn tag (constraints s)
            /\ tag_fits (Constraint.operator cn) (Constraint.strength cn) tag)
      /\ forall other,
           Constraint.id other <> Constraint.id cn ->
           SolverCore.hasConstraint other s'
           = SolverCore.hasConstraint other s)
  /\ edits s' = edits s.
Proof. apply addConstraint_outcome. Qed.

Lemma removeConstraint_rest_keeps_books (fuel : nat) (cn : Constraint.t)
  (cnTag : ITag.t) :
  keeps books
    (bind (SolverCore._removeConstraintEffects insertISymbol cn cnTag)
       (fun _ =>
          bind
            (bind (gets rows)
               (fun rows0 =>
                  match IMap.erase (ITag.marker cnTag) rows0 with
                  | (Some _, rows') => modify (set_rows rows')
                  | (None, _) =>
                      let leaving :=
                        _getMarkerLeavingISymbol rows0 (ITag.marker cnTag) in
                      if isInvalid leaving then throw NoLeavingRow
                      else
                        match IMap.erase leaving rows0 with
                        | (Some rowPair, rows') =>
                            bind (modify (set_rows rows'))
                              (fun _ =>
                                 bind
                                   (lift
                                      (SolverCore.solveForEx insertISymbol
                                         leaving (ITag.marker cnTag)
                                         (snd rowPair)))
                                   (fun row =>
                                      SolverCore._substitute insertISymbol
                                        (ITag.marker cnTag) row))
                        | (None, _) => throw TypeError
                        end
                  end))
            (fun _ => SolverCore._optimize insertISymbol fuel TObjective))).
Proof.
  cbv zeta.
  repeat keeps_step;
    try apply _removeConstraintEffects_keeps_books;
    try apply _substitute_keeps_books;
    try apply _optimize_keeps_books.
Qed.

Lemma hasConstraint_remove (cn other : Constraint.t) (s s' : Solver) :
  IMap_wf (constraints s) ->
  constraints s' = IMap.remove cn (constraints s) ->
  SolverCore.hasConstraint cn s' = false
  /\ (Constraint.id other <> Constraint.id cn ->
      SolverCore.hasConstraint other s' = SolverCore.hasConstraint other s).
Proof.
  intros Hwf E. unfold SolverCore.hasConstraint, IMap.contains. rewrite E.
  split.
  - now rewrite (find_remove_same cn _ Hwf).
  - intro Hne.
    now rewrite (find_remove_other (HK := Constraint_Keyed) cn other _ Hne).
Qed.

Lemma removeConstraint_outcome (fuel : nat) (cn : Constraint.t)
  (s : Solver) (r : Result unit) (s' : Solver) :
  IMap_wf (constraints s) ->
  SolverCore.removeConstraint insertISymbol _getMarkerLeavingISymbol fuel cn s
  = (r, s') ->
  (SolverCore.hasConstraint cn s = false ->
   r = Err UnknownConstraint /\ s' = s)
  /\ (SolverCore.hasConstraint cn s = true ->
      r <> Err UnknownConstraint
      /\ constraints s' = IMap.remove cn (constraints s)
      /\ SolverCore.hasConstraint cn s' = false
      /\ forall other,
           Constraint.id other <> Constraint.id cn ->
           SolverCore.hasConstraint other s'
           = SolverCore.hasConstraint other s)
  /\ (vars s', edits s', idTick s') = (vars s, edits s, idTick s).
Proof.
  intros Hwf H. pose proof H as H0.
  unfold SolverCore.removeConstraint in H.
  unfold bind at 1, gets in H. unfold IMap.erase at 1 in H.
  assert (Hhas : SolverCore.hasConstraint cn s
                 = match IMap.find cn (constraints s) with
                   | Some _ => true
                   | None => false
                   end) by reflexivity.
  rewrite Hhas. clear Hhas.
  destruct (IMap.find cn (constraints s)) as [cnPair|] eqn:Hfind.
  - unfold bind at 1, modify in H. cbv zeta in H.
    apply (keeps_elim books) in H;
      [|apply removeConstraint_rest_keeps_books].
    unfold books in H. cbn [constraints vars edits idTick set_constraints] in H.
    assert (Hc : constraints s' = IMap.remove cn (constraints s))
      by congruence.
    split; [discriminate|]. split; [|congruence].
    intros _.
    destruct (hasConstraint_remove cn cn s s' Hwf Hc) as [Hgone _].
    split.
    + intros ->.
      apply (removeConstraint_early insertISymbol _getMarkerLeavingISymbol)
        in H0; [|reflexivity].
      subst s'. unfold SolverCore.hasConstraint, IMap.contains in Hgone.
      rewrite Hfind in Hgone. discriminate Hgone.
    + split; [exact Hc|]. split; [exact Hgone|].
      intro other. exact (proj2 (hasConstraint_remove cn other s s' Hwf Hc)).
  - inversion H; subst. split; [auto|]. split; [discriminate|reflexivity].
Qed.

(** [removeConstraint(constraint)] on a constraint the solver does not have
    throws "unknown constraint" and changes nothing.  On a registered
    constraint it takes the constraint out of the registry before anything
    else: afterwards the constraint is not registered, whether the call
    returns or throws ("failed to find leaving row", "the objective is
    unbounded"), and the registration of any other constraint is what it was.
    The symbols of the variables, the edit variables and the counter of ids
    are left alone. *)
Theorem removeConstraint_unregisters_the_constraint (fuel : nat)
  (cn : Constraint.t) (s : Solver) (r : Result unit) (s' : Solver) :
  IMap_wf (constraints s) ->
  SolverCore.removeConstraint insertISymbol _getMarkerLeavingISymbol fuel cn s
  = (r, s') ->
  (SolverCore.hasConstraint cn s = false ->
   r = Err UnknownConstraint /\ s' = s)
  /\ (SolverCore.hasConstraint cn s = true ->
      r <> Err UnknownConstraint
      /\ constraints s' = IMap.remove cn (constraints s)
      /\ SolverCore.hasConstraint cn s' = false
      /\ forall other,
           Constraint.id other <> Constraint.id cn ->
           SolverCore.hasConstraint other s'
           = SolverCore.hasConstraint other s)
  /\ (vars s', edits s', idTick s') = (vars s, edits s, idTick s).
Proof. apply removeConstraint_outcome. Qed.

(** *** Edit variables *)

(** [_dualOptimize] returns only once [_infeasibleRows] is empty. *)
Lemma _dualOptimize_ok (fuel : nat) :
  forall s s',
    SolverCore._dualOptimize insertISymbol fuel s = (Ok tt, s') ->
    infeasibleRows s' = [].
Proof.
  induction fuel as [|fuel IH]; intros s s' H;
    cbn [SolverCore._dualOptimize] in H; [discriminate H|].
  unfold bind at 1, gets in H.
  destruct (infeasibleRows s) as [|leaving rest] eqn:Hinf.
  - injection H as <-. exact Hinf.
  - unfold bind at 1, modify in H. unfold bind at 1, gets in H.
    destruct (IMap.find leaving _) as [pr|] in H; [|exact (IH _ _ H)].
    destruct (Qlt_bool (RowBase.constant (snd pr)) 0) in H;
      [|exact (IH _ _ H)].
    unfold bind at 1, gets in H.
    destruct (isInvalid _) in H; [discriminate H|].
    unfold bind at 1, modify in H.
    unfold bind at 1, lift in H.
    destruct (SolverCore.solveForEx insertISymbol _ _ (snd pr)) as [row|e] in H;
      [|discriminate H].
    unfold bind at 1, SolverCore._substitute at 1, modify in H.
    unfold bind at 1, modify in H.
    exact (IH _ _ H).
Qed.

Lemma clip_required_iff (strength : number) :
  Qeq_bool (Strength.clip strength) Strength.required = true
  <-> Strength.required <= strength.
Proof.
  rewrite Qeq_bool_iff. unfold Strength.clip. split; intro H.
  - destruct (Qlt_le_dec strength Strength.required) as [Hlt|Hle];
      [|exact Hle].
    exfalso. rewrite (Q.min_r _ _ (Qlt_le_weak _ _ Hlt)) in H.
    destruct (Qlt_le_dec strength 0) as [Hneg|Hpos].
    + rewrite (Q.max_l _ _ (Qlt_le_weak _ _ Hneg)) in H. discriminate H.
    + rewrite (Q.max_r _ _ Hpos) in H. rewrite H in Hlt.
      exact (Qlt_irrefl _ Hlt).
  - rewrite (Q.min_l _ _ H). apply Q.max_r. discriminate.
Qed.

(** The constraint [addEditVariable(variable, strength)] makes:
    [new Constraint(new Expression(variable), Operator.Eq, undefined,
    strength)] with the clipped strength, which the constructor clips
    again. *)
Definition edit_constraint (cnId : Z) (variable : Var.t) (strength : number)
  : Constraint.t :=
  Constraint.mk (Expression.mk [(variable, 1)] 0) Eq
    (Strength.clip (Strength.clip strength)) cnId.

Lemma hasEditVariable_insert (variable other : Var.t) (info : IEditInfo.t)
  (s s' : Solver) :
  edits s' = IMap.insert variable info (edits s) ->
  SolverCore.hasEditVariable variable s' = true
  /\ (Var.id other <> Var.id variable ->
      SolverCore.hasEditVariable other s' = SolverCore.hasEditVariable other s).
Proof.
  intro E. unfold SolverCore.hasEditVariable, IMap.contains. rewrite E. split.
  - destruct (find_insert_same variable info (edits s)) as (k & F).
    now rewrite F.
  - intro Hne.
    now rewrite (find_insert_other (HK := Var_Keyed) variable other info _ Hne).
Qed.

(** [addEditVariable(variable, strength)] throws "duplicate edit variable"
    for a variable that is one already and "bad strength" for a strength of
    [required] or more, and changes nothing then.  When it returns, the
    variable was not an edit variable and is one now, with the constant 0.0
    and with the constraint [variable == 0] of the clipped strength, which is
    registered under the tag that the edit holds too; for a strength below
    [required], the two symbols of that tag are error symbols. *)
Theorem addEditVariable_registers_the_variable (fuel : nat) (cnId : Z)
  (variable : Var.t) (strength : number) (s : Solver) (r : Result unit)
  (s' : Solver) :
  SolverCore.addEditVariable insertISymbol allDummies fuel cnId variable
    strength s = (r, s') ->
  let cn := edit_constraint cnId variable strength in
  (SolverCore.hasEditVariable variable s = true ->
   r = Err DuplicateEditVariable /\ s' = s)
  /\ (SolverCore.hasEditVariable variable s = false ->
      Strength.required <= strength ->
      r = Err BadRequiredStrength /\ s' = s)
  /\ (r = Ok tt ->
      SolverCore.hasEditVariable variable s = false
      /\ SolverCore.hasEditVariable variable s' = true
      /\ SolverCore.hasConstraint cn s' = true
      /\ (exists tag,
            constraints s' = IMap.insert cn tag (constraints s)
            /\ edits s' = IMap.insert variable (IEditInfo.mk tag cn 0) (edits s)
            /\ (strength < Strength.required ->
                ISymbol.type (ITag.marker tag) = Error_
                /\ ISymbol.type (ITag.other tag) = Error_))
      /\ forall other,
           Var.id other <> Var.id variable ->
           SolverCore.hasEditVariable other s'
           = SolverCore.hasEditVariable other s).
Proof.
  intros H cn. unfold SolverCore.addEditVariable in H.
  unfold bind at 1, gets in H.
  assert (Hhas : SolverCore.hasEditVariable variable s
                 = match IMap.find variable (edits s) with
                   | Some _ => true
                   | None => false
                   end) by reflexivity.
  rewrite Hhas. clear Hhas.
  destruct (IMap.find variable (edits s)) as [editPair|] eqn:Hfind.
  - inversion H; subst.
    split; [auto|]. split; discriminate.
  - split; [discriminate|]. cbv zeta in H.
    destruct (Qeq_bool (Strength.clip strength) Strength.required) eqn:Hclip.
    + inversion H; subst. split; [auto|]. discriminate.
    + assert (Hlt : strength < Strength.required).
      { apply Qnot_le_lt. intro Hle. apply clip_required_iff in Hle.
        congruence. }
      split.
      { intros _ Hle. exfalso. apply (Qlt_not_le _ _ Hlt Hle). }
      change (Expression.new [Expression.IVariable variable])
        with (Ok (Expression.mk [(variable, 1)] 0)) in H.
      unfold bind at 1, lift in H.
      change (Constraint.new cnId
                (Expression.IExpression (Expression.mk [(variable, 1)] 0)) Eq
                None (Strength.clip strength))
        with (Ok cn) in H.
      unfold bind at 1, lift in H.
      apply bind_inv in H.
      destruct H as [(u & s0 & Hadd & H)|(e & Hadd & ->)];
        [|discriminate].
      destruct u.
      destruct (addConstraint_outcome fuel cn s (Ok tt) s0 Hadd)
        as (_ & Hok & Hedits).
      destruct (Hok eq_refl) as (_ & Hcn & (tag & Hc & Htag) & _).
      unfold bind at 1, gets in H.
      assert (F : exists k, IMap.find cn (constraints s0) = Some (k, tag)).
      { rewrite Hc. apply find_insert_same. }
      destruct F as (k & F). rewrite F in H.
      unfold modify in H. inversion H; subst. cbn [snd].
      intros _. split; [reflexivity|].
      assert (E : edits (set_edits
                           (IMap.insert variable (IEditInfo.mk tag cn 0)
                              (edits s0)) s0)
                  = IMap.insert variable (IEditInfo.mk tag cn 0) (edits s))
        by (cbn [edits set_edits]; now rewrite Hedits).
      split; [exact (proj1 (hasEditVariable_insert variable variable _ s _ E))|].
      split; [exact Hcn|].
      split.
      * exists tag. split; [exact Hc|]. split; [exact E|].
        intros _. unfold tag_fits in Htag. subst cn.
        cbn [Constraint.operator Constraint.strength edit_constraint] in Htag.
        assert (Hlt2 : Qlt_bool (Strength.clip (Strength.clip strength))
                         Strength.required = true).
        { apply Qlt_bool_iff.
          rewrite (clip_fixes_range _ (clip_range strength)).
          apply Qnot_le_lt. intro Hle.
          assert (Heq : Strength.clip strength == Strength.required)
            by (apply Qle_antisym; [apply clip_range|exact Hle]).
          apply Qeq_bool_iff in Heq. congruence. }
        rewrite Hlt2 in Htag. destruct Htag as (Hm & Ho & _). auto.
      * intro other.
        exact (proj2 (hasEditVariable_insert variable other _ s _ E)).
Qed.

Lemma hasEditVariable_remove (variable other : Var.t) (s s' : Solver) :
  IMap_wf (edits s) ->
  edits s' = IMap.remove variable (edits s) ->
  SolverCore.hasEditVariable variable s' = false
  /\ (Var.id other <> Var.id variable ->
      SolverCore.hasEditVariable other s' = SolverCore.hasEditVariable other s).
Proof.
  intros Hwf E. unfold SolverCore.hasEditVariable, IMap.contains. rewrite E.
  split.
  - now rewrite (find_remove_same variable _ Hwf).
  - intro Hne.
    now rewrite (find_remove_other (HK := Var_Keyed) variable other _ Hne).
Qed.

(** [removeEditVariable(variable)] throws "unknown edit variable" for a
    variable that is not one, and changes nothing then.  Otherwise the
    variable is no edit variable afterwards, whether the call returns or
    throws, and the other edit variables are what they were; the constraint
    of the edit variable is removed as [removeConstraint] removes it, and is
    not registered afterwards. *)
Theorem removeEditVariable_unregisters_the_variable (fuel : nat)
  (variable : Var.t) (s : Solver) (r : Result unit) (s' : Solver) :
  IMap_wf (edits s) -> IMap_wf (constraints s) ->
  SolverCore.removeEditVariable insertISymbol _getMarkerLeavingISymbol fuel
    variable s = (r, s') ->
  (SolverCore.hasEditVariable variable s = false ->
   r = Err UnknownEditVariable /\ s' = s)
  /\ (forall editPair,
        IMap.find variable (edits s) = Some editPair ->
        let cn := IEditInfo.constraint (snd editPair) in
        edits s' = IMap.remove variable (edits s)
        /\ SolverCore.hasEditVariable variable s' = false
        /\ (forall other,
              Var.id other <> Var.id variable ->
              SolverCore.hasEditVariable other s'
              = SolverCore.hasEditVariable other s)
        /\ SolverCore.hasConstraint cn s' = false
        /\ (SolverCore.hasConstraint cn s = true ->
            constraints s' = IMap.remove cn (constraints s))
        /\ (SolverCore.hasConstraint cn s = false ->
            r = Err UnknownConstraint)
        /\ r <> Err UnknownEditVariable).
Proof.
  intros Hwe Hwc H. unfold SolverCore.removeEditVariable in H.
  unfold bind at 1, gets in H. unfold IMap.erase at 1 in H.
  assert (Hhas : SolverCore.hasEditVariable variable s
                 = match IMap.find variable (edits s) with
                   | Some _ => true
                   | None => false
                   end) by reflexivity.
  rewrite Hhas. clear Hhas.
  destruct (IMap.find variable (edits s)) as [pr|] eqn:Hfind.
  - split; [discriminate|].
    intros editPair E cn. injection E as <-. subst cn.
    unfold bind at 1, modify in H.
    set (s0 := set_edits (IMap.remove variable (edits s)) s) in H.
    assert (Hwc0 : IMap_wf (constraints s0)) by exact Hwc.
    destruct (removeConstraint_outcome fuel _ s0 r s' Hwc0 H)
      as (Hunknown & Hknown & Hrest).
    assert (He : edits s' = IMap.remove variable (edits s)).
    { pose proof (f_equal (fun t => snd (fst t)) Hrest) as E.
      cbn [fst snd] in E. exact E. }
    split; [exact He|].
    split; [exact (proj1 (hasEditVariable_remove variable variable s s' Hwe He))|].
    split; [intro other;
            exact (proj2 (hasEditVariable_remove variable other s s' Hwe He))|].
    change (SolverCore.hasConstraint (IEditInfo.constraint (snd pr)) s)
      with (SolverCore.hasConstraint (IEditInfo.constraint (snd pr)) s0).
    change (constraints s) with (constraints s0).
    destruct (SolverCore.hasConstraint (IEditInfo.constraint (snd pr)) s0)
      eqn:Hcn.
    + destruct (Hknown eq_refl) as (Hr & Hc & Hgone & _).
      split; [exact Hgone|]. split; [auto|]. split; [discriminate|].
      intros ->.
      apply (removeConstraint_early insertISymbol _getMarkerLeavingISymbol)
        in H; [|reflexivity].
      subst s'. rewrite Hgone in Hcn. discriminate Hcn.
    + destruct (Hunknown eq_refl) as (-> & ->).
      split; [exact Hcn|]. split; [discriminate|].
      split; [reflexivity|discriminate].
  - inversion H; subst. split; [auto|]. intros editPair E. discriminate E.
Qed.

(** [ensures Q m]: when [m] returns, [Q] holds of the solver. *)
Definition ensures {A : Type} (Q : Solver -> Prop) (m : M A) : Prop :=
  forall s a s', m s = (Ok a, s') -> Q s'.

Lemma ensures_bind {A B : Type} (Q : Solver -> Prop) (m : M A) (k : A -> M B) :
  (forall a, ensures Q (k a)) -> ensures Q (bind m k).
Proof.
  intros Hk s b s' H. unfold bind in H.
  destruct (m s) as [[a|e] s0]; [exact (Hk a s0 b s' H)|discriminate H].
Qed.

Lemma ensures_throw {A : Type} (Q : Solver -> Prop) (e : Error) :
  ensures Q (@throw A e).
Proof. intros s a s' H. discriminate H. Qed.

Lemma ensures_elim {A : Type} (Q : Solver -> Prop) (m : M A) s a s' :
  ensures Q m -> m s = (Ok a, s') -> Q s'.
Proof. intros H E. exact (H s a s' E). Qed.

(** The errors of [_dualOptimize]: "dual optimize failed", a TypeError of
    the run time, or the model's fuel. *)
Definition dual_failure (e : Error) : Prop :=
  e = DualOptimizeFailed \/ e = TypeError \/ e = OutOfFuel.

Lemma _dualOptimize_fails (fuel : nat) :
  raises dual_failure (SolverCore._dualOptimize insertISymbol fuel).
Proof.
  induction fuel as [|fuel IH]; cbn [SolverCore._dualOptimize].
  - apply raises_throw. right. right. reflexivity.
  - repeat raises_step;
      try (apply raises_throw;
           solve [left; reflexivity | right; right; reflexivity]);
      try exact IH;
      try (apply raises_modify);
      try (apply raises_lift; intros e0 H0; right; left;
           exact (solveFor_raises _ _ _ H0)).
Qed.

(** What [suggestValue] does once the value is recorded. *)
Definition suggestValue_rest (fuel : nat) (marker other : ISymbol.t)
  (delta : number) : M unit :=
  bind (gets rows)
    (fun rows0 =>
       match IMap.find marker rows0 with
       | Some rowPair =>
           let row := RowBase.add (- delta) (snd rowPair) in
           bind (modify (set_rows (IMap.insert marker row rows0)))
             (fun _ =>
                bind
                  (if Qlt_bool (RowBase.constant row) 0
                   then SolverCore.push_infeasible marker else ret tt)
                  (fun _ => SolverCore._dualOptimize insertISymbol fuel))
       | None =>
           match IMap.find other rows0 with
           | Some rowPair =>
               let row := RowBase.add delta (snd rowPair) in
               bind (modify (set_rows (IMap.insert other row rows0)))
                 (fun _ =>
                    bind
                      (if Qlt_bool (RowBase.constant row) 0
                       then SolverCore.push_infeasible other else ret tt)
                      (fun _ => SolverCore._dualOptimize insertISymbol fuel))
           | None =>
               bind
                 (modify (fun s =>
                    let (rows', infeasible') :=
                      SolverCore.suggestValue_rows marker delta (rows s)
                        (infeasibleRows s) in
                    set_infeasibleRows infeasible' (set_rows rows' s)))
                 (fun _ => SolverCore._dualOptimize insertISymbol fuel)
           end
       end).

Lemma suggestValue_rest_keeps_books fuel marker other delta :
  keeps books (suggestValue_rest fuel marker other delta).
Proof.
  unfold suggestValue_rest, SolverCore.push_infeasible. cbv zeta.
  repeat keeps_step; try apply _dualOptimize_keeps_books.
  apply keeps_modify. intro s.
  now destruct (SolverCore.suggestValue_rows marker delta (rows s)
                  (infeasibleRows s)).
Qed.

Lemma suggestValue_rest_ensures fuel marker other delta :
  ensures (fun s => infeasibleRows s = [])
    (suggestValue_rest fuel marker other delta).
Proof.
  unfold suggestValue_rest. cbv zeta.
  apply ensures_bind. intro rows0.
  destruct (IMap.find marker rows0);
    [|destruct (IMap.find other rows0)];
    cbv zeta; repeat (apply ensures_bind; intros ?);
    intros s1 [] s2 H; exact (_dualOptimize_ok fuel s1 s2 H).
Qed.

Lemma suggestValue_rest_fails fuel marker other delta :
  raises dual_failure (suggestValue_rest fuel marker other delta).
Proof.
  unfold suggestValue_rest, SolverCore.push_infeasible. cbv zeta.
  repeat raises_step; try apply raises_modify; apply _dualOptimize_fails.
Qed.

(** [suggestValue(variable, value)] throws "unknown edit variable" for a
    variable that is not one, and changes nothing then.  Otherwise the value
    is recorded as the constant of the edit variable before anything else,
    so that it is recorded whether the call returns or throws; the registry,
    the symbols of the variables and the counter of ids are left alone; the
    call throws nothing but "dual optimize failed" (a TypeError from the run
    time apart), and when it returns no row is left on [_infeasibleRows]. *)
Theorem suggestValue_records_the_value (fuel : nat) (variable : Var.t)
  (value : number) (s : Solver) (r : Result unit) (s' : Solver) :
  SolverCore.suggestValue insertISymbol fuel variable value s = (r, s') ->
  (SolverCore.hasEditVariable variable s = false ->
   r = Err UnknownEditVariable /\ s' = s)
  /\ (forall editPair,
        IMap.find variable (edits s) = Some editPair ->
        edits s'
        = IMap.insert variable
            (IEditInfo.mk (IEditInfo.tag (snd editPair))
               (IEditInfo.constraint (snd editPair)) value) (edits s)
        /\ (constraints s', vars s', idTick s')
           = (constraints s, vars s, idTick s)
        /\ (r = Ok tt -> infeasibleRows s' = [])
        /\ (forall e, r = Err e ->
              e = DualOptimizeFailed \/ e = TypeError \/ e = OutOfFuel)).
Proof.
  intro H. unfold SolverCore.suggestValue in H.
  unfold bind at 1, gets in H.
  assert (Hhas : SolverCore.hasEditVariable variable s
                 = match IMap.find variable (edits s) with
                   | Some _ => true
                   | None => false
                   end) by reflexivity.
  rewrite Hhas. clear Hhas.
  destruct (IMap.find variable (edits s)) as [pr|] eqn:Hfind.
  - split; [discriminate|].
    intros editPair E. injection E as <-.
    cbv zeta in H. unfold bind at 1, modify in H.
    change (suggestValue_rest fuel (ITag.marker (IEditInfo.tag (snd pr)))
              (ITag.other (IEditInfo.tag (snd pr)))
              (value - IEditInfo.constant (snd pr))
              (set_edits
                 (IMap.insert variable
                    (IEditInfo.mk (IEditInfo.tag (snd pr))
                       (IEditInfo.constraint (snd pr)) value) (edits s)) s)
            = (r, s')) in H.
    pose proof (keeps_elim books _ _ _ _
                  (suggestValue_rest_keeps_books fuel _ _ _) H) as Hk.
    unfold books in Hk. cbn [constraints vars edits idTick set_edits] in Hk.
    split; [congruence|]. split; [congruence|].
    split.
    + intros ->.
      exact (ensures_elim _ _ _ _ _ (suggestValue_rest_ensures fuel _ _ _) H).
    + intros e ->.
      exact (raises_elim _ _ _ _ _ (suggestValue_rest_fails fuel _ _ _) H).
  - inversion H; subst. split; [auto|]. intros editPair E. discriminate E.
Qed.

(** *** The symbols of the variables *)

(** Every variable the solver knows has an external symbol of its own, made
    by the solver: its id is below the counter of ids. *)
Definition vars_ok (s : Solver) : Prop :=
  (forall v pr, IMap.find v (vars s) = Some pr ->
     ISymbol.type (snd pr) = External /\ (ISymbol.id (snd pr) < idTick s)%Z)
  /\ (forall v w pv pw,
        IMap.find v (vars s) = Some pv -> IMap.find w (vars s) = Some pw ->
        ISymbol.id (snd pv) = ISymbol.id (snd pw) -> Var.id v = Var.id w).

(** The counter of ids has not gone down and the variables known before have
    the symbol they had. *)
Definition symbols_grow (s s' : Solver) : Prop :=
  (idTick s <= idTick s')%Z
  /\ forall v pr, IMap.find v (vars s) = Some pr ->
                  IMap.find v (vars s') = Some pr.

(** [steady m]: whether it returns or throws, [m] keeps the symbols of the
    variables in order and lets them grow only. *)
Definition steady {A : Type} (m : M A) : Prop :=
  forall s r s', m s = (r, s') -> vars_ok s -> vars_ok s' /\ symbols_grow s s'.

Definition symbols (s : Solver) := (vars s, idTick s).

Lemma steady_of_keeps {A : Type} (m : M A) : keeps symbols m -> steady m.
Proof.
  intros K s r s' H Hok. pose proof (K s r s' H) as E.
  assert (Ev : vars s' = vars s) by exact (f_equal fst E).
  assert (Ei : idTick s' = idTick s) by exact (f_equal snd E).
  unfold vars_ok, symbols_grow. rewrite Ev, Ei.
  split; [exact Hok|]. split; [lia|auto].
Qed.

Lemma keeps_books_symbols {C : Type} (m : M C) : keeps books m -> keeps symbols m.
Proof.
  exact (keeps_compose books (fun b => (snd (fst (fst b)), snd b)) m).
Qed.

Lemma steady_bind {A B : Type} (m : M A) (k : A -> M B) :
  steady m -> (forall a, steady (k a)) -> steady (bind m k).
Proof.
  intros Hm Hk s r s' H Hok. unfold bind in H.
  destruct (m s) as [[a|e] s0] eqn:E.
  - destruct (Hm s _ s0 E Hok) as (Hok0 & G0 & F0).
    destruct (Hk a s0 r s' H Hok0) as (Hok' & G1 & F1).
    split; [exact Hok'|]. split; [lia|auto].
  - inversion H; subst. exact (Hm s _ s' E Hok).
Qed.

Lemma _makeISymbol_steady type : steady (SolverCore._makeISymbol type).
Proof.
  intros s r s' H (Hty & Hinj). inversion H; subst.
  unfold vars_ok, symbols_grow. cbn [vars idTick set_idTick].
  split; [split|split].
  - intros v pr F. destruct (Hty v pr F). split; [assumption|lia].
  - exact Hinj.
  - lia.
  - auto.
Qed.

Lemma _getVarISymbol_steady (variable : Var.t) :
  steady (SolverCore._getVarISymbol variable).
Proof.
  intros s r s' H (Hty & Hinj).
  destruct (_getVarISymbol_steps variable s) as (symbol & s0 & E & _ & I & V & _).
  rewrite E in H. inversion H; subst s0. clear H E.
  assert (F : forall v,
             IMap.find v (vars s')
             = match IMap.find v (vars s) with
               | Some p => Some p
               | None =>
                   if (Var.id variable =? Var.id v)%Z
                   then Some (variable, ISymbol.mk External (idTick s))
                   else None
               end).
  { intro v. rewrite V.
    exact (find_setDefault (HK := Var_Keyed) variable v _ (vars s)). }
  unfold vars_ok, symbols_grow. rewrite I.
  split; [split|split].
  - intros v pr Fv. rewrite F in Fv.
    destruct (IMap.find v (vars s)) as [p|] eqn:Fs.
    + injection Fv as <-. destruct (Hty v p Fs). split; [assumption|lia].
    + destruct (Var.id variable =? Var.id v)%Z; [|discriminate Fv].
      injection Fv as <-. cbn. split; [reflexivity|lia].
  - intros v w pv pw Fv Fw Eid. rewrite F in Fv, Fw.
    destruct (IMap.find v (vars s)) as [p|] eqn:Fsv;
      destruct (IMap.find w (vars s)) as [q|] eqn:Fsw.
    + injection Fv as <-. injection Fw as <-. eauto.
    + injection Fv as <-.
      destruct (Var.id variable =? Var.id w)%Z; [|discriminate Fw].
      injection Fw as <-. cbn in Eid. destruct (Hty v p Fsv). lia.
    + injection Fw as <-.
      destruct (Var.id variable =? Var.id v)%Z; [|discriminate Fv].
      injection Fv as <-. cbn in Eid. destruct (Hty w q Fsw). lia.
    + destruct (Z.eqb_spec (Var.id variable) (Var.id v)); [|discriminate Fv].
      destruct (Z.eqb_spec (Var.id variable) (Var.id w)); [|discriminate Fw].
      congruence.
  - lia.
  - intros v pr Fv. rewrite F, Fv. reflexivity.
Qed.

Lemma steady_ret {A : Type} (a : A) : steady (ret a).
Proof. apply steady_of_keeps, keeps_ret. Qed.

Lemma _createRow_terms_steady (terms : IMap.t Var.t number) :
  forall row, steady (SolverCore._createRow_terms insertISymbol terms row).
Proof.
  induction terms as [|termPair rest IH]; intro row;
    cbn [SolverCore._createRow_terms].
  - apply steady_ret.
  - destruct (negb (nearZero (snd termPair))); [|apply IH].
    apply steady_bind; [apply _getVarISymbol_steady|]. intro symbol.
    apply steady_bind; [apply steady_of_keeps, keeps_gets|]. intro basicPair.
    destruct basicPair; apply IH.
Qed.

Ltac steady_step :=
  match goal with
  | |- steady (bind _ _) => apply steady_bind; [|intro]
  | |- steady (SolverCore._makeISymbol _) => apply _makeISymbol_steady
  | |- steady (if ?b then _ else _) => destruct b
  | |- steady (match ?x with Some _ => _ | None => _ end) => destruct x
  | |- steady (match ?x with (_, _) => _ end) =>
      let p := fresh "p" in destruct x as [[p|] ?]
  | |- steady (match ?x with Le => _ | Ge => _ | Eq => _ end) => destruct x
  | |- steady _ => apply steady_of_keeps; repeat keeps_step
  end.

Lemma _createRow_steady (cn : Constraint.t) :
  steady (SolverCore._createRow insertISymbol cn).
Proof.
  unfold SolverCore._createRow, SolverCore.objective_insertISymbol.
  cbv zeta.
  apply steady_bind; [apply _createRow_terms_steady|]. intro row.
  repeat steady_step.
Qed.

Lemma _addWithArtificialVariable_steady (fuel : nat) row :
  steady (SolverCore._addWithArtificialVariable insertISymbol fuel row).
Proof.
  unfold SolverCore._addWithArtificialVariable.
  apply steady_bind; [apply _makeISymbol_steady|]. intro art.
  apply steady_of_keeps.
  repeat keeps_step;
    try (apply keeps_books_symbols; apply _optimize_keeps_books);
    try (apply keeps_books_symbols; apply _substitute_keeps_books).
Qed.

Lemma addConstraint_steady (fuel : nat) (cn : Constraint.t) :
  steady (SolverCore.addConstraint insertISymbol allDummies fuel cn).
Proof.
  unfold SolverCore.addConstraint. cbv zeta.
  apply steady_bind; [apply steady_of_keeps, keeps_gets|]. intro registered.
  destruct registered; [apply steady_of_keeps, keeps_throw|].
  apply steady_bind; [apply _createRow_steady|]. intro created.
  apply steady_bind; [apply steady_of_keeps; repeat keeps_step|].
  intro subject.
  apply steady_bind.
  - destruct (isInvalid subject).
    + apply steady_bind; [apply _addWithArtificialVariable_steady|].
      intro added. apply steady_of_keeps. repeat keeps_step.
    + apply steady_of_keeps. repeat keeps_step.
      apply keeps_books_symbols, _substitute_keeps_books.
  - intros _. apply steady_of_keeps. repeat keeps_step.
    apply keeps_books_symbols, _optimize_keeps_books.
Qed.

Lemma removeConstraint_keeps_symbols (fuel : nat) (cn : Constraint.t) :
  keeps symbols
    (SolverCore.removeConstraint insertISymbol _getMarkerLeavingISymbol fuel cn).
Proof.
  unfold SolverCore.removeConstraint. cbv zeta.
  repeat keeps_step;
    try (apply keeps_books_symbols; apply _removeConstraintEffects_keeps_books);
    try (apply keeps_books_symbols; apply _substitute_keeps_books);
    try (apply keeps_books_symbols; apply _optimize_keeps_books).
Qed.

Lemma suggestValue_keeps_symbols (fuel : nat) variable value :
  keeps symbols (SolverCore.suggestValue insertISymbol fuel variable value).
Proof.
  unfold SolverCore.suggestValue, SolverCore.push_infeasible. cbv zeta.
  repeat keeps_step;
    try (apply keeps_books_symbols; apply _dualOptimize_keeps_books).
  apply keeps_modify. intro s.
  now destruct (SolverCore.suggestValue_rows _ _ (rows s) (infeasibleRows s)).
Qed.

Lemma perform_steady (fuel : nat) (call : Call) :
  steady (SolverCore.perform insertISymbol allDummies _getMarkerLeavingISymbol
            fuel call).
Proof.
  destruct call; cbn [SolverCore.perform].
  - unfold SolverCore.createConstraint.
    apply steady_bind; [|intro; apply steady_ret].
    apply steady_bind; [apply steady_of_keeps, keeps_lift|]. intro cn.
    apply steady_bind; [apply addConstraint_steady|].
    intro. apply steady_ret.
  - apply addConstraint_steady.
  - apply steady_of_keeps, removeConstraint_keeps_symbols.
  - unfold SolverCore.addEditVariable. cbv zeta.
    apply steady_bind; [apply steady_of_keeps, keeps_gets|]. intro editPair.
    destruct editPair; [apply steady_of_keeps, keeps_throw|].
    destruct (Qeq_bool _ _); [apply steady_of_keeps, keeps_throw|].
    apply steady_bind; [apply steady_of_keeps, keeps_lift|]. intro expr.
    apply steady_bind; [apply steady_of_keeps, keeps_lift|]. intro cn.
    apply steady_bind; [apply addConstraint_steady|]. intros _.
    apply steady_of_keeps. repeat keeps_step.
  - unfold SolverCore.removeEditVariable.
    apply steady_of_keeps. repeat keeps_step.
    apply removeConstraint_keeps_symbols.
  - apply steady_of_keeps, suggestValue_keeps_symbols.
Qed.

(** Every variable a solver knows has an external symbol of its own, with
    an id below the counter [_idTick]; this holds of a new solver and is kept
    by every call of a public method, whether it returns or throws.  A call
    never lowers the counter and never changes or drops the symbol of a
    variable. *)
Theorem perform_keeps_the_symbols_of_variables (fuel : nat) (call : Call)
  (s : Solver) (r : Result unit) (s' : Solver) :
  vars_ok newSolver
  /\ (SolverCore.perform insertISymbol allDummies _getMarkerLeavingISymbol
        fuel call s = (r, s') ->
      vars_ok s ->
      vars_ok s'
      /\ (idTick s <= idTick s')%Z
      /\ forall v pr, IMap.find v (vars s) = Some pr ->
                      IMap.find v (vars s') = Some pr).
Proof.
  split.
  - split; intros v; intros; discriminate.
  - intros H Hok. exact (perform_steady fuel call s r s' H Hok).
Qed.

End Books.

(** *** [updateVariables] *)

(** The value [updateVariables] gives a variable of symbol [symbol]: the
    constant of the row of the symbol, or 0.0 when the symbol is not
    basic. *)
Definition published (rs : IMap.t ISymbol.t RowBase.t) (symbol : ISymbol.t)
  : number :=
  match IMap.find symbol rs with
  | Some rowPair => RowBase.constant (snd rowPair)
  | None => 0
  end.

Lemma updateVariables_fold (rs : IMap.t ISymbol.t RowBase.t)
  (l : IMap.t Var.t ISymbol.t) :
  IMap_wf l ->
  forall (st : values) (v : Var.t),
    fold_left
      (fun st pr =>
         set_value (fst pr)
           (match IMap.find (snd pr) rs with
            | Some rowPair => RowBase.constant (snd rowPair)
            | None => 0
            end) st)
      l st (Var.id v)
    = match IMap.find v l with
      | Some pr => published rs (snd pr)
      | None => st (Var.id v)
      end.
Proof.
  induction l as [|p l IH]; intros Hwf st v; cbn [fold_left IMap.find];
    [reflexivity|].
  inversion Hwf as [|? ? Hl Hall]; subst.
  rewrite (IH Hl).
  change (key_id (fst p)) with (Var.id (fst p)).
  change (key_id v) with (Var.id v).
  destruct (Z.eqb_spec (Var.id (fst p)) (Var.id v)) as [E|E].
  - rewrite (find_above_head v p l Hall)
      by (change (key_id v) with (Var.id v);
          change (key_id (fst p)) with (Var.id (fst p)); lia).
    unfold set_value. rewrite E, Z.eqb_refl. reflexivity.
  - destruct (IMap.find v l); [reflexivity|].
    unfold set_value.
    destruct (Z.eqb_spec (Var.id v) (Var.id (fst p))); [congruence|].
    reflexivity.
Qed.

(** [updateVariables()] sets the value of every variable the solver knows
    to the constant of the row of its symbol, or to 0.0 when its symbol is
    not basic, and leaves the value of any other variable alone; updating
    twice is updating once. *)
Theorem updateVariables_publishes_the_row_constants (s : Solver)
  (st : values) :
  IMap_wf (vars s) ->
  (forall v : Var.t,
     SolverCore.updateVariables s st (Var.id v)
     = match IMap.find v (vars s) with
       | Some pr => published (rows s) (snd pr)
       | None => st (Var.id v)
       end)
  /\ forall i : Z,
       SolverCore.updateVariables s (SolverCore.updateVariables s st) i
       = SolverCore.updateVariables s st i.
Proof.
  intro Hwf.
  assert (F : forall st0 (v : Var.t),
             SolverCore.updateVariables s st0 (Var.id v)
             = match IMap.find v (vars s) with
               | Some pr => published (rows s) (snd pr)
               | None => st0 (Var.id v)
               end).
  { intros st0 v. unfold SolverCore.updateVariables.
    apply updateVariables_fold. exact Hwf. }
  split; [apply F|].
  intro i. change i with (Var.id (Var.mk i)).
  rewrite (F (SolverCore.updateVariables s st)), (F st).
  now destruct (IMap.find (Var.mk i) (vars s)).
Qed.

Lemma updateVariables_publishes_the_row_constants_witness :
  let s :=
    set_rows [(x_sym, RowBase.mk 5 [])]
      (set_vars [(x, x_sym); (y, y_sym)] newSolver) in
  let st := set_value x 1 (set_value y 2 (set_value (Var.mk 7) 3 initial_values)) in
  SolverCore.updateVariables s st 0%Z = 5
  /\ SolverCore.updateVariables s st 1%Z = 0
  /\ SolverCore.updateVariables s st 7%Z = 3.
Proof.
  intros s st.
  assert (Hwf : IMap_wf (vars s)).
  { repeat constructor. }
  destruct (updateVariables_publishes_the_row_constants s st Hwf) as (F & _).
  split; [exact (F x)|]. split; [exact (F y)|exact (F (Var.mk 7))].
Defined.

(** *** The methods on concrete solvers *)

(** A tableau with the row [slack1 = 5 - error2] and the objective
    [-error2]. *)
Definition solver_before_pivot : Solver :=
  set_objective (RowBase.mk 0 [(error2, -1)])
    (set_rows [(slack1, RowBase.mk 5 [(error2, -1)])] newSolver).

Lemma _optimize_returns_at_an_optimum_witness :
  exists s',
    SolverCore._optimize Row2.insertISymbol 10 TObjective solver_before_pivot
    = (Ok tt, s')
    /\ books s' = books solver_before_pivot
    /\ ((forall cell, In cell (RowBase.cells (target_row TObjective s')) ->
                      snd cell < 0 -> ISymbol.type (fst cell) = Dummy)
        \/ exists cell, In cell (RowBase.cells (target_row TObjective s'))
                        /\ ISymbol.type (fst cell) = Invalid).
Proof.
  set (run := SolverCore._optimize Row2.insertISymbol 10 TObjective).
  exists (state_after run solver_before_pivot).
  assert (H : run solver_before_pivot
              = (Ok tt, state_after run solver_before_pivot))
    by (vm_compute; reflexivity).
  destruct (_optimize_returns_at_an_optimum Row2.insertISymbol 10 TObjective
              solver_before_pivot (Ok tt) _ H) as (B & _ & O).
  split; [exact H|]. split; [exact B|exact (O eq_refl)].
Defined.

Lemma addConstraint_registers_the_constraint_witness :
  exists s',
    Solver2.addConstraint 10 cn_x_le_10 newSolver = (Ok tt, s')
    /\ SolverCore.hasConstraint cn_x_le_10 s' = true
    /\ edits s' = edits newSolver.
Proof.
  unfold Solver2.addConstraint.
  set (run := SolverCore.addConstraint Row2.insertISymbol Row2.allDummies 10
                cn_x_le_10).
  exists (state_after run newSolver).
  assert (H : run newSolver = (Ok tt, state_after run newSolver))
    by (vm_compute; reflexivity).
  destruct (addConstraint_registers_the_constraint Row2.insertISymbol
              Row2.allDummies 10 cn_x_le_10 newSolver (Ok tt) _ H)
    as (_ & R & E).
  split; [exact H|]. split; [exact (proj1 (proj2 (R eq_refl)))|exact E].
Defined.

(** The solver after [x <= 10] is added to a new one. *)
Definition solver_with_x_le_10 : Solver :=
  state_after (Solver2.addConstraint 10 cn_x_le_10) newSolver.

Lemma removeConstraint_unregisters_the_constraint_witness :
  exists s',
    Solver2.removeConstraint 10 cn_x_le_10 solver_with_x_le_10 = (Ok tt, s')
    /\ SolverCore.hasConstraint cn_x_le_10 solver_with_x_le_10 = true
    /\ SolverCore.hasConstraint cn_x_le_10 s' = false.
Proof.
  unfold Solver2.removeConstraint.
  set (run := SolverCore.removeConstraint Row2.insertISymbol
                Solver2._getMarkerLeavingISymbol 10 cn_x_le_10).
  exists (state_after run solver_with_x_le_10).
  assert (H : run solver_with_x_le_10
              = (Ok tt, state_after run solver_with_x_le_10))
    by (vm_compute; reflexivity).
  assert (Hwf : IMap_wf (constraints solver_with_x_le_10)).
  { vm_compute. repeat constructor. }
  assert (Hhas : SolverCore.hasConstraint cn_x_le_10 solver_with_x_le_10
                 = true) by (vm_compute; reflexivity).
  destruct (removeConstraint_unregisters_the_constraint Row2.insertISymbol
              Solver2._getMarkerLeavingISymbol 10 cn_x_le_10
              solver_with_x_le_10 (Ok tt) _ Hwf H) as (_ & R & _).
  split; [exact H|]. split; [exact Hhas|].
  exact (proj1 (proj2 (proj2 (R Hhas)))).
Defined.

Lemma addEditVariable_registers_the_variable_witness :
  exists s',
    Solver2.addEditVariable 10 0 x Strength.strong newSolver = (Ok tt, s')
    /\ SolverCore.hasEditVariable x s' = true
    /\ SolverCore.hasConstraint (edit_constraint 0 x Strength.strong) s' = true
    /\ exists tag,
         constraints s'
         = IMap.insert (edit_constraint 0 x Strength.strong) tag
             (constraints newSolver)
         /\ ISymbol.type (ITag.marker tag) = Error_
         /\ ISymbol.type (ITag.other tag) = Error_.
Proof.
  unfold Solver2.addEditVariable.
  set (run := SolverCore.addEditVariable Row2.insertISymbol Row2.allDummies
                10 0 x Strength.strong).
  exists (state_after run newSolver).
  assert (H : run newSolver = (Ok tt, state_after run newSolver))
    by (vm_compute; reflexivity).
  destruct (addEditVariable_registers_the_variable Row2.insertISymbol
              Row2.allDummies 10 0 x Strength.strong newSolver (Ok tt) _ H)
    as (_ & _ & R).
  destruct (R eq_refl) as (_ & He & Hc & (tag & Hcs & _ & Hty) & _).
  split; [exact H|]. split; [exact He|]. split; [exact Hc|].
  exists tag. split; [exact Hcs|]. apply Hty. reflexivity.
Defined.

(** The solver after [x] is made an edit variable of a new one. *)
Definition solver_editing_x : Solver :=
  state_after (Solver2.addEditVariable 10 0 x Strength.strong) newSolver.

(** The edit variable [x] of that solver. *)
Definition edit_info_x : IEditInfo.t :=
  IEditInfo.mk (ITag.mk (ISymbol.mk Error_ 1) (ISymbol.mk Error_ 2))
    (edit_constraint 0 x Strength.strong) 0.

Lemma removeEditVariable_unregisters_the_variable_witness :
  exists s',
    Solver2.removeEditVariable 10 x solver_editing_x = (Ok tt, s')
    /\ SolverCore.hasEditVariable x solver_editing_x = true
    /\ SolverCore.hasEditVariable x s' = false
    /\ SolverCore.hasConstraint (edit_constraint 0 x Strength.strong) s'
       = false.
Proof.
  unfold Solver2.removeEditVariable.
  set (run := SolverCore.removeEditVariable Row2.insertISymbol
                Solver2._getMarkerLeavingISymbol 10 x).
  exists (state_after run solver_editing_x).
  assert (H : run solver_editing_x
              = (Ok tt, state_after run solver_editing_x))
    by (vm_compute; reflexivity).
  assert (Hwe : IMap_wf (edits solver_editing_x)).
  { vm_compute. repeat constructor. }
  assert (Hwc : IMap_wf (constraints solver_editing_x)).
  { vm_compute. repeat constructor. }
  assert (Hfind : IMap.find x (edits solver_editing_x) = Some (x, edit_info_x))
    by (vm_compute; reflexivity).
  assert (Hhas : SolverCore.hasEditVariable x solver_editing_x = true)
    by (vm_compute; reflexivity).
  destruct (removeEditVariable_unregisters_the_variable Row2.insertISymbol
              Solver2._getMarkerLeavingISymbol 10 x solver_editing_x (Ok tt) _
              Hwe Hwc H) as (_ & R).
  destruct (R (x, edit_info_x) Hfind) as (_ & He & _ & Hc & _).
  split; [exact H|]. split; [exact Hhas|]. split; [exact He|exact Hc].
Defined.

Lemma suggestValue_records_the_value_witness :
  exists s' k info,
    Solver2.suggestValue 10 x 42 solver_editing_x = (Ok tt, s')
    /\ IMap.find x (edits s') = Some (k, info)
    /\ IEditInfo.constant info = 42
    /\ infeasibleRows s' = [].
Proof.
  unfold Solver2.suggestValue.
  set (run := SolverCore.suggestValue Row2.insertISymbol 10 x 42).
  exists (state_after run solver_editing_x).
  assert (H : run solver_editing_x
              = (Ok tt, state_after run solver_editing_x))
    by (vm_compute; reflexivity).
  assert (Hfind : IMap.find x (edits solver_editing_x) = Some (x, edit_info_x))
    by (vm_compute; reflexivity).
  destruct (suggestValue_records_the_value Row2.insertISymbol 10 x 42
              solver_editing_x (Ok tt) _ H) as (_ & R).
  destruct (R (x, edit_info_x) Hfind) as (He & _ & Hi & _).
  destruct (find_insert_same x
              (IEditInfo.mk (IEditInfo.tag (snd (x, edit_info_x)))
                 (IEditInfo.constraint (snd (x, edit_info_x))) 42)
              (edits solver_editing_x)) as (k & F).
  exists k. eexists. split; [exact H|].
  split; [rewrite He; exact F|]. split; [reflexivity|exact (Hi eq_refl)].
Defined.

(** ** The pivots of [_optimize] and the feasibility of the rows *)

(** A tableau is feasible when the constant of every row whose basic symbol
    is not external is at least zero. *)
Definition feasible (rs : IMap.t ISymbol.t RowBase.t) : Prop :=
  forall pr, In pr rs -> ISymbol.type (fst pr) <> External ->
             0 <= RowBase.constant (snd pr).

(** Every row keeps its cells sorted by id, one cell per id. *)
Definition cells_wf (rs : IMap.t ISymbol.t RowBase.t) : Prop :=
  forall pr, In pr rs -> IMap_wf (RowBase.cells (snd pr)).

(** What a pivot of [_optimize] maintains: one row per basic symbol, one cell
    per symbol in each row, and feasibility. *)
Definition tableau_ok (s : Solver) : Prop :=
  IMap_wf (rows s) /\ cells_wf (rows s) /\ feasible (rows s).

Section MembersOfMaps.
Context {K V : Type} {HK : Keyed K}.

Lemma In_remove (k : K) (p : K * V) (m : IMap.t K V) :
  In p (IMap.remove k m) -> In p m.
Proof.
  induction m as [|q m IH]; simpl; [tauto|].
  destruct (key_id (fst q) =? key_id k)%Z; simpl.
  - intro H. now right.
  - intros [<-|H]; [now left|right; exact (IH H)].
Qed.

Lemma In_insert (k : K) (v : V) (p : K * V) (m : IMap.t K V) :
  In p (IMap.insert k v m) -> snd p = v \/ In p m.
Proof.
  induction m as [|q m IH]; simpl.
  - intros [<-|[]]. now left.
  - destruct (key_id k <? key_id (fst q))%Z; simpl.
    + intros [<-|H]; [now left|now right].
    + destruct (key_id k =? key_id (fst q))%Z; simpl.
      * intros [<-|H]; [now left|right; now right].
      * intros [<-|H]; [right; now left|].
        destruct (IH H) as [E|Hin]; [now left|right; now right].
Qed.

Lemma In_mapValues (f : V -> V) (p : K * V) (m : IMap.t K V) :
  In p (IMap.mapValues f m) ->
  exists q, In q m /\ p = (fst q, f (snd q)).
Proof.
  unfold IMap.mapValues. intro H. apply in_map_iff in H.
  destruct H as (q & E & Hin). exists q. split; [exact Hin|now rewrite E].
Qed.

(** In a map with one entry per id, an entry is the one [find] returns for
    its key. *)
Lemma wf_find_In (p : K * V) (m : IMap.t K V) :
  IMap_wf m -> In p m -> IMap.find (fst p) m = Some p.
Proof.
  intro Hwf. induction m as [|q m IH]; simpl; [tauto|].
  inversion Hwf as [|? ? Hm Hall]; subst.
  intros [->|Hin].
  - now rewrite Z.eqb_refl.
  - destruct (Z.eqb_spec (key_id (fst q)) (key_id (fst p))) as [E|E].
    + exfalso. rewrite Forall_forall in Hall.
      specialize (Hall p Hin). unfold key_lt in Hall. lia.
    + exact (IH Hm Hin).
Qed.

End MembersOfMaps.

(** The arithmetic of a pivot.  The constant of the row solved for the
    entering symbol lies between zero and the ratio of the leaving row. *)
Lemma pivot_constant (c a a' : Q) :
  0 <= c -> a' <= a -> a < 0 ->
  0 <= c * (-1 / a') /\ c * (-1 / a') <= - c / a.
Proof.
  intros Hc Hle Ha.
  assert (Ha' : a' < 0) by lra.
  assert (E' : -1 / a' == / (- a')) by (field; lra).
  assert (E : - c / a == c * / (- a)) by (field; lra).
  assert (P' : 0 < / (- a')) by (apply Qinv_lt_0_compat; lra).
  assert (P : 0 < / (- a)) by (apply Qinv_lt_0_compat; lra).
  assert (Hinv : / (- a') <= / (- a)).
  { apply Qle_shift_inv_r; [lra|].
    assert (U : / (- a) * (- a) == 1) by (field; lra).
    nra. }
  rewrite E', E. split; nra.
Qed.

(** The constant of another row after the substitution. *)
Lemma substituted_constant (c t a r : Q) :
  0 <= c -> 0 <= t -> (a < 0 -> t <= r /\ r == - c / a) -> 0 <= c + t * a.
Proof.
  intros Hc Ht Hr.
  destruct (Qlt_le_dec a 0) as [Ha|Ha]; [|nra].
  destruct (Hr Ha) as [Hle E].
  assert (U : r * a == - c) by (rewrite E; field; lra).
  nra.
Qed.

Section Pivot.
Variable insertISymbol : ISymbol.t -> number -> RowBase.t -> RowBase.t.

(** What the argument needs of [insertISymbol]; both revisions of the method
    have these properties. *)
Hypothesis insert_constant :
  forall symbol c this,
    RowBase.constant (insertISymbol symbol c this) = RowBase.constant this.
Hypothesis insert_wf :
  forall symbol c this,
    IMap_wf (RowBase.cells this) ->
    IMap_wf (RowBase.cells (insertISymbol symbol c this)).
Hypothesis insert_minus_one :
  forall lhs rhs this cell cell',
    IMap_wf (RowBase.cells this) ->
    IMap.find rhs (RowBase.cells this) = Some cell ->
    snd cell < 0 ->
    IMap.find rhs (RowBase.cells (insertISymbol lhs (-1) this)) = Some cell' ->
    snd cell' <= snd cell.

Lemma insertRow_fold_constant (coefficient : number)
  (cells : IMap.t ISymbol.t number) :
  forall this : RowBase.t,
    let row' :=
      fold_left
        (fun this pr => insertISymbol (fst pr) (snd pr * coefficient) this)
        cells this in
    RowBase.constant row' = RowBase.constant this
    /\ (IMap_wf (RowBase.cells this) -> IMap_wf (RowBase.cells row')).
Proof.
  induction cells as [|c cells IH]; intro this; cbn [fold_left].
  - split; [reflexivity|auto].
  - destruct (IH (insertISymbol (fst c) (snd c * coefficient) this))
      as [C W].
    split.
    + now rewrite C, insert_constant.
    + intro Hwf. apply W. now apply insert_wf.
Qed.

Lemma substitute_constant (symbol : ISymbol.t) (row this : RowBase.t) :
  let this' := RowBase.substitute insertISymbol symbol row this in
  RowBase.constant this'
  = match IMap.find symbol (RowBase.cells this) with
    | Some cell =>
        RowBase.constant this + RowBase.constant row * snd cell
    | None => RowBase.constant this
    end
  /\ (IMap_wf (RowBase.cells this) -> IMap_wf (RowBase.cells this')).
Proof.
  unfold RowBase.substitute, IMap.erase.
  destruct (IMap.find symbol (RowBase.cells this)) as [cell|];
    [|split; [reflexivity|auto]].
  unfold RowBase.insertRow.
  destruct (insertRow_fold_constant (snd cell) (RowBase.cells row)
              (RowBase.mk
                 (RowBase.constant
                    (RowBase.mk (RowBase.constant this)
                       (IMap.remove symbol (RowBase.cells this)))
                  + RowBase.constant row * snd cell)
                 (RowBase.cells
                    (RowBase.mk (RowBase.constant this)
                       (IMap.remove symbol (RowBase.cells this))))))
    as [C W].
  cbv zeta. split.
  - rewrite C. reflexivity.
  - intro Hwf. apply W. cbn [RowBase.cells].
    now apply (wf_remove (HK := ISymbol_Keyed)).
Qed.

Lemma solveFor_constant (symbol : ISymbol.t) (this row : RowBase.t) :
  RowBase.solveFor symbol this = Ok row ->
  exists cell,
    IMap.find symbol (RowBase.cells this) = Some cell
    /\ RowBase.constant row = RowBase.constant this * (-1 / snd cell)
    /\ (IMap_wf (RowBase.cells this) -> IMap_wf (RowBase.cells row)).
Proof.
  unfold RowBase.solveFor, IMap.erase.
  destruct (IMap.find symbol (RowBase.cells this)) as [cell|];
    [|discriminate].
  intro H. injection H as <-. exists cell.
  split; [reflexivity|]. split; [reflexivity|].
  intro Hwf. cbn [RowBase.cells].
  apply (wf_mapValues (HK := ISymbol_Keyed)).
  now apply (wf_remove (HK := ISymbol_Keyed)).
Qed.

(** The loop of [_substitute] replaces every row by its substitution and
    keeps the basic symbols. *)
Lemma _substitute_rows_map (symbol : ISymbol.t) (row : RowBase.t)
  (rs : IMap.t ISymbol.t RowBase.t) :
  forall infeasible,
    fst (SolverCore._substitute_rows insertISymbol symbol row rs infeasible)
    = IMap.mapValues (RowBase.substitute insertISymbol symbol row) rs.
Proof.
  induction rs as [|pr rs IH]; intro infeasible;
    cbn [SolverCore._substitute_rows]; [reflexivity|].
  match goal with
  | |- context [SolverCore._substitute_rows insertISymbol symbol row rs ?i] =>
      specialize (IH i);
      destruct (SolverCore._substitute_rows insertISymbol symbol row rs i)
        as [rest' infeasible']
  end.
  cbn [fst] in *. unfold IMap.mapValues in *. cbn [List.map].
  rewrite IH. reflexivity.
Qed.

Lemma rows_after_substitute (symbol : ISymbol.t) (row : RowBase.t)
  (s : Solver) :
  rows (state_after (SolverCore._substitute insertISymbol symbol row) s)
  = IMap.mapValues (RowBase.substitute insertISymbol symbol row) (rows s).
Proof.
  unfold state_after, SolverCore._substitute, modify. cbn [snd].
  rewrite <- (_substitute_rows_map symbol row (rows s) (infeasibleRows s)).
  destruct (SolverCore._substitute_rows insertISymbol symbol row (rows s)
              (infeasibleRows s)) as [rows' infeasible'].
  cbn [fst].
  destruct (artificial
              (set_objective _
                 (set_infeasibleRows infeasible' (set_rows rows' s))));
    reflexivity.
Qed.

(** One pivot: the row of the leaving symbol is taken out and solved for the
    entering symbol, the entering symbol is substituted in the other rows,
    and the solved row is put back under the entering symbol. *)
Lemma pivot_keeps_feasible (rs : IMap.t ISymbol.t RowBase.t)
  (entering : ISymbol.t) (pr : ISymbol.t * RowBase.t) (row : RowBase.t) :
  IMap_wf rs -> cells_wf rs -> feasible rs ->
  let leaving := SolverCore._getLeavingISymbol rs entering in
  isInvalid leaving = false ->
  IMap.find leaving rs = Some pr ->
  RowBase.solveForEx insertISymbol leaving entering (snd pr) = Ok row ->
  let rs' :=
    IMap.insert entering row
      (IMap.mapValues (RowBase.substitute insertISymbol entering row)
         (IMap.remove leaving rs)) in
  IMap_wf rs' /\ cells_wf rs' /\ feasible rs'.
Proof.
  intros Hwf Hcells Hfeas leaving Hvalid Hfind Hsolve rs'.
  (* the leaving row is the first one of the least ratio *)
  assert (Hleast :
    exists pl, In pl rs /\ leaving = fst pl
      /\ leaving_candidate entering pl = true
      /\ forall q, In q rs -> leaving_candidate entering q = true ->
                   leaving_ratio entering pl <= leaving_ratio entering q).
  { subst leaving. unfold SolverCore._getLeavingISymbol in *.
    rewrite _getLeavingISymbol_from_scan in *.
    destruct (least_scan (leaving_candidate entering)
                (leaving_ratio entering) rs (MAX_VALUE, INVALID_SYMBOL))
      as [Hnone Hsome].
    cbn [fst] in Hnone, Hsome.
    destruct (below_or_none (leaving_candidate entering)
                (leaving_ratio entering) rs MAX_VALUE) as [Hex|Hno].
    - destruct (Hsome Hex) as (before & pl & after & E & Hc & R & _ & Hb & Ha).
      exists pl. rewrite R. cbn [snd].
      split; [rewrite E; apply in_or_app; right; now left|].
      split; [reflexivity|]. split; [exact Hc|].
      intros q Hq Hcq. rewrite E in Hq. apply in_app_or in Hq.
      destruct Hq as [Hq|[<-|Hq]].
      + apply Qlt_le_weak. now apply Hb.
      + apply Qle_refl.
      + now apply Ha.
    - rewrite (Hnone Hno) in Hvalid. discriminate Hvalid. }
  destruct Hleast as (pl & Hin & El & Hcl & Hmin).
  assert (Epr : pr = pl).
  { pose proof (wf_find_In (HK := ISymbol_Keyed) pl rs Hwf Hin) as F.
    rewrite <- El, Hfind in F. now injection F. }
  subst pl.
  (* the leaving row: restricted, feasible, negative coefficient *)
  unfold leaving_candidate in Hcl. apply andb_true_iff in Hcl.
  destruct Hcl as [Hrestricted Hneg].
  assert (Htype : ISymbol.type (fst pr) <> External).
  { intro E. rewrite E in Hrestricted. discriminate Hrestricted. }
  pose proof (Hfeas pr Hin Htype) as Hc.
  pose proof (Hcells pr Hin) as Hwfl.
  apply Qlt_bool_iff in Hneg. unfold RowBase.coefficientFor in Hneg.
  destruct (IMap.find entering (RowBase.cells (snd pr))) as [cell|] eqn:Hcell;
    [|exfalso; exact (Qlt_irrefl 0 Hneg)].
  (* the solved row *)
  unfold RowBase.solveForEx in Hsolve.
  destruct (solveFor_constant _ _ _ Hsolve) as (cell' & Hcell' & Crow & Wrow).
  rewrite insert_constant in Crow.
  pose proof (insert_minus_one leaving entering (snd pr) cell cell'
                Hwfl Hcell Hneg Hcell') as Hle.
  destruct (pivot_constant (RowBase.constant (snd pr)) (snd cell) (snd cell')
              Hc Hle Hneg) as [Ht0 Ht].
  rewrite <- Crow in Ht0, Ht.
  assert (Eratio : leaving_ratio entering pr
                   = - RowBase.constant (snd pr) / snd cell).
  { unfold leaving_ratio, RowBase.coefficientFor. now rewrite Hcell. }
  assert (Hwfrow : IMap_wf (RowBase.cells row)).
  { apply Wrow. now apply insert_wf. }
  subst rs'. split; [|split].
  - apply (wf_insert (HK := ISymbol_Keyed)).
    apply (wf_mapValues (HK := ISymbol_Keyed)).
    now apply (wf_remove (HK := ISymbol_Keyed)).
  - intros p Hp.
    apply (In_insert (HK := ISymbol_Keyed)) in Hp.
    destruct Hp as [->|Hp]; [exact Hwfrow|].
    apply In_mapValues in Hp.
    destruct Hp as (q & Hq & ->). cbn [snd].
    apply (In_remove (HK := ISymbol_Keyed)) in Hq.
    apply (proj2 (substitute_constant entering row (snd q))).
    exact (Hcells q Hq).
  - intros p Hp Hptype.
    apply (In_insert (HK := ISymbol_Keyed)) in Hp.
    destruct Hp as [->|Hp]; [exact Ht0|].
    apply In_mapValues in Hp.
    destruct Hp as (q & Hq & ->). cbn [fst snd] in *.
    apply (In_remove (HK := ISymbol_Keyed)) in Hq.
    rewrite (proj1 (substitute_constant entering row (snd q))).
    pose proof (Hfeas q Hq Hptype) as Hcq.
    destruct (IMap.find entering (RowBase.cells (snd q))) as [cq|] eqn:Hfq;
      [|exact Hcq].
    apply (substituted_constant _ _ _ (leaving_ratio entering q) Hcq Ht0).
    intro Hnegq.
    assert (Hcand : leaving_candidate entering q = true).
    { unfold leaving_candidate. apply andb_true_iff. split.
      - destruct (ISymbol.type (fst q)); try reflexivity. congruence.
      - apply Qlt_bool_iff. unfold RowBase.coefficientFor. now rewrite Hfq. }
    split.
    + eapply Qle_trans; [exact Ht|]. rewrite <- Eratio. now apply Hmin.
    + unfold leaving_ratio, RowBase.coefficientFor. rewrite Hfq.
      reflexivity.
Qed.

Lemma _optimize_keeps_tableau (fuel : nat) (target : Target) :
  forall s r s',
    SolverCore._optimize insertISymbol fuel target s = (r, s') ->
    tableau_ok s -> tableau_ok s'.
Proof.
  induction fuel as [|fuel IH]; intros s r s' H Hok;
    cbn [SolverCore._optimize] in H.
  - injection H as _ <-. exact Hok.
  - unfold bind at 1, gets in H.
    destruct (isInvalid (SolverCore._getEnteringISymbol (target_row target s)))
      in H; [injection H as _ <-; exact Hok|].
    unfold bind at 1, gets in H.
    remember (SolverCore._getEnteringISymbol (target_row target s))
      as entering eqn:Eentering.
    destruct (isInvalid (SolverCore._getLeavingISymbol (rows s) entering))
      eqn:Hleaving; [injection H as _ <-; exact Hok|].
    unfold IMap.erase in H.
    destruct (IMap.find (SolverCore._getLeavingISymbol (rows s) entering)
                (rows s)) as [pr|] eqn:Hfind;
      [|injection H as _ <-; exact Hok].
    unfold bind at 1, modify in H.
    unfold bind at 1, lift in H.
    destruct Hok as (Hwf & Hcells & Hfeas).
    destruct (SolverCore.solveForEx insertISymbol _ entering (snd pr))
      as [row|e] eqn:Hsolve.
    + unfold bind at 1 in H.
      pose proof (rows_after_substitute entering row
                    (set_rows (IMap.remove
                                 (SolverCore._getLeavingISymbol (rows s)
                                    entering) (rows s)) s)) as Hrows.
      unfold state_after in Hrows.
      destruct (SolverCore._substitute insertISymbol entering row _)
        as [[[]|e] s2] eqn:Hsub in H, Hrows.
      * cbn [snd] in Hrows.
        unfold bind at 1, modify in H.
        apply (IH _ _ _ H).
        unfold tableau_ok. cbn [rows set_rows]. rewrite Hrows.
        cbn [rows set_rows].
        exact (pivot_keeps_feasible (rows s) entering pr row
                 Hwf Hcells Hfeas Hleaving Hfind Hsolve).
      * unfold SolverCore._substitute, modify in Hsub. discriminate Hsub.
    + injection H as _ <-. unfold tableau_ok. cbn [rows set_rows].
      split; [now apply (wf_remove (HK := ISymbol_Keyed))|].
      split.
      * intros p Hp. apply (In_remove (HK := ISymbol_Keyed)) in Hp.
        exact (Hcells p Hp).
      * intros p Hp. apply (In_remove (HK := ISymbol_Keyed)) in Hp.
        exact (Hfeas p Hp).
Qed.

End Pivot.

(** *** Both revisions of [insertISymbol] fit *)

Lemma Row_insertISymbol_wf (symbol : ISymbol.t) (c : number)
  (this : RowBase.t) :
  IMap_wf (RowBase.cells this) ->
  IMap_wf (RowBase.cells (Row.insertISymbol symbol c this)).
Proof.
  intro Hwf. unfold Row.insertISymbol, IMap.setDefault, IMap.erase.
  destruct (IMap.find symbol (RowBase.cells this)) as [p|]; cbn [snd fst];
    match goal with
    | |- context [nearZero ?v] => destruct (nearZero v)
    end; cbn [RowBase.cells snd];
    repeat first [ assumption
                 | apply (wf_remove (HK := ISymbol_Keyed))
                 | apply (wf_insert (HK := ISymbol_Keyed)) ].
Qed.

Lemma Row_insertISymbol_minus_one (lhs rhs : ISymbol.t) (this : RowBase.t)
  (cell cell' : ISymbol.t * number) :
  IMap_wf (RowBase.cells this) ->
  IMap.find rhs (RowBase.cells this) = Some cell ->
  snd cell < 0 ->
  IMap.find rhs (RowBase.cells (Row.insertISymbol lhs (-1) this)) = Some cell' ->
  snd cell' <= snd cell.
Proof.
  intros Hwf Hcell Hneg Hcell'.
  destruct (Z.eq_dec (ISymbol.id rhs) (ISymbol.id lhs)) as [E|E].
  - rewrite (find_same_id (HK := ISymbol_Keyed) rhs lhs _ E) in Hcell.
    rewrite (find_same_id (HK := ISymbol_Keyed) rhs lhs _ E) in Hcell'.
    revert Hcell'.
    unfold Row.insertISymbol, IMap.setDefault, IMap.erase.
    rewrite Hcell. cbn [snd].
    destruct (nearZero (snd cell)); cbn [RowBase.cells].
    + rewrite (find_remove_same (HK := ISymbol_Keyed) lhs _ Hwf). discriminate.
    + rewrite Hcell. intro H. injection H as <-. apply Qle_refl.
  - rewrite (Row_insertISymbol_other lhs rhs (-1) this E), Hcell in Hcell'.
    injection Hcell' as <-. apply Qle_refl.
Qed.

Lemma Row2_insertISymbol_constant (symbol : ISymbol.t) (c : number)
  (this : RowBase.t) :
  RowBase.constant (Row2.insertISymbol symbol c this) = RowBase.constant this.
Proof.
  rewrite Row2_insertISymbol_cases. cbv zeta.
  now destruct (nearZero _).
Qed.

Lemma Row2_insertISymbol_wf (symbol : ISymbol.t) (c : number)
  (this : RowBase.t) :
  IMap_wf (RowBase.cells this) ->
  IMap_wf (RowBase.cells (Row2.insertISymbol symbol c this)).
Proof.
  intro Hwf.
  exact (proj2 (proj2 (proj2 (Row2_insertISymbol_cellOf symbol c this Hwf)))).
Qed.

Lemma Row2_insertISymbol_minus_one (lhs rhs : ISymbol.t) (this : RowBase.t)
  (cell cell' : ISymbol.t * number) :
  IMap_wf (RowBase.cells this) ->
  IMap.find rhs (RowBase.cells this) = Some cell ->
  snd cell < 0 ->
  IMap.find rhs (RowBase.cells (Row2.insertISymbol lhs (-1) this)) = Some cell' ->
  snd cell' <= snd cell.
Proof.
  intros Hwf Hcell Hneg Hcell'.
  destruct (Row2_insertISymbol_cellOf lhs (-1) this Hwf)
    as (Hsame & Hother & _ & _).
  cbv zeta in Hsame.
  assert (Hc : cellOf rhs this = Some (snd cell))
    by (unfold cellOf; now rewrite Hcell).
  assert (Hc' : cellOf rhs (Row2.insertISymbol lhs (-1) this)
                = Some (snd cell'))
    by (unfold cellOf; now rewrite Hcell').
  destruct (Z.eq_dec (ISymbol.id rhs) (ISymbol.id lhs)) as [E|E].
  - rewrite (cellOf_same_id rhs lhs _ E) in Hc.
    rewrite (cellOf_same_id rhs lhs _ E) in Hc'.
    rewrite Hsame, coefficientFor_cellOf, Hc in Hc'.
    destruct (nearZero (snd cell + -1)); [discriminate Hc'|].
    injection Hc' as <-. lra.
  - rewrite (Hother rhs E), Hc in Hc'. injection Hc' as <-. apply Qle_refl.
Qed.

(** Both revisions, on exact numbers: the pivots of [_optimize] keep a
    feasible tableau feasible.  When the solver holds one row per basic
    symbol, every row one cell per symbol, and every row whose basic symbol
    is not external a constant of at least zero, the same is true of the
    solver [_optimize] leaves behind, whether it returns or throws: the ratio
    test of [_getLeavingISymbol] picks the leaving row so that no constant
    becomes negative.  This is a fact of the algorithm: the quotients and
    products of a pivot are rounded on JavaScript numbers, and a constant
    that is zero here can come out a rounding error below zero there. *)
Lemma _optimize_keeps_the_rows_feasible (fuel : nat) (target : Target)
  (s : Solver) (r : Result unit) (s' : Solver) :
  tableau_ok s ->
  SolverCore._optimize Row.insertISymbol fuel target s = (r, s')
  \/ SolverCore._optimize Row2.insertISymbol fuel target s = (r, s') ->
  tableau_ok s'.
Proof.
  intros Hok [H|H].
  - exact (_optimize_keeps_tableau Row.insertISymbol
             Row_insertISymbol_constant Row_insertISymbol_wf
             Row_insertISymbol_minus_one fuel target s r s' H Hok).
  - exact (_optimize_keeps_tableau Row2.insertISymbol
             Row2_insertISymbol_constant Row2_insertISymbol_wf
             Row2_insertISymbol_minus_one fuel target s r s' H Hok).
Qed.

Lemma _optimize_keeps_the_rows_feasible_witness :
  exists s',
    SolverCore._optimize Row2.insertISymbol 10 TObjective solver_before_pivot
    = (Ok tt, s')
    /\ rows s' = [(error2, RowBase.mk 5 [(slack1, -1)])]
    /\ tableau_ok s'.
Proof.
  set (run := SolverCore._optimize Row2.insertISymbol 10 TObjective).
  exists (state_after run solver_before_pivot).
  assert (H : run solver_before_pivot
              = (Ok tt, state_after run solver_before_pivot))
    by (vm_compute; reflexivity).
  assert (R : rows (state_after run solver_before_pivot)
              = [(error2, RowBase.mk 5 [(slack1, -1)])])
    by (vm_compute; reflexivity).
  assert (Hok : tableau_ok solver_before_pivot).
  { split; [repeat constructor|]. split.
    - intros pr [<-|[]]. repeat constructor.
    - intros pr [<-|[]] _. cbn. lra. }
  split; [exact H|]. split; [exact R|].
  exact (_optimize_keeps_the_rows_feasible 10 TObjective solver_before_pivot
           (Ok tt) _ Hok (or_intror H)).
Defined.

(** ** [_substitute] over the tableau *)

Section Flags.
Variable insertISymbol : ISymbol.t -> number -> RowBase.t -> RowBase.t.

(** The loop of [_substitute] pushes the basic symbol of a row exactly when
    the row has a negative constant afterwards and the symbol is not
    external; it takes nothing off [_infeasibleRows]. *)
Lemma _substitute_rows_flags (symbol : ISymbol.t) (row : RowBase.t)
  (rs : IMap.t ISymbol.t RowBase.t) :
  forall infeasible,
    let res :=
      SolverCore._substitute_rows insertISymbol symbol row rs infeasible in
    (forall k, In k infeasible -> In k (snd res))
    /\ (forall pr, In pr (fst res) ->
          RowBase.constant (snd pr) < 0 ->
          ISymbol.type (fst pr) <> External ->
          In (fst pr) (snd res))
    /\ (forall k, In k (snd res) ->
          In k infeasible
          \/ exists pr, In pr (fst res) /\ fst pr = k
                        /\ RowBase.constant (snd pr) < 0
                        /\ ISymbol.type k <> External).
Proof.
  induction rs as [|pr rs IH]; intro infeasible;
    cbn [SolverCore._substitute_rows].
  - cbn. repeat split; auto. intros pr [].
  - set (second := SolverCore.substitute insertISymbol symbol row (snd pr)).
    set (cond := Qlt_bool (RowBase.constant second) 0
                 && negb (ISymbolType_eqb (ISymbol.type (fst pr)) External)).
    specialize (IH (if cond then fst pr :: infeasible else infeasible)).
    destruct (SolverCore._substitute_rows insertISymbol symbol row rs
                (if cond then fst pr :: infeasible else infeasible))
      as [rest' infeasible'].
    cbn [fst snd] in *. destruct IH as (Hkeep & Hflag & Honly).
    assert (Hcond : cond = true <->
                    RowBase.constant second < 0
                    /\ ISymbol.type (fst pr) <> External).
    { subst cond. rewrite andb_true_iff, Qlt_bool_iff, negb_true_iff.
      split; intros [H1 H2]; (split; [exact H1|]).
      - intro E. rewrite E in H2. discriminate H2.
      - destruct (ISymbol.type (fst pr)); try reflexivity. congruence. }
    split; [|split].
    + intros k Hk. apply Hkeep. destruct cond; [now right|exact Hk].
    + intros p [<-|Hp] Hneg Htype.
      * cbn [fst snd] in *. apply Hkeep.
        rewrite (proj2 Hcond (conj Hneg Htype)). now left.
      * now apply Hflag.
    + intros k Hk. destruct (Honly k Hk) as [Hin|(p & Hp & E & Hneg & Ht)].
      * destruct cond eqn:Ec; [|now left].
        destruct Hin as [<-|Hin]; [|now left].
        right. exists (fst pr, second). cbn [fst snd].
        destruct (proj1 Hcond eq_refl) as [Hneg Ht].
        split; [now left|]. repeat split; assumption.
      * right. exists p. split; [now right|]. repeat split; assumption.
Qed.

(** The fields of the solver after [_substitute]. *)
Lemma _substitute_fields (symbol : ISymbol.t) (row : RowBase.t) (s : Solver) :
  let s' := state_after (SolverCore._substitute insertISymbol symbol row) s in
  let res :=
    SolverCore._substitute_rows insertISymbol symbol row (rows s)
      (infeasibleRows s) in
  rows s' = fst res
  /\ infeasibleRows s' = snd res
  /\ objective s' = RowBase.substitute insertISymbol symbol row (objective s)
  /\ artificial s'
     = option_map (RowBase.substitute insertISymbol symbol row) (artificial s)
  /\ books s' = books s.
Proof.
  unfold state_after, SolverCore._substitute, modify. cbn [snd].
  destruct (SolverCore._substitute_rows insertISymbol symbol row (rows s)
              (infeasibleRows s)) as [rows' infeasible'].
  cbn [fst snd].
  destruct s as [cns rs vs es inf obj art]. cbn.
  destruct art; cbn; repeat split; reflexivity.
Qed.

End Flags.

Lemma Row2_substitute_absent (symbol : ISymbol.t) (row this : RowBase.t) :
  IMap_wf (RowBase.cells this) -> IMap_wf (RowBase.cells row) ->
  has symbol row = false ->
  has symbol (Row2.substitute symbol row this) = false
  /\ IMap_wf (RowBase.cells (Row2.substitute symbol row this)).
Proof.
  intros Hthis Hrow Habsent.
  unfold Row2.substitute, RowBase.substitute, IMap.erase.
  destruct (IMap.find symbol (RowBase.cells this)) as [pr|] eqn:Hfind.
  - set (this0 := RowBase.mk (RowBase.constant this)
                    (IMap.remove symbol (RowBase.cells this))).
    assert (Hwf0 : IMap_wf (RowBase.cells this0))
      by (apply wf_remove, Hthis).
    destruct (Row2_insertRow_cellOf row (snd pr) this0 Hwf0 Hrow)
      as (_ & W & F).
    fold (Row2.insertRow row (snd pr) this0).
    split; [|exact W].
    rewrite has_cellOf, F.
    rewrite has_cellOf in Habsent.
    destruct (cellOf symbol row); [discriminate Habsent|].
    cbn [added]. unfold cellOf, this0. cbn [RowBase.cells].
    now rewrite (find_remove_same symbol _ Hthis).
  - split; [|exact Hthis].
    unfold has, IMap.contains. now rewrite Hfind.
Qed.

(** solver.ts, second revision: [_substitute(symbol, row)] with a [row] that
    does not hold the symbol.  The basic symbols stay as they are; afterwards
    no row of the tableau, nor the objective, nor the artificial row holds the
    symbol; every row that then has a negative constant and a basic symbol
    that is not external is on [_infeasibleRows], from which nothing was
    taken and on which only such rows were put; the registry of constraints,
    the symbols of the variables, the edit variables and the counter of ids
    are untouched. *)
Theorem rev2_substitute_clears_the_symbol (symbol : ISymbol.t)
  (row : RowBase.t) (s : Solver) :
  cells_wf (rows s) -> IMap_wf (RowBase.cells (objective s)) ->
  (forall a, artificial s = Some a -> IMap_wf (RowBase.cells a)) ->
  IMap_wf (RowBase.cells row) -> has symbol row = false ->
  let s' := state_after (SolverCore._substitute Row2.insertISymbol symbol row) s in
  List.map fst (rows s') = List.map fst (rows s)
  /\ cells_wf (rows s')
  /\ (forall pr, In pr (rows s') -> has symbol (snd pr) = false)
  /\ has symbol (objective s') = false
  /\ (forall a, artificial s' = Some a -> has symbol a = false)
  /\ (forall pr, In pr (rows s') ->
        RowBase.constant (snd pr) < 0 ->
        ISymbol.type (fst pr) <> External ->
        In (fst pr) (infeasibleRows s'))
  /\ (forall k, In k (infeasibleRows s) -> In k (infeasibleRows s'))
  /\ (forall k, In k (infeasibleRows s') ->
        In k (infeasibleRows s)
        \/ exists pr, In pr (rows s') /\ fst pr = k
                      /\ RowBase.constant (snd pr) < 0
                      /\ ISymbol.type k <> External)
  /\ books s' = books s.
Proof.
  intros Hcells Hobj Hart Hrow Habsent s'.
  destruct (_substitute_fields Row2.insertISymbol symbol row s)
    as (Rrows & Rinf & Robj & Rart & B).
  fold s' in Rrows, Rinf, Robj, Rart, B.
  pose proof (_substitute_rows_flags Row2.insertISymbol symbol row (rows s)
                (infeasibleRows s)) as HF.
  cbv zeta in HF. rewrite <- Rrows, <- Rinf in HF.
  destruct HF as (Hkeep & Hflag & Honly).
  assert (Rmap : rows s'
                 = IMap.mapValues (Row2.substitute symbol row) (rows s)).
  { rewrite Rrows. apply _substitute_rows_map. }
  assert (Hsub : forall pr, In pr (rows s') ->
            has symbol (snd pr) = false /\ IMap_wf (RowBase.cells (snd pr))).
  { intros pr Hpr. rewrite Rmap in Hpr. apply In_mapValues in Hpr.
    destruct Hpr as (q & Hq & ->). cbn [snd].
    apply Row2_substitute_absent; auto. }
  split.
  { rewrite Rmap. unfold IMap.mapValues. rewrite List.map_map.
    apply List.map_ext. reflexivity. }
  split; [intros pr Hpr; exact (proj2 (Hsub pr Hpr))|].
  split; [intros pr Hpr; exact (proj1 (Hsub pr Hpr))|].
  split.
  { rewrite Robj. apply Row2_substitute_absent; auto. }
  split.
  { intros a Ha. rewrite Rart in Ha.
    destruct (artificial s) as [a0|]; [|discriminate Ha].
    injection Ha as <-. apply Row2_substitute_absent; auto. }
  split; [exact Hflag|]. split; [exact Hkeep|]. split; [exact Honly|exact B].
Qed.

Lemma rev2_substitute_clears_the_symbol_witness :
  let s :=
    set_objective (RowBase.mk 0 [(error2, 1)])
      (set_rows [(slack1, RowBase.mk 5 [(error2, -1)]);
                 (slack3, RowBase.mk 3 [(error2, -2)])] newSolver) in
  let row := RowBase.mk 4 [(slack5, -1)] in
  let s' := state_after (SolverCore._substitute Row2.insertISymbol error2 row) s in
  List.map fst (rows s') = [slack1; slack3]
  /\ has error2 (objective s') = false
  /\ In slack3 (infeasibleRows s').
Proof.
  intros s row s'.
  assert (Hcells : cells_wf (rows s)).
  { intros pr [<-|[<-|[]]]; repeat constructor. }
  assert (Hobj : IMap_wf (RowBase.cells (objective s))).
  { repeat constructor. }
  assert (Hart : forall a, artificial s = Some a -> IMap_wf (RowBase.cells a)).
  { intros a Ha. discriminate Ha. }
  assert (Hrow : IMap_wf (RowBase.cells row)).
  { repeat constructor. }
  destruct (rev2_substitute_clears_the_symbol error2 row s Hcells Hobj Hart
              Hrow eq_refl) as (K & _ & _ & O & _ & F & _).
  fold s' in K, O, F.
  split; [exact K|]. split; [exact O|].
  assert (Hin : In (slack3, RowBase.mk (-5) [(slack5, 2)]) (rows s')).
  { assert (R : rows s' = [(slack1, RowBase.mk 1 [(slack5, 1)]);
                           (slack3, RowBase.mk (-5) [(slack5, 2)])])
      by (vm_compute; reflexivity).
    rewrite R. right. now left. }
  apply (F _ Hin); [reflexivity|discriminate].
Defined.

(** ** [_dualOptimize] and [suggestValue]: feasibility restored *)




Section MoreMembers.
Context {K V : Type} {HK : Keyed K}.




End MoreMembers.




Section DualPivot.
Variable insertISymbol : ISymbol.t -> number -> RowBase.t -> RowBase.t.

(** What the argument needs of [insertISymbol]; both revisions of the method
    have these properties. *)
Hypothesis insert_constant :
  forall symbol c this,
    RowBase.constant (insertISymbol symbol c this) = RowBase.constant this.
Hypothesis insert_wf :
  forall symbol c this,
    IMap_wf (RowBase.cells this) ->
    IMap_wf (RowBase.cells (insertISymbol symbol c this)).
Hypothesis insert_other :
  forall symbol c this other,
    ISymbol.id other <> ISymbol.id symbol ->
    IMap.find other (RowBase.cells (insertISymbol symbol c this))
    = IMap.find other (RowBase.cells this).









End DualPivot.

(** *** The rows [suggestValue] touches *)






Section Suggest.
Variable insertISymbol : ISymbol.t -> number -> RowBase.t -> RowBase.t.
Hypothesis insert_constant :
  forall symbol c this,
    RowBase.constant (insertISymbol symbol c this) = RowBase.constant this.
Hypothesis insert_wf :
  forall symbol c this,
    IMap_wf (RowBase.cells this) ->
    IMap_wf (RowBase.cells (insertISymbol symbol c this)).
Hypothesis insert_other :
  forall symbol c this other,
    ISymbol.id other <> ISymbol.id symbol ->
    IMap.find other (RowBase.cells (insertISymbol symbol c this))
    = IMap.find other (RowBase.cells this).



End Suggest.

Lemma Row2_insertISymbol_other (symbol : ISymbol.t) (c : number)
  (this : RowBase.t) (other : ISymbol.t) :
  ISymbol.id other <> ISymbol.id symbol ->
  IMap.find other (RowBase.cells (Row2.insertISymbol symbol c this))
  = IMap.find other (RowBase.cells this).
Proof.
  intro Hne. rewrite Row2_insertISymbol_cases. cbv zeta.
  assert (Hcells : IMap.find other
                     match IMap.find symbol (RowBase.cells this) with
                     | Some _ => RowBase.cells this
                     | None => IMap.insert symbol 0 (RowBase.cells this)
                     end
                   = IMap.find other (RowBase.cells this)).
  { destruct (IMap.find symbol (RowBase.cells this)); [reflexivity|].
    exact (find_insert_other (HK := ISymbol_Keyed) symbol other 0 _ Hne). }
  destruct (nearZero _); cbn [RowBase.cells].
  - now rewrite (find_remove_other (HK := ISymbol_Keyed) symbol other _ Hne).
  - now rewrite (find_insert_other (HK := ISymbol_Keyed) symbol other _ _ Hne).
Qed.





(** ** [removeConstraint], second revision: feasibility kept *)

(** The constant of another row after a substitution that lowers the
    symbol. *)
Lemma substituted_constant_down (c t a r : Q) :
  0 <= c -> t <= 0 -> (0 < a -> - t <= r /\ r == c / a) -> 0 <= c + t * a.
Proof.
  intros Hc Ht Hr.
  destruct (Qlt_le_dec 0 a) as [Ha|Ha]; [|nra].
  destruct (Hr Ha) as [Hle E].
  assert (U : r * a == c) by (rewrite E; field; lra).
  nra.
Qed.

Lemma pos_over_pos (c a : Q) :
  0 <= c -> 0 < a -> c * (-1 / a) <= 0 /\ - (c * (-1 / a)) == c / a.
Proof.
  intros Hc Ha.
  assert (E : c * (-1 / a) == - (c * / a)) by (field; lra).
  assert (P : 0 < / a) by (now apply Qinv_lt_0_compat).
  split.
  - rewrite E. nra.
  - field. lra.
Qed.

(** How the second revision picks the leaving row of a marker, when the
    pick is valid: a restricted row of the least ratio in the first or the
    second search, or else an external row when no restricted row holds the
    marker. *)
Lemma marker_leaving_cases (marker : ISymbol.t)
  (rs : IMap.t ISymbol.t RowBase.t) :
  (forall pr, In pr rs -> Solver2.ISymbol_same (fst pr) INVALID_SYMBOL = false) ->
  (forall pr, In pr rs -> tier1 marker pr = true ->
              ratio1 marker pr < MAX_VALUE) ->
  (forall pr, In pr rs -> tier2 marker pr = true ->
              ratio2 marker pr < MAX_VALUE) ->
  let leaving := Solver2._getMarkerLeavingISymbol rs marker in
  isInvalid leaving = false ->
  exists pl,
    In pl rs /\ leaving = fst pl
    /\ ((tier1 marker pl = true
         /\ forall q, In q rs -> tier1 marker q = true ->
                      ratio1 marker pl <= ratio1 marker q)
        \/ (tier2 marker pl = true
            /\ forall q, In q rs -> tier2 marker q = true ->
                         ratio2 marker pl <= ratio2 marker q)
        \/ (tier3 marker pl = true
            /\ forall q, In q rs ->
                 tier1 marker q = false /\ tier2 marker q = false)).
Proof.
  intros Hkeys Hb1 Hb2.
  unfold Solver2._getMarkerLeavingISymbol.
  rewrite rev2_loop_is_three_searches. cbv zeta.
  destruct (keep_smaller_min (tier1 marker) (ratio1 marker) rs
              (MAX_VALUE, INVALID_SYMBOL)) as [Hmin1 Hres1].
  destruct (keep_smaller_min (tier2 marker) (ratio2 marker) rs
              (MAX_VALUE, INVALID_SYMBOL)) as [Hmin2 Hres2].
  cbv zeta in Hmin1, Hres1, Hmin2, Hres2.
  destruct (Solver2.ISymbol_same
              (snd (fold_left (keep_smaller (tier1 marker) (ratio1 marker)) rs
                      (MAX_VALUE, INVALID_SYMBOL))) INVALID_SYMBOL) eqn:S1;
    cbn [negb].
  - destruct (Solver2.ISymbol_same
                (snd (fold_left (keep_smaller (tier2 marker) (ratio2 marker)) rs
                        (MAX_VALUE, INVALID_SYMBOL))) INVALID_SYMBOL) eqn:S2;
      cbn [negb].
    + (* the third search *)
      intro Hvalid.
      assert (N1 : forall q, In q rs -> tier1 marker q = false).
      { intros q Hq. destruct (tier1 marker q) eqn:T; [|reflexivity].
        exfalso.
        destruct (search_from_invalid_some (tier1 marker) (ratio1 marker) rs
                    Hb1 (ex_intro _ q (conj Hq T)))
          as (pr & Hin & _ & E & _).
        rewrite E in S1. cbn [snd] in S1.
        rewrite (Hkeys pr Hin) in S1. discriminate S1. }
      assert (N2 : forall q, In q rs -> tier2 marker q = false).
      { intros q Hq. destruct (tier2 marker q) eqn:T; [|reflexivity].
        exfalso.
        destruct (search_from_invalid_some (tier2 marker) (ratio2 marker) rs
                    Hb2 (ex_intro _ q (conj Hq T)))
          as (pr & Hin & _ & E & _).
        rewrite E in S2. cbn [snd] in S2.
        rewrite (Hkeys pr Hin) in S2. discriminate S2. }
      destruct (keep_last_is_last marker rs INVALID_SYMBOL)
        as [[E _]|(b & pr & a & E & Ht & R & _)].
      * cbv zeta in E. rewrite E in Hvalid. discriminate Hvalid.
      * cbv zeta in R. exists pr.
        split; [rewrite E; apply in_or_app; right; now left|].
        split; [exact R|]. right. right. split; [exact Ht|].
        intros q Hq. split; [now apply N1|now apply N2].
    + intros _.
      destruct Hres2 as [E|(pr & Hin & Hc & E & _)].
      * rewrite E in S2. discriminate S2.
      * exists pr. split; [exact Hin|]. rewrite E. split; [reflexivity|].
        right. left. split; [exact Hc|].
        intros q Hq Hcq. rewrite E in Hmin2. exact (Hmin2 q Hq Hcq).
  - intros _.
    destruct Hres1 as [E|(pr & Hin & Hc & E & _)].
    + rewrite E in S1. discriminate S1.
    + exists pr. split; [exact Hin|]. rewrite E. split; [reflexivity|].
      left. split; [exact Hc|].
      intros q Hq Hcq. rewrite E in Hmin1. exact (Hmin1 q Hq Hcq).
Qed.

Lemma restricted_iff (pr : ISymbol.t * RowBase.t) :
  restricted pr = true <-> ISymbol.type (fst pr) <> External.
Proof.
  unfold restricted. split.
  - intros H E. rewrite E in H. discriminate H.
  - intro H. destruct (ISymbol.type (fst pr)); try reflexivity. congruence.
Qed.

(** The pivot of [removeConstraint]: the row of the leaving symbol is taken
    out and solved for the marker, and the marker is substituted in the
    other rows; the solved row is dropped. *)
Lemma removal_pivot_keeps_feasible (marker : ISymbol.t)
  (rs : IMap.t ISymbol.t RowBase.t) (pr : ISymbol.t * RowBase.t)
  (row : RowBase.t) :
  IMap_wf rs -> cells_wf rs -> feasible rs ->
  (forall p, In p rs -> Solver2.ISymbol_same (fst p) INVALID_SYMBOL = false) ->
  (forall p, In p rs -> tier1 marker p = true -> ratio1 marker p < MAX_VALUE) ->
  (forall p, In p rs -> tier2 marker p = true -> ratio2 marker p < MAX_VALUE) ->
  IMap.find marker rs = None ->
  let leaving := Solver2._getMarkerLeavingISymbol rs marker in
  isInvalid leaving = false ->
  IMap.find leaving rs = Some pr ->
  RowBase.solveForEx Row2.insertISymbol leaving marker (snd pr) = Ok row ->
  let rs' :=
    IMap.mapValues (RowBase.substitute Row2.insertISymbol marker row)
      (IMap.remove leaving rs) in
  IMap_wf rs' /\ cells_wf rs' /\ feasible rs'.
Proof.
  intros Hwf Hcells Hfeas Hkeys Hb1 Hb2 Hbasic leaving Hvalid Hfind Hsolve rs'.
  destruct (marker_leaving_cases marker rs Hkeys Hb1 Hb2 Hvalid)
    as (pl & Hin & El & Hcase).
  fold leaving in El.
  assert (Epr : pr = pl).
  { pose proof (wf_find_In (HK := ISymbol_Keyed) pl rs Hwf Hin) as F.
    rewrite <- El, Hfind in F. now injection F. }
  subst pl.
  assert (Hne : ISymbol.id marker <> ISymbol.id leaving).
  { intro E. rewrite El in E.
    rewrite (find_same_id (HK := ISymbol_Keyed) marker (fst pr) rs E) in Hbasic.
    rewrite (wf_find_In (HK := ISymbol_Keyed) pr rs Hwf Hin) in Hbasic.
    discriminate Hbasic. }
  pose proof (Hcells pr Hin) as Hwfl.
  unfold RowBase.solveForEx in Hsolve.
  destruct (solveFor_constant _ _ _ Hsolve) as (cell & Hcell & Crow & Wrow).
  rewrite Row2_insertISymbol_constant in Crow.
  rewrite (Row2_insertISymbol_other leaving (-1) (snd pr) marker Hne) in Hcell.
  assert (Ecoeff : coeff marker pr = snd cell).
  { unfold coeff, RowBase.coefficientFor. now rewrite Hcell. }
  assert (Hwfrow : IMap_wf (RowBase.cells row)).
  { apply Wrow. now apply Row2_insertISymbol_wf. }
  assert (Hcoeff : forall q cq,
            IMap.find marker (RowBase.cells (snd q)) = Some cq ->
            coeff marker q = snd cq).
  { intros q cq F. unfold coeff, RowBase.coefficientFor. now rewrite F. }
  subst rs'. split; [|split].
  - apply (wf_mapValues (HK := ISymbol_Keyed)).
    now apply (wf_remove (HK := ISymbol_Keyed)).
  - intros p Hp. apply In_mapValues in Hp.
    destruct Hp as (q & Hq & ->). cbn [snd].
    apply (In_remove (HK := ISymbol_Keyed)) in Hq.
    apply (proj2 (substitute_constant Row2.insertISymbol
                    Row2_insertISymbol_constant Row2_insertISymbol_wf
                    marker row (snd q))).
    exact (Hcells q Hq).
  - intros p Hp Hptype. apply In_mapValues in Hp.
    destruct Hp as (q & Hq & ->). cbn [fst snd] in *.
    apply (In_remove (HK := ISymbol_Keyed)) in Hq.
    rewrite (proj1 (substitute_constant Row2.insertISymbol
                      Row2_insertISymbol_constant Row2_insertISymbol_wf
                      marker row (snd q))).
    pose proof (Hfeas q Hq Hptype) as Hcq.
    pose proof (proj2 (restricted_iff q) Hptype) as Hrq.
    destruct (IMap.find marker (RowBase.cells (snd q))) as [cq|] eqn:Hfq;
      [|exact Hcq].
    pose proof (Hcoeff q cq Hfq) as Eq.
    destruct Hcase as [[T Hmin]|[[T Hmin]|[T Hnone]]].
    + (* a restricted row with a negative coefficient leaves *)
      unfold tier1 in T. apply andb_true_iff in T. destruct T as [Rl Nl].
      apply Qlt_bool_iff in Nl. rewrite Ecoeff in Nl.
      pose proof (Hfeas pr Hin (proj1 (restricted_iff pr) Rl)) as Hcl.
      destruct (pivot_constant (RowBase.constant (snd pr)) (snd cell)
                  (snd cell) Hcl (Qle_refl _) Nl) as [Ht0 Ht].
      rewrite <- Crow in Ht0, Ht.
      apply (substituted_constant _ _ _ (ratio1 marker q) Hcq Ht0).
      intro Hnegq. split.
      * eapply Qle_trans; [exact Ht|].
        assert (Er : ratio1 marker pr
                     = - RowBase.constant (snd pr) / snd cell)
          by (unfold ratio1; now rewrite Ecoeff).
        rewrite <- Er. apply (Hmin q Hq).
        unfold tier1. rewrite Hrq, Eq. cbn [andb]. now apply Qlt_bool_iff.
      * unfold ratio1. rewrite Eq. reflexivity.
    + (* a restricted row with a positive coefficient leaves *)
      unfold tier2 in T. apply andb_true_iff in T. destruct T as [Rl Pl].
      apply Qlt_bool_iff in Pl. rewrite Ecoeff in Pl.
      pose proof (Hfeas pr Hin (proj1 (restricted_iff pr) Rl)) as Hcl.
      destruct (pos_over_pos (RowBase.constant (snd pr)) (snd cell) Hcl Pl)
        as [Ht0 Ht].
      rewrite <- Crow in Ht0, Ht.
      apply (substituted_constant_down _ _ _ (ratio2 marker q) Hcq Ht0).
      intro Hposq. split.
      * rewrite Ht.
        assert (Er : ratio2 marker pr
                     = RowBase.constant (snd pr) / snd cell)
          by (unfold ratio2; now rewrite Ecoeff).
        rewrite <- Er. apply (Hmin q Hq).
        unfold tier2. rewrite Hrq, Eq. cbn [andb]. now apply Qlt_bool_iff.
      * unfold ratio2. rewrite Eq. reflexivity.
    + (* an external row leaves: no restricted row holds the marker *)
      destruct (Hnone q Hq) as [N1 N2].
      unfold tier1 in N1. unfold tier2 in N2.
      rewrite Hrq, Eq in N1, N2. cbn [andb] in N1, N2.
      apply Qlt_bool_false_iff in N1. apply Qlt_bool_false_iff in N2.
      assert (Z0 : snd cq == 0) by lra.
      rewrite Z0, Qmult_0_r, Qplus_0_r. exact Hcq.
Qed.

Lemma _removeConstraintEffects_keeps_rows
  (insertISymbol : ISymbol.t -> number -> RowBase.t -> RowBase.t)
  (cn : Constraint.t) (tag : ITag.t) :
  keeps rows (SolverCore._removeConstraintEffects insertISymbol cn tag).
Proof.
  unfold SolverCore._removeConstraintEffects, SolverCore._removeMarkerEffects.
  repeat keeps_step;
    apply keeps_modify; intro s;
    match goal with
    | |- context [IMap.find ?k ?m] => destruct (IMap.find k m)
    end; reflexivity.
Qed.

(** solver.ts, second revision, on exact numbers: [removeConstraint] keeps
    a feasible tableau feasible (a fact of the algorithm, as for [_optimize]
    above).  When the solver holds one row per basic symbol, every row one
    cell per symbol, no basic symbol is the invalid symbol, every row whose
    basic symbol is not external has a constant of at least zero, and the
    ratios of the searches for a leaving row are below [Number.MAX_VALUE],
    then the solver that [removeConstraint] leaves behind, whether it returns
    or throws, again has one row per basic symbol, one cell per symbol in
    every row and a constant of at least zero in every row whose basic symbol
    is not external. *)
Lemma rev2_removeConstraint_keeps_feasibility (fuel : nat)
  (cn : Constraint.t) (s : Solver) (r : Result unit) (s' : Solver) :
  tableau_ok s ->
  (forall p, In p (rows s) ->
     Solver2.ISymbol_same (fst p) INVALID_SYMBOL = false) ->
  (forall marker p, In p (rows s) ->
     (tier1 marker p = true -> ratio1 marker p < MAX_VALUE)
     /\ (tier2 marker p = true -> ratio2 marker p < MAX_VALUE)) ->
  Solver2.removeConstraint fuel cn s = (r, s') ->
  tableau_ok s'.
Proof.
  intros Hok Hkeys Hbound H.
  unfold Solver2.removeConstraint, SolverCore.removeConstraint in H.
  unfold bind at 1, gets in H. unfold IMap.erase at 1 in H.
  destruct (IMap.find cn (constraints s)) as [cnPair|];
    [|injection H as _ <-; exact Hok].
  unfold bind at 1, modify in H.
  unfold bind at 1 in H.
  set (s1 := set_constraints (IMap.remove cn (constraints s)) s) in *.
  pose proof (_removeConstraintEffects_keeps_rows Row2.insertISymbol cn
                (snd cnPair) s1) as Hkeep.
  destruct (SolverCore._removeConstraintEffects Row2.insertISymbol cn
              (snd cnPair) s1) as [[[]|e] s2] eqn:Heff.
  2:{ injection H as _ <-. unfold tableau_ok.
      rewrite (Hkeep _ _ eq_refl). exact Hok. }
  assert (R2 : rows s2 = rows s) by exact (Hkeep _ _ eq_refl).
  clear Hkeep Heff.
  cbv zeta in H. unfold bind at 1 in H.
  assert (Hsub : forall p, In p (rows s) -> In p (rows s2))
    by (intros p Hp; now rewrite R2).
  assert (Hok2 : tableau_ok s2) by (unfold tableau_ok; now rewrite R2).
  assert (Hless : forall k s3,
            rows s3 = IMap.remove k (rows s2) -> tableau_ok s3).
  { intros k s3 E. destruct Hok2 as (Hwf & Hcells & Hfeas).
    unfold tableau_ok. rewrite E.
    split; [now apply (wf_remove (HK := ISymbol_Keyed))|].
    split; intros p Hp; apply (In_remove (HK := ISymbol_Keyed)) in Hp;
      [exact (Hcells p Hp)|exact (Hfeas p Hp)]. }
  match type of H with
  | bind ?M _ s2 = _ => set (m := M) in H
  end.
  assert (HM : forall r3 s3, m s2 = (r3, s3) -> tableau_ok s3).
  { subst m. intros r3 s3 E. unfold IMap.erase in E.
    set (marker := ITag.marker (snd cnPair)) in *.
    destruct (IMap.find marker (rows s2)) eqn:Hbasic.
    - injection E as _ <-. now apply (Hless marker).
    - destruct (isInvalid (Solver2._getMarkerLeavingISymbol (rows s2) marker))
        eqn:Hvalid; [injection E as _ <-; exact Hok2|].
      destruct (IMap.find (Solver2._getMarkerLeavingISymbol (rows s2) marker)
                  (rows s2)) as [rowPair|] eqn:Hfind;
        [|injection E as _ <-; exact Hok2].
      unfold bind at 1 in E. unfold bind at 1, lift in E.
      destruct (SolverCore.solveForEx Row2.insertISymbol _ marker
                  (snd rowPair)) as [row|e] eqn:Hsolve.
      + pose proof (rows_after_substitute Row2.insertISymbol marker row
                      (set_rows
                         (IMap.remove
                            (Solver2._getMarkerLeavingISymbol (rows s2) marker)
                            (rows s2)) s2)) as Hrows.
        unfold state_after in Hrows. rewrite E in Hrows.
        cbn [snd rows set_rows] in Hrows.
        destruct Hok2 as (Hwf & Hcells & Hfeas).
        unfold tableau_ok. rewrite Hrows.
        apply (removal_pivot_keeps_feasible marker (rows s2) rowPair row);
          try assumption.
        * intros p Hp. apply Hkeys. now rewrite <- R2.
        * intros p Hp. apply (Hbound marker p). now rewrite <- R2.
        * intros p Hp. apply (Hbound marker p). now rewrite <- R2.
      + injection E as _ <-.
        now apply (Hless (Solver2._getMarkerLeavingISymbol (rows s2) marker)). }
  unfold bind at 1 in H.
  destruct (m s2) as [[[]|e] s3] eqn:E.
  - exact (_optimize_keeps_tableau Row2.insertISymbol
             Row2_insertISymbol_constant Row2_insertISymbol_wf
             Row2_insertISymbol_minus_one fuel TObjective s3 r s' H
             (HM _ _ eq_refl)).
  - injection H as _ <-. exact (HM _ _ eq_refl).
Qed.

(** The solver after [x <= 10], [x >= 5] and [x >= 0] were admitted. *)
Definition solver_three_bounds : Solver :=
  state_after (Solver2.addConstraint 10 cn_x_ge_0)
    (state_after (Solver2.addConstraint 10 cn_x_ge_5)
       (state_after (Solver2.addConstraint 10 cn_x_le_10) newSolver)).

Lemma rev2_removeConstraint_keeps_feasibility_witness :
  exists s',
    Solver2.removeConstraint 10 cn_x_le_10 solver_three_bounds = (Ok tt, s')
    /\ rows s' = [(x_sym, RowBase.mk 5 [(slack3, 1)]);
                  (slack5, RowBase.mk 5 [(slack3, 1)])]
    /\ tableau_ok s'.
Proof.
  set (run := Solver2.removeConstraint 10 cn_x_le_10).
  exists (state_after run solver_three_bounds).
  assert (H : run solver_three_bounds
              = (Ok tt, state_after run solver_three_bounds))
    by (vm_compute; reflexivity).
  assert (R : rows (state_after run solver_three_bounds)
              = [(x_sym, RowBase.mk 5 [(slack3, 1)]);
                 (slack5, RowBase.mk 5 [(slack3, 1)])])
    by (vm_compute; reflexivity).
  assert (R0 : rows solver_three_bounds = tableau_three_bounds)
    by (vm_compute; reflexivity).
  assert (Hok : tableau_ok solver_three_bounds).
  { unfold tableau_ok. rewrite R0. split; [repeat constructor|]. split.
    - intros p [<-|[<-|[<-|[]]]]; repeat constructor.
    - intros p [<-|[<-|[<-|[]]]] _; cbn [snd RowBase.constant]; lra. }
  assert (Hkeys : forall p, In p (rows solver_three_bounds) ->
            Solver2.ISymbol_same (fst p) INVALID_SYMBOL = false).
  { rewrite R0. intros p [<-|[<-|[<-|[]]]]; reflexivity. }
  assert (Hbound : forall marker p, In p (rows solver_three_bounds) ->
            (tier1 marker p = true -> ratio1 marker p < MAX_VALUE)
            /\ (tier2 marker p = true -> ratio2 marker p < MAX_VALUE)).
  { rewrite R0. intros marker p Hp.
    unfold tier1, tier2, ratio1, ratio2, coeff, RowBase.coefficientFor.
    destruct Hp as [<-|[<-|[<-|[]]]];
      cbn [fst snd RowBase.cells RowBase.constant IMap.find];
      destruct (key_id slack1 =? key_id marker)%Z; cbn [snd];
      split; intro T; try reflexivity;
      rewrite andb_comm in T; discriminate T. }
  split; [exact H|]. split; [exact R|].
  exact (rev2_removeConstraint_keeps_feasibility 10 cn_x_le_10
           solver_three_bounds (Ok tt) _ Hok Hkeys Hbound H).
Defined.
